(** * Git-Msg: the diff-preprocessing, prompt and sanitising pipeline

    A shallow embedding of [src/extension.ts].  JavaScript strings are
    sequences of UTF-16 code units, so a string is a [list N]; the regular
    expressions of the source are kept as data and run by a small
    backtracking matcher that follows the ECMAScript continuation
    semantics for the constructs the source uses. *)

From Stdlib Require Import Ascii String.
From Stdlib Require Import NArith Bool Arith Lia QArith List.
Import ListNotations.
Local Open Scope list_scope.
Local Open Scope nat_scope.

(* ================================================================== *)
(** ** JavaScript strings *)

Module Js.

Definition jsstring := list N.

(** An ASCII literal as a sequence of code units. *)
Definition str (s : string) : jsstring :=
  map N_of_ascii (list_ascii_of_string s).

Arguments str _%_string.

Definition chr (a : ascii) : N := N_of_ascii a.
Arguments chr _%_char.

Definition in_range (lo hi c : N) : bool := ((lo <=? c) && (c <=? hi))%N.

(** ECMAScript LineTerminator: LF, CR, LS, PS. *)
Definition is_line_terminator (c : N) : bool :=
  ((c =? 10) || (c =? 13) || (c =? 8232) || (c =? 8233))%N.

(** ECMAScript WhiteSpace: TAB, VT, FF, ZWNBSP and the Space_Separator
    category. *)
Definition is_white_space (c : N) : bool :=
  ((c =? 9) || (c =? 11) || (c =? 12) || (c =? 32) || (c =? 160)
   || (c =? 5760) || in_range 8192 8202 c || (c =? 8239) || (c =? 8287)
   || (c =? 12288) || (c =? 65279))%N.

(** What [String.prototype.trim] strips: WhiteSpace and LineTerminator. *)
Definition is_trimmable (c : N) : bool :=
  is_white_space c || is_line_terminator c.

Fixpoint dropWhile (p : N -> bool) (s : jsstring) : jsstring :=
  match s with
  | [] => []
  | c :: s' => if p c then dropWhile p s' else s
  end.

Definition trimStart (s : jsstring) : jsstring := dropWhile is_trimmable s.
Definition trimEnd (s : jsstring) : jsstring :=
  rev (dropWhile is_trimmable (rev s)).
Definition trim (s : jsstring) : jsstring := trimEnd (trimStart s).

(** [s.slice(0, n)]. *)
Definition slice0 (n : N) (s : jsstring) : jsstring := firstn (N.to_nat n) s.

(** [s.length]. *)
Definition strlen (s : jsstring) : N := N.of_nat (length s).

Fixpoint jseqb (a b : jsstring) : bool :=
  match a, b with
  | [], [] => true
  | x :: a', y :: b' => (x =? y)%N && jseqb a' b'
  | _, _ => false
  end.

Fixpoint startsWith (p s : jsstring) : bool :=
  match p, s with
  | [], _ => true
  | x :: p', y :: s' => (x =? y)%N && startsWith p' s'
  | _ :: _, [] => false
  end.

Definition endsWith (p s : jsstring) : bool := startsWith (rev p) (rev s).

(** Number of positions of [s] at which [p] occurs. *)
Fixpoint occurrences (p s : jsstring) : nat :=
  (if startsWith p s then 1 else 0) +
  match s with
  | [] => 0
  | _ :: s' => occurrences p s'
  end.

(** [s.split("\n")]: the lines of a text. *)
Fixpoint split_acc (acc s : jsstring) : list jsstring :=
  match s with
  | [] => [acc]
  | c :: s' => if (c =? 10)%N then acc :: split_acc [] s'
               else split_acc (acc ++ [c]) s'
  end.

Definition lines (s : jsstring) : list jsstring := split_acc [] s.

Definition has_line (l s : jsstring) : bool := existsb (jseqb l) (lines s).

(** JavaScript truthiness of a value that is [undefined] or a string. *)
Definition truthy (v : option jsstring) : bool :=
  match v with
  | Some (_ :: _) => true
  | _ => false
  end.

End Js.
Import Js.

(* ================================================================== *)
(** ** Regular expressions *)

Module RegExp.

Definition cls := N -> bool.

(** The pattern constructs used by the source: the assertions [^] and [$],
    a single character of a class, and a greedy quantifier [{min,max}] on
    a class ([*] is [{0,}], [+] is [{1,}], [?] is [{0,1}]). *)
Inductive atom : Type :=
| Bol
| Eol
| Cls (c : cls)
| Quant (min : nat) (max : option nat) (c : cls).

Definition Star (c : cls) : atom := Quant 0 None c.
Definition Plus (c : cls) : atom := Quant 1 None c.
Definition Opt (c : cls) : atom := Quant 0 (Some 1) c.
Definition AtLeast (n : nat) (c : cls) : atom := Quant n None c.

Definition one (a : ascii) : cls := fun c => (c =? N_of_ascii a)%N.
Arguments one _%_char.

(** A literal run of pattern characters. *)
Definition lit (s : string) : list atom :=
  map (fun a => Cls (one a)) (list_ascii_of_string s).
Arguments lit _%_string.

Definition dot : cls := fun c => negb (is_line_terminator c).
Definition digit : cls := in_range (chr "0") (chr "9").
Definition hex_lower : cls :=
  fun c => in_range (chr "a") (chr "f") c || in_range (chr "0") (chr "9") c.
Definition lower : cls := in_range (chr "a") (chr "z").
Definition newline : cls := one "010".

Record regex := {
  source : list atom;
  global : bool;
  ignoreCase : bool;
  multiline : bool
}.

(** Canonicalize without the [u] flag is [toUpperCase] restricted so that
    a code unit of 128 or more never maps below 128.  Every class of the
    source holds ASCII characters only, for which this means: a letter
    matches in either case, anything else matches as itself. *)
Definition swap_case (c : N) : N :=
  if in_range 97 122 c then (c - 32)%N
  else if in_range 65 90 c then (c + 32)%N
  else c.

Definition cls_match (ic : bool) (c : cls) (ch : N) : bool :=
  if ic then c ch || c (swap_case ch) else c ch.

Definition at_bol (ml : bool) (prev : option N) : bool :=
  match prev with
  | None => true
  | Some c => ml && is_line_terminator c
  end.

Definition at_eol (ml : bool) (rest : jsstring) : bool :=
  match rest with
  | [] => true
  | c :: _ => ml && is_line_terminator c
  end.

Definition cont := option N -> jsstring -> option nat.

(** Greedy repetition with backtracking: take one more character when the
    class and the upper bound allow and the rest of the pattern then
    matches; otherwise stop here, which needs the lower bound reached. *)
Fixpoint quant (p : N -> bool) (min : nat) (max : option nat) (k : cont)
         (prev : option N) (rest : jsstring) : option nat :=
  let stop := if Nat.eqb min 0 then k prev rest else None in
  match rest with
  | [] => stop
  | ch :: r =>
      if p ch && negb (match max with Some 0 => true | _ => false end) then
        match quant p (pred min) (option_map pred max) k (Some ch) r with
        | Some n => Some (S n)
        | None => stop
        end
      else stop
  end.

(** The matcher at one position: [prev] is the code unit before the
    position, [rest] the input from the position on; the result is the
    length of the match. *)
Fixpoint match_atoms (ic ml : bool) (ats : list atom)
         (prev : option N) (rest : jsstring) : option nat :=
  match ats with
  | [] => Some 0
  | Bol :: ats' =>
      if at_bol ml prev then match_atoms ic ml ats' prev rest else None
  | Eol :: ats' =>
      if at_eol ml rest then match_atoms ic ml ats' prev rest else None
  | Cls c :: ats' =>
      match rest with
      | [] => None
      | ch :: r =>
          if cls_match ic c ch
          then option_map S (match_atoms ic ml ats' (Some ch) r)
          else None
      end
  | Quant min max c :: ats' =>
      quant (cls_match ic c) min max (match_atoms ic ml ats') prev rest
  end.

Definition try_match (re : regex) (prev : option N) (rest : jsstring)
  : option nat :=
  match_atoms (ignoreCase re) (multiline re) (source re) prev rest.

(** [replace] with a global pattern: every match, left to right, from
    [lastIndex]; an empty match moves [lastIndex] on by one.  [skip] counts
    the code units of the current match still to be dropped. *)
Fixpoint replace_all (re : regex) (repl : jsstring) (skip : nat)
         (prev : option N) (rest : jsstring) : jsstring :=
  match skip with
  | S k =>
      match rest with
      | [] => []
      | c :: r => replace_all re repl k (Some c) r
      end
  | O =>
      match try_match re prev rest with
      | Some n =>
          repl ++
          match rest with
          | [] => []
          | c :: r =>
              match n with
              | O => c :: replace_all re repl 0 (Some c) r
              | S k => replace_all re repl k (Some c) r
              end
          end
      | None =>
          match rest with
          | [] => []
          | c :: r => c :: replace_all re repl 0 (Some c) r
          end
      end
  end.

(** [replace] with a pattern that is not global: the first match only. *)
Fixpoint replace_first (re : regex) (repl : jsstring)
         (prev : option N) (rest : jsstring) : jsstring :=
  match try_match re prev rest with
  | Some n => repl ++ skipn n rest
  | None =>
      match rest with
      | [] => []
      | c :: r => c :: replace_first re repl (Some c) r
      end
  end.

(** [s.replace(re, repl)] for a replacement text without [$] patterns. *)
Definition replace (re : regex) (repl : jsstring) (s : jsstring) : jsstring :=
  if global re then replace_all re repl 0 None s
  else replace_first re repl None s.

End RegExp.
Import RegExp.

(* ================================================================== *)
(** ** Constants of [extension.ts] *)

Definition MAX_DIFF_CHARS : N := 12000.

Definition re (g i m : bool) (ats : list atom) : regex :=
  {| source := ats; global := g; ignoreCase := i; multiline := m |}.

(** [/^index [a-f0-9]+\.\.[a-f0-9]+.*$/gm] *)
Definition NOISE_INDEX : regex :=
  re true false true
     ([Bol] ++ lit "index " ++ [Plus hex_lower] ++ lit ".." ++
      [Plus hex_lower; Star dot; Eol]).

(** [/^similarity index \d+%$/gm] *)
Definition NOISE_SIMILARITY : regex :=
  re true false true
     ([Bol] ++ lit "similarity index " ++ [Plus digit] ++ lit "%" ++ [Eol]).

(** [/^old mode \d+$/gm] *)
Definition NOISE_OLD_MODE : regex :=
  re true false true ([Bol] ++ lit "old mode " ++ [Plus digit; Eol]).

(** [/^new mode \d+$/gm] *)
Definition NOISE_NEW_MODE : regex :=
  re true false true ([Bol] ++ lit "new mode " ++ [Plus digit; Eol]).

(** [/^Binary files .+ differ$/gm] *)
Definition NOISE_BINARY : regex :=
  re true false true
     ([Bol] ++ lit "Binary files " ++ [Plus dot] ++ lit " differ" ++ [Eol]).

Definition NOISE_PATTERNS : list regex :=
  [NOISE_INDEX; NOISE_SIMILARITY; NOISE_OLD_MODE; NOISE_NEW_MODE;
   NOISE_BINARY].

(** [/\n{3,}/g] *)
Definition BLANK_RUN : regex := re true false false [AtLeast 3 newline].

(** [/^```[a-z]*\n?/i] *)
Definition FENCE_OPEN : regex :=
  re false true false ([Bol] ++ lit "```" ++ [Star lower; Opt newline]).

(** [/```$/i] *)
Definition FENCE_CLOSE : regex := re false true false (lit "```" ++ [Eol]).

Definition TRUNCATION_NOTICE : jsstring :=
  [10; 10]%N ++ str "[... diff truncated for length ...]".

(* ================================================================== *)
(** ** Diff preprocessing *)

(** The loop over [NOISE_PATTERNS]. *)
Definition remove_noise (rawDiff : jsstring) : jsstring :=
  fold_left (fun diff pattern => replace pattern [] diff) NOISE_PATTERNS
            rawDiff.

(** [diff.replace(/\n{3,}/g, '\n\n')] *)
Definition collapse_blank_lines (diff : jsstring) : jsstring :=
  replace BLANK_RUN [10; 10]%N diff.

(** The text after noise removal and blank-line collapsing. *)
Definition filtered (rawDiff : jsstring) : jsstring :=
  collapse_blank_lines (remove_noise rawDiff).

Definition preprocessDiff (rawDiff : jsstring) : jsstring :=
  let diff := rawDiff in
  let diff := remove_noise diff in
  let diff := collapse_blank_lines diff in
  let diff :=
    if (MAX_DIFF_CHARS <? strlen diff)%N
    then slice0 MAX_DIFF_CHARS diff ++ TRUNCATION_NOTICE
    else diff in
  trim diff.

(* ================================================================== *)
(** ** Prompt construction *)

Definition nl : string := String "010" EmptyString.
Definition dq : string := String "034" EmptyString.

Fixpoint unlines (ls : list string) : string :=
  match ls with
  | [] => EmptyString
  | [l] => l
  | l :: ls' => (l ++ nl ++ unlines ls')%string
  end.

Local Open Scope string_scope.

Definition PROMPT_HEAD : string :=
  unlines
    [ EmptyString;
      "You are an expert software engineer writing Git commit messages.";
      EmptyString;
      "## Context";
      "Branch: " ].

Definition PROMPT_FILES : string :=
  unlines [ EmptyString; "Staged files:"; EmptyString ].

Definition PROMPT_RULES : string :=
  unlines
    [ EmptyString;
      EmptyString;
      "## Rules";
      "- Use Conventional Commits format: <type>(<scope>): <short summary>";
      "- Allowed types: feat, fix, refactor, chore, docs, style, test, perf, ci";
      "- Scope is optional but use it when the change is clearly scoped to one area";
      "- Summary line: max 72 characters, imperative mood (" ++ dq ++ "add"
        ++ dq ++ " not " ++ dq ++ "added" ++ dq ++ "), no period";
      "- Body (optional): explain WHAT changed and WHY, not HOW. Use bullet points.";
      "- Do NOT include a footer unless there is a breaking change (BREAKING CHANGE: ...)";
      "- Return ONLY the commit message. No explanations, no markdown fences, no quotes.";
      EmptyString;
      "## Examples";
      EmptyString;
      "### Example 1";
      "Diff: adds a new /health route that returns 200 OK";
      "Output:";
      "feat(api): add health check endpoint";
      EmptyString;
      "### Example 2";
      "Diff: fixes null pointer when user.profile is undefined";
      "Output:";
      "fix(profile): handle undefined user profile on load";
      EmptyString;
      "### Example 3";
      "Diff: extracts auth logic into useAuth hook, removes duplicate code in Login and Signup";
      "Output:";
      "refactor(auth): extract auth logic into useAuth hook";
      EmptyString;
      "- Move shared auth state to useAuth";
      "- Remove duplicated logic from Login and Signup components";
      EmptyString;
      "## Now write the commit message for this diff";
      EmptyString;
      EmptyString ].

Definition PROMPT_TAIL : string := unlines [ EmptyString; EmptyString ].

Local Close Scope string_scope.

(** The template literal of [buildPrompt], before [.trim()]. *)
Definition prompt_template (diff stagedFiles branchName : jsstring)
  : jsstring :=
  str PROMPT_HEAD ++ branchName ++ str PROMPT_FILES ++ stagedFiles ++
  str PROMPT_RULES ++ diff ++ str PROMPT_TAIL.

Definition buildPrompt (diff stagedFiles branchName : jsstring) : jsstring :=
  trim (prompt_template diff stagedFiles branchName).

(* ================================================================== *)
(** ** Message sanitising *)

(** [text.replace(/^```[a-z]*\n?/i, '').replace(/```$/i, '').trim()] *)
Definition sanitize (text : jsstring) : jsstring :=
  trim (replace FENCE_CLOSE [] (replace FENCE_OPEN [] text)).

(* ================================================================== *)
(** ** The command handler and its collaborators *)

Module Host.

(** A value that is thrown, or that a promise is rejected with, as the
    [catch] block of the command sees it: evaluating [err.message] inside
    the template literal gives a text, or throws in its turn, as it does on
    [null] and on [undefined], where the engine raises a TypeError. *)
Inductive Thrown : Type :=
| Err (message : jsstring)
| NoMessage (raised : Thrown).

(** A promise that has settled. *)
Inductive Settled (A : Type) : Type :=
| Fulfilled (value : A)
| Rejected (reason : Thrown).
Arguments Fulfilled {A} value.
Arguments Rejected {A} reason.

Record Repository := {
  rootUri_fsPath : jsstring;
  inputBox_value : jsstring
}.

(** What [cp.exec] hands to its callback, and when. *)
Record ProcessResult := {
  err_message : option jsstring;
  stdout : jsstring;
  stderr : jsstring;
  exitedAt : nat
}.

Record GenerationConfig := {
  temperature : Q;
  topP : Q;
  maxOutputTokens : N
}.

Record ProviderRequest := {
  req_apiKey : jsstring;
  req_model : jsstring;
  req_generationConfig : GenerationConfig;
  req_prompt : jsstring
}.

Record GitExtension := {
  isActive : bool;
  activate_failure : option Thrown
}.

(** Everything the handler reads from outside. *)
Record Env := {
  cfg_geminiApiKey : option jsstring;
  cfg_model : option jsstring;
  git_extension : option GitExtension;
  run_process : jsstring -> jsstring -> ProcessResult;
  provider : ProviderRequest -> Settled jsstring
}.

Inductive Event : Type :=
| ShowErrorMessage (m : jsstring)
| ShowWarningMessage (m : jsstring)
| ShowInformationMessage (m : jsstring)
| WithProgress (title : jsstring)
| ActivateGit
| Exec (command cwd : jsstring)
| GenerateContent (req : ProviderRequest)
| ConsoleError (m : jsstring).

(** What the handler changes: the repositories of the Git API (their input
    boxes) and the log of calls made. *)
Record World := {
  repositories : option (list Repository);
  events : list Event
}.

Definition M (A : Type) : Type := World -> Settled A * World.

Definition ret {A} (a : A) : M A := fun w => (Fulfilled a, w).

Definition throw {A} (e : Thrown) : M A := fun w => (Rejected e, w).

Definition bind {A B} (m : M A) (f : A -> M B) : M B :=
  fun w =>
    match m w with
    | (Fulfilled a, w') => f a w'
    | (Rejected e, w') => (Rejected e, w')
    end.

Definition try_catch {A} (m : M A) (h : Thrown -> M A) : M A :=
  fun w =>
    match m w with
    | (Fulfilled a, w') => (Fulfilled a, w')
    | (Rejected e, w') => h e w'
    end.

Notation "x <- m ;; k" := (bind m (fun x => k))
  (at level 61, m at next level, right associativity).
Notation "m ;;; k" := (bind m (fun _ => k))
  (at level 61, right associativity).

Definition emit (e : Event) : M unit :=
  fun w =>
    (Fulfilled tt,
     {| repositories := repositories w; events := events w ++ [e] |}).

Definition get_repositories : M (option (list Repository)) :=
  fun w => (Fulfilled (repositories w), w).

(** [repo.inputBox.value = message] for [repo = git.repositories[0]]. *)
Definition set_inputBox (message : jsstring) : M unit :=
  fun w =>
    (Fulfilled tt,
     {| repositories :=
          match repositories w with
          | Some (r :: rs) =>
              Some ({| rootUri_fsPath := rootUri_fsPath r;
                       inputBox_value := message |} :: rs)
          | other => other
          end;
        events := events w |}).

Record Promise := {
  settled : Settled jsstring;
  settledAt : nat
}.

(** The callback given to [cp.exec]: reject with
    [new Error(stderr || err.message)], resolve with [stdout.trim()]. *)
Definition exec_callback (r : ProcessResult) : Promise :=
  {| settled :=
       match err_message r with
       | Some m =>
           Rejected
             (Err (match stderr r with [] => m | _ :: _ => stderr r end))
       | None => Fulfilled (trim (stdout r))
       end;
     settledAt := exitedAt r |}.

(** [execCommand]: the process is started at once and its promise settles
    when the callback runs. *)
Definition execCommand (env : Env) (command cwd : jsstring) : M Promise :=
  emit (Exec command cwd) ;;;
  ret (exec_callback (run_process env command cwd)).

Definition getGitDiff (env : Env) (rootPath : jsstring) : M Promise :=
  execCommand env (str "git diff --cached") rootPath.
Definition getStagedFiles (env : Env) (rootPath : jsstring) : M Promise :=
  execCommand env (str "git diff --cached --name-status") rootPath.
Definition getBranchName (env : Env) (rootPath : jsstring) : M Promise :=
  execCommand env (str "git rev-parse --abbrev-ref HEAD") rootPath.

(** The rejection that settles first, the earlier array position winning
    a tie. *)
Fixpoint first_rejection (ps : list Promise) : option (Thrown * nat) :=
  match ps with
  | [] => None
  | p :: ps' =>
      match settled p, first_rejection ps' with
      | Rejected e, Some (e', t') =>
          if settledAt p <=? t' then Some (e, settledAt p) else Some (e', t')
      | Rejected e, None => Some (e, settledAt p)
      | Fulfilled _, other => other
      end
  end.

(** [await Promise.all([a, b, c])] *)
Definition promise_all3 (a b c : Promise)
  : M (jsstring * jsstring * jsstring) :=
  match settled a, settled b, settled c with
  | Fulfilled x, Fulfilled y, Fulfilled z => ret (x, y, z)
  | _, _, _ =>
      match first_rejection [a; b; c] with
      | Some (e, _) => throw e
      | None => throw (Err [])
      end
  end.

Definition DEFAULT_MODEL : jsstring := str "gemini-2.0-flash".

Definition MSG_NO_API_KEY : jsstring :=
  str "Git-Msg: No API key found. Add it via Settings " ++ [8594%N] ++
  str " gitMsg.geminiApiKey".
Definition MSG_NO_GIT_EXTENSION : jsstring :=
  str "Git-Msg: VS Code Git extension not found.".
Definition MSG_NO_REPOSITORY : jsstring :=
  str "Git-Msg: No Git repository is open.".
Definition MSG_NOTHING_STAGED : jsstring :=
  str ("Git-Msg: No staged changes found. Run " ++ dq ++ "git add" ++ dq
       ++ " first.").
Definition MSG_PROGRESS : jsstring :=
  str "Git-Msg: Generating commit message" ++ [8230%N].
Definition MSG_READY : jsstring :=
  str "Git-Msg: Commit message ready " ++ [10003%N].
Definition MSG_ERROR_PREFIX : jsstring := str "Git-Msg Error: ".

Definition generateCommitMessage (env : Env)
           (diff stagedFiles branchName apiKey modelName : jsstring)
  : M jsstring :=
  let req :=
    {| req_apiKey := apiKey;
       req_model := modelName;
       req_generationConfig :=
         {| temperature := 0.2; topP := 0.9; maxOutputTokens := 256 |};
       req_prompt := buildPrompt diff stagedFiles branchName |} in
  emit (GenerateContent req) ;;;
  match provider env req with
  | Rejected e => throw e
  | Fulfilled response_text =>
      let text := trim response_text in
      ret (sanitize text)
  end.

(** The body of the [try] block of the [git-msg.generate] command. *)
Definition generate_body (env : Env) : M unit :=
  let apiKey := cfg_geminiApiKey env in
  let modelName :=
    match cfg_model env with
    | Some (c :: m) => c :: m
    | _ => DEFAULT_MODEL
    end in
  match apiKey with
  | Some (k :: key) =>
      match git_extension env with
      | None => emit (ShowErrorMessage MSG_NO_GIT_EXTENSION)
      | Some gitExtension =>
          (if isActive gitExtension then ret tt
           else emit ActivateGit ;;;
                match activate_failure gitExtension with
                | Some e => throw e
                | None => ret tt
                end) ;;;
          repos <- get_repositories ;;
          match repos with
          | Some (repo :: _) =>
              let rootPath := rootUri_fsPath repo in
              p1 <- getGitDiff env rootPath ;;
              p2 <- getStagedFiles env rootPath ;;
              p3 <- getBranchName env rootPath ;;
              gathered <- promise_all3 p1 p2 p3 ;;
              let '(rawDiff, stagedFiles, branchName) := gathered in
              match trim rawDiff with
              | [] => emit (ShowWarningMessage MSG_NOTHING_STAGED)
              | _ :: _ =>
                  emit (WithProgress MSG_PROGRESS) ;;;
                  message <-
                    (let cleanDiff := preprocessDiff rawDiff in
                     generateCommitMessage env cleanDiff stagedFiles
                                           branchName (k :: key) modelName) ;;
                  match message with
                  | [] => ret tt
                  | _ :: _ =>
                      set_inputBox message ;;;
                      emit (ShowInformationMessage MSG_READY)
                  end
              end
          | _ => emit (ShowErrorMessage MSG_NO_REPOSITORY)
          end
      end
  | _ => emit (ShowErrorMessage MSG_NO_API_KEY)
  end.

(** The registered command: the [try] block and its [catch].  The message
    shown is evaluated first; when that throws, nothing is shown and the
    command is rejected with what was thrown. *)
Definition generate_command (env : Env) : M unit :=
  try_catch (generate_body env)
            (fun err =>
               match err with
               | Err message =>
                   emit (ShowErrorMessage (MSG_ERROR_PREFIX ++ message)) ;;;
                   emit (ConsoleError message)
               | NoMessage raised => throw raised
               end).

Definition is_provider_call (e : Event) : bool :=
  match e with GenerateContent _ => true | _ => false end.

Definition is_process_call (e : Event) : bool :=
  match e with Exec _ _ => true | _ => false end.

Definition is_information (e : Event) : bool :=
  match e with ShowInformationMessage _ => true | _ => false end.

(** The events a run of the command adds to the log. *)
Definition run_events (env : Env) (repos : option (list Repository))
  : list Event :=
  events (snd (generate_command env {| repositories := repos; events := [] |})).

Definition run_repositories (env : Env) (repos : option (list Repository))
  : option (list Repository) :=
  repositories
    (snd (generate_command env {| repositories := repos; events := [] |})).

(** How the promise of a run of the command settles. *)
Definition run_outcome (env : Env) (repos : option (list Repository))
  : Settled unit :=
  fst (generate_command env {| repositories := repos; events := [] |}).

End Host.
Import Host.

(* ================================================================== *)
(** ** Vocabulary of the statements *)

(** The text of the truncation marker, without the blank line before it. *)
Definition MARKER_TEXT : jsstring := str "[... diff truncated for length ...]".

Definition ends_with (s suffix : jsstring) : Prop :=
  exists before, s = before ++ suffix.

Definition contains (s part : jsstring) : Prop :=
  exists before after, s = before ++ part ++ after.

(** The outcomes of the three Git commands of a run. *)
Definition diff_result (env : Env) (repo : Repository) : ProcessResult :=
  run_process env (str "git diff --cached") (rootUri_fsPath repo).
Definition files_result (env : Env) (repo : Repository) : ProcessResult :=
  run_process env (str "git diff --cached --name-status")
              (rootUri_fsPath repo).
Definition branch_result (env : Env) (repo : Repository) : ProcessResult :=
  run_process env (str "git rev-parse --abbrev-ref HEAD")
              (rootUri_fsPath repo).

(** The Git extension is there and active, or activates without failing. *)
Definition git_ready (env : Env) : Prop :=
  exists g, git_extension env = Some g /\
            (isActive g = true \/ activate_failure g = None).

(** All three Git commands succeeded. *)
Definition gathered (env : Env) (repo : Repository) : Prop :=
  err_message (diff_result env repo) = None /\
  err_message (files_result env repo) = None /\
  err_message (branch_result env repo) = None.

(** A configured environment in which every Git command prints [diff_out]
    for the diff and "main" otherwise, and the provider answers [reply]. *)
Definition demo_env (key model : option jsstring) (diff_out reply : jsstring)
  : Env :=
  {| cfg_geminiApiKey := key;
     cfg_model := model;
     git_extension := Some {| isActive := true; activate_failure := None |};
     run_process := fun command _ =>
       {| err_message := None;
          stdout := if jseqb command (str "git diff --cached") then diff_out
                    else str "main";
          stderr := [];
          exitedAt := 0 |};
     provider := fun _ => Fulfilled reply |}.

Definition demo_repo : Repository :=
  {| rootUri_fsPath := str "/work"; inputBox_value := str "draft" |}.

Definition demo_request (prompt : jsstring) : ProviderRequest :=
  {| req_apiKey := str "key";
     req_model := DEFAULT_MODEL;
     req_generationConfig :=
       {| temperature := 0.2; topP := 0.9; maxOutputTokens := 256 |};
     req_prompt := prompt |}.

(** The template up to and including "Branch: ", without the line break
    that [trim] removes at its start. *)
Definition PROMPT_INTRO : jsstring := tl (str PROMPT_HEAD).

(** The rules and examples, from the line break after the staged files to
    the last line before the diff. *)
Definition PROMPT_BODY : jsstring := trimEnd (str PROMPT_RULES).

(** What C3 says of one triple of inputs. *)
Definition prompt_claim (diff stagedFiles branchName : jsstring) : Prop :=
  let prompt := buildPrompt diff stagedFiles branchName in
  occurrences branchName prompt = 1 /\
  occurrences stagedFiles prompt = 1 /\
  ends_with prompt diff.

Definition FENCE : jsstring := str "```".

Definition is_letter (c : N) : bool := in_range 65 90 c || in_range 97 122 c.

(** A literal that the [i] flag does not change: no letters in it. *)
Definition plain (ic : bool) (l : list ascii) : Prop :=
  ic = true -> forallb (fun a => negb (is_letter (N_of_ascii a))) l = true.

(** The position reached after consuming [consumed]. *)
Definition prev_after (prev : option N) (consumed : jsstring) : option N :=
  fold_left (fun _ c => Some c) consumed prev.

(** What C2 says of one input. *)
Definition sanitize_twice_is_once (s : jsstring) : Prop :=
  sanitize (sanitize s) = sanitize s.

Definition DOUBLE_FENCED : jsstring :=
  str "```" ++ [10%N] ++ str "```text" ++ [10%N] ++ str "fix: x" ++ [10%N]
  ++ str "```" ++ [10%N] ++ str "```".

(** Length of the run of line feeds at the start of a text. *)
Fixpoint nlrun (s : jsstring) : nat :=
  match s with
  | [] => 0
  | c :: s' => if (c =? 10)%N then S (nlrun s') else 0
  end.

(** No three line feeds in a row anywhere. *)
Fixpoint no_blank_run (s : jsstring) : bool :=
  match s with
  | [] => true
  | _ :: s' => (nlrun s <? 3) && no_blank_run s'
  end.

Definition no_lt (s : jsstring) : bool :=
  forallb (fun c => negb (is_line_terminator c)) s.

(** The pattern matches at the start of the line [l] taken on its own. *)
Definition line_match (p : regex) (l : jsstring) : bool :=
  match try_match p None l with
  | Some _ => true
  | None => false
  end.

Definition keep_line (p : regex) (l : jsstring) : jsstring :=
  if line_match p l then [] else l.

(** Rewrite every line (the text between line terminators) with [f],
    leaving the terminators in place. *)
Fixpoint strip_acc (f : jsstring -> jsstring) (acc s : jsstring) : jsstring :=
  match s with
  | [] => f acc
  | c :: s' =>
      if is_line_terminator c then f acc ++ c :: strip_acc f [] s'
      else strip_acc f (acc ++ [c]) s'
  end.

Definition strip_lines (f : jsstring -> jsstring) (s : jsstring) : jsstring :=
  strip_acc f [] s.

(** An atom that cannot consume a line terminator and does not look
    behind. *)
Definition line_local (a : atom) : Prop :=
  match a with
  | Bol => False
  | Eol => True
  | Cls c | Quant _ _ c =>
      forall ch, is_line_terminator ch = true -> c ch = false
  end.

Definition ends_at_eol (ml : bool) (k : cont) : Prop :=
  forall prev rest n,
    k prev rest = Some n ->
    n <= length rest /\ at_eol ml (skipn n rest) = true.

(** What is left to do once a line has been dealt with: copy the line
    terminator and go on with the next line. *)
Definition next_line (p : regex) (rest0 : jsstring) : jsstring :=
  match rest0 with
  | [] => []
  | t :: r => t :: replace_all p [] 0 (Some t) r
  end.

Definition BODY_INDEX : list atom :=
  lit "index " ++ [Plus hex_lower] ++ lit ".." ++ [Plus hex_lower; Star dot].
Definition BODY_SIMILARITY : list atom :=
  lit "similarity index " ++ [Plus digit] ++ lit "%".
Definition BODY_OLD_MODE : list atom := lit "old mode " ++ [Plus digit].
Definition BODY_NEW_MODE : list atom := lit "new mode " ++ [Plus digit].
Definition BODY_BINARY : list atom :=
  lit "Binary files " ++ [Plus dot] ++ lit " differ".

(** A line that one of the noise patterns matches. *)
Definition noise_line (l : jsstring) : bool :=
  existsb (fun p => line_match p l) NOISE_PATTERNS.

(** What the loop over the patterns makes of one line. *)
Definition keep_all (l : jsstring) : jsstring :=
  fold_left (fun l p => keep_line p l) NOISE_PATTERNS l.

(** The text between line terminators, [acc] being the part of the current
    line already read. *)
Fixpoint segs_acc (acc s : jsstring) : list jsstring :=
  match s with
  | [] => [acc]
  | c :: s' =>
      if is_line_terminator c then acc :: segs_acc [] s'
      else segs_acc (acc ++ [c]) s'
  end.

Definition segs (s : jsstring) : list jsstring := segs_acc [] s.

Definition LINE_INDEX : jsstring := str "index abc123..def456 100644".
Definition LINE_BINARY : jsstring :=
  str "Binary files a/x.png and b/x.png differ".
Definition LINE_OLD_MODE : jsstring := str "old mode 100644".
Definition LINE_NEW_MODE : jsstring := str "new mode 100755".

Definition NAMED_NOISE_LINES : list jsstring :=
  [LINE_INDEX; LINE_BINARY; LINE_OLD_MODE; LINE_NEW_MODE].

(** What C4 says of one diff text. *)
Definition noise_claim (rawDiff : jsstring) : Prop :=
  has_line LINE_INDEX rawDiff = true \/
  has_line LINE_BINARY rawDiff = true \/
  (has_line LINE_OLD_MODE rawDiff = true /\
   has_line LINE_NEW_MODE rawDiff = true) ->
  forall L, In L NAMED_NOISE_LINES -> has_line L (preprocessDiff rawDiff) = false.

Definition MODE_PAIR_THEN_CONTEXT : jsstring :=
  str "old mode 100644" ++ [10%N] ++ str "new mode 100755" ++ [10%N] ++
  str " old mode 100644".

(** Only whitespace (or nothing). *)
Definition blank (s : jsstring) : bool := forallb is_trimmable s.

(** The lines (between line terminators) that hold more than whitespace. *)
Definition text_lines (s : jsstring) : list jsstring :=
  filter (fun l => negb (blank l)) (segs s).

(** The lines of a diff that noise removal leaves with text: those that
    hold more than whitespace and that no noise pattern matches. *)
Definition content_lines (rawDiff : jsstring) : list jsstring :=
  filter (fun l => negb (noise_line l)) (text_lines rawDiff).

(** What the final [trim] makes of the first and of the last line with
    text: the first loses the whitespace at its start, the last the
    whitespace at its end, a single one both. *)
Definition output_ends (ls : list jsstring) : list jsstring :=
  match ls with
  | [] => []
  | [l] => [trim l]
  | l :: rest => [trimStart l; trimEnd (last rest [])]
  end.

(** The lines of [trimStart s], from the lines of [s]. *)
Fixpoint lstrip (ls : list jsstring) : list jsstring :=
  match ls with
  | [] => [[]]
  | l :: rest => if blank l then lstrip rest else trimStart l :: rest
  end.

(** The lines of [trimEnd s], from the lines of [s]. *)
Definition rstrip (ls : list jsstring) : list jsstring :=
  rev (map (@rev N) (lstrip (rev (map (@rev N) ls)))).

(** A diff that ends with the line of a binary file. *)
Definition BINARY_LAST : jsstring :=
  str "diff --git a/x.png b/x.png" ++ [10%N] ++
  str "index abc123..def456 100644" ++ [10%N] ++
  str "Binary files a/x.png and b/x.png differ" ++ [10%N].

(** A diff whose filtered text is cut, 12,000 code units in, in the middle
    of the line "old mode 100644 or newer", just after the digits. *)
Definition CUT_AFTER_MODE : jsstring :=
  repeat (chr "+") (N.to_nat 11984) ++ [10%N] ++
  str "old mode 100644 or newer".

(* ================================================================== *)
(** ** Vocabulary of the further properties *)

(** [ActivateGit] is logged when the Git extension is not active yet. *)
Definition activation_events (g : GitExtension) : list Event :=
  if isActive g then [] else [ActivateGit].

(** The three Git commands, in the order in which they are started. *)
Definition git_execs (root : jsstring) : list Event :=
  [Exec (str "git diff --cached") root;
   Exec (str "git diff --cached --name-status") root;
   Exec (str "git rev-parse --abbrev-ref HEAD") root].

Definition git_results (env : Env) (repo : Repository) : list ProcessResult :=
  [diff_result env repo; files_result env repo; branch_result env repo].

(** The model setting, or the default when it is missing or empty. *)
Definition model_or_default (env : Env) : jsstring :=
  match cfg_model env with
  | Some (c :: m) => c :: m
  | _ => DEFAULT_MODEL
  end.

(** The request a run sends for the repository [repo] with the key [key]:
    the prompt is built from the trimmed outputs of the three commands. *)
Definition request_of (env : Env) (key : jsstring) (repo : Repository)
  : ProviderRequest :=
  {| req_apiKey := key;
     req_model := model_or_default env;
     req_generationConfig :=
       {| temperature := 0.2; topP := 0.9; maxOutputTokens := 256 |};
     req_prompt :=
       buildPrompt (preprocessDiff (trim (stdout (diff_result env repo))))
                   (trim (stdout (files_result env repo)))
                   (trim (stdout (branch_result env repo))) |}.

(** The message a failed process is reported with: [stderr || err.message]. *)
Definition rejection_of (r : ProcessResult) : option jsstring :=
  match err_message r with
  | Some m => Some (match stderr r with [] => m | _ :: _ => stderr r end)
  | None => None
  end.

Definition with_inputBox (repo : Repository) (message : jsstring)
  : Repository :=
  {| rootUri_fsPath := rootUri_fsPath repo; inputBox_value := message |}.

Definition is_notification (e : Event) : bool :=
  match e with
  | ShowErrorMessage _ | ShowWarningMessage _ | ShowInformationMessage _ =>
      true
  | _ => false
  end.

(** The text shown for a caught error. *)
Definition caught (e : jsstring) : list Event :=
  [ShowErrorMessage (MSG_ERROR_PREFIX ++ e); ConsoleError e].

(** The kinds of run of the command: what is logged, what becomes of the
    repositories and how the promise of the command settles. *)
Inductive Run (env : Env) :
  option (list Repository) -> list Event -> option (list Repository) ->
  Settled unit -> Prop :=
| Run_no_key repos :
    truthy (cfg_geminiApiKey env) = false ->
    Run env repos [ShowErrorMessage MSG_NO_API_KEY] repos (Fulfilled tt)
| Run_no_extension repos :
    truthy (cfg_geminiApiKey env) = true ->
    git_extension env = None ->
    Run env repos [ShowErrorMessage MSG_NO_GIT_EXTENSION] repos (Fulfilled tt)
| Run_activation_failed repos g e :
    truthy (cfg_geminiApiKey env) = true ->
    git_extension env = Some g ->
    isActive g = false -> activate_failure g = Some (Err e) ->
    Run env repos (ActivateGit :: caught e) repos (Fulfilled tt)
| Run_activation_unreadable repos g v :
    truthy (cfg_geminiApiKey env) = true ->
    git_extension env = Some g ->
    isActive g = false -> activate_failure g = Some (NoMessage v) ->
    Run env repos [ActivateGit] repos (Rejected v)
| Run_no_repository repos g :
    truthy (cfg_geminiApiKey env) = true ->
    git_extension env = Some g ->
    isActive g = true \/ activate_failure g = None ->
    repos = None \/ repos = Some [] ->
    Run env repos
        (activation_events g ++ [ShowErrorMessage MSG_NO_REPOSITORY]) repos
        (Fulfilled tt)
| Run_git_failed repo others g r e :
    truthy (cfg_geminiApiKey env) = true ->
    git_extension env = Some g ->
    isActive g = true \/ activate_failure g = None ->
    In r (git_results env repo) ->
    rejection_of r = Some e ->
    (forall r', In r' (git_results env repo) -> err_message r' <> None ->
                exitedAt r <= exitedAt r') ->
    Run env (Some (repo :: others))
        (activation_events g ++ git_execs (rootUri_fsPath repo) ++ caught e)
        (Some (repo :: others)) (Fulfilled tt)
| Run_nothing_staged repo others g :
    truthy (cfg_geminiApiKey env) = true ->
    git_extension env = Some g ->
    isActive g = true \/ activate_failure g = None ->
    gathered env repo ->
    trim (stdout (diff_result env repo)) = [] ->
    Run env (Some (repo :: others))
        (activation_events g ++ git_execs (rootUri_fsPath repo) ++
         [ShowWarningMessage MSG_NOTHING_STAGED])
        (Some (repo :: others)) (Fulfilled tt)
| Run_provider_failed repo others g key e :
    cfg_geminiApiKey env = Some key -> key <> [] ->
    git_extension env = Some g ->
    isActive g = true \/ activate_failure g = None ->
    gathered env repo ->
    trim (stdout (diff_result env repo)) <> [] ->
    provider env (request_of env key repo) = Rejected (Err e) ->
    Run env (Some (repo :: others))
        (activation_events g ++ git_execs (rootUri_fsPath repo) ++
         [WithProgress MSG_PROGRESS;
          GenerateContent (request_of env key repo)] ++ caught e)
        (Some (repo :: others)) (Fulfilled tt)
| Run_provider_unreadable repo others g key v :
    cfg_geminiApiKey env = Some key -> key <> [] ->
    git_extension env = Some g ->
    isActive g = true \/ activate_failure g = None ->
    gathered env repo ->
    trim (stdout (diff_result env repo)) <> [] ->
    provider env (request_of env key repo) = Rejected (NoMessage v) ->
    Run env (Some (repo :: others))
        (activation_events g ++ git_execs (rootUri_fsPath repo) ++
         [WithProgress MSG_PROGRESS;
          GenerateContent (request_of env key repo)])
        (Some (repo :: others)) (Rejected v)
| Run_empty_message repo others g key reply :
    cfg_geminiApiKey env = Some key -> key <> [] ->
    git_extension env = Some g ->
    isActive g = true \/ activate_failure g = None ->
    gathered env repo ->
    trim (stdout (diff_result env repo)) <> [] ->
    provider env (request_of env key repo) = Fulfilled reply ->
    sanitize (trim reply) = [] ->
    Run env (Some (repo :: others))
        (activation_events g ++ git_execs (rootUri_fsPath repo) ++
         [WithProgress MSG_PROGRESS;
          GenerateContent (request_of env key repo)])
        (Some (repo :: others)) (Fulfilled tt)
| Run_delivered repo others g key reply :
    cfg_geminiApiKey env = Some key -> key <> [] ->
    git_extension env = Some g ->
    isActive g = true \/ activate_failure g = None ->
    gathered env repo ->
    trim (stdout (diff_result env repo)) <> [] ->
    provider env (request_of env key repo) = Fulfilled reply ->
    sanitize (trim reply) <> [] ->
    Run env (Some (repo :: others))
        (activation_events g ++ git_execs (rootUri_fsPath repo) ++
         [WithProgress MSG_PROGRESS;
          GenerateContent (request_of env key repo);
          ShowInformationMessage MSG_READY])
        (Some (with_inputBox repo (sanitize (trim reply)) :: others))
        (Fulfilled tt).

(** An environment like [demo_env] in which the branch query fails, as in
    a repository without commits. *)
Definition unborn_branch_env : Env :=
  {| cfg_geminiApiKey := Some (str "key");
     cfg_model := None;
     git_extension := Some {| isActive := true; activate_failure := None |};
     run_process := fun command _ =>
       if jseqb command (str "git rev-parse --abbrev-ref HEAD")
       then {| err_message := Some (str "Command failed");
               stdout := [];
               stderr := str "fatal: ambiguous argument 'HEAD'";
               exitedAt := 2 |}
       else {| err_message := None; stdout := str "+x"; stderr := [];
               exitedAt := 1 |};
     provider := fun _ => Fulfilled (str "fix: x") |}.

(** An environment like [demo_env] whose provider refuses the key. *)
Definition bad_key_env : Env :=
  {| cfg_geminiApiKey := Some (str "key");
     cfg_model := None;
     git_extension := Some {| isActive := false; activate_failure := None |};
     run_process := fun _ _ =>
       {| err_message := None; stdout := str "+x"; stderr := [];
          exitedAt := 0 |};
     provider := fun _ => Rejected (Err (str "API key not valid")) |}.

(** An environment like [demo_env] with a Git extension that is not active
    and fails to activate. *)
Definition broken_git_env : Env :=
  {| cfg_geminiApiKey := Some (str "key");
     cfg_model := None;
     git_extension :=
       Some {| isActive := false;
               activate_failure := Some (Err (str "Git not found")) |};
     run_process := fun _ _ =>
       {| err_message := None; stdout := str "+x"; stderr := [];
          exitedAt := 0 |};
     provider := fun _ => Fulfilled (str "fix: x") |}.

(** What the loop over the noise patterns does to one line. *)
Definition drop_noise (l : jsstring) : jsstring :=
  if noise_line l then [] else l.

Definition line_feed (c : N) : bool := (c =? 10)%N.

Definition matched (o : option nat) : bool :=
  match o with
  | Some _ => true
  | None => false
  end.

Definition bol_free (a : atom) : Prop :=
  match a with
  | Bol => False
  | _ => True
  end.

(** Blank-line collapsing, read directly: a line feed goes exactly when at
    least two more line feeds follow it at once. *)
Fixpoint collapse_direct (s : jsstring) : jsstring :=
  match s with
  | [] => []
  | c :: s' =>
      if (c =? 10)%N && (2 <=? nlrun s') then collapse_direct s'
      else c :: collapse_direct s'
  end.

(** The opening fence, read directly: three backticks at the very start,
    the ASCII letters after them, and one line feed if it comes next. *)
Definition strip_open_fence (s : jsstring) : jsstring :=
  if startsWith FENCE s then
    match dropWhile is_letter (skipn 3 s) with
    | [] => []
    | c :: r => if (c =? 10)%N then r else c :: r
    end
  else s.

(** The closing fence, read directly: three backticks at the very end. *)
Definition strip_close_fence (s : jsstring) : jsstring :=
  if endsWith FENCE s then firstn (length s - 3) s else s.

(* ================================================================== *)
(** ** Trimming *)

Section Trimming.

Variable p : N -> bool.

Lemma dropWhile_app_stop (x y : jsstring) (c : N) :
  p c = false -> dropWhile p (x ++ c :: y) = dropWhile p x ++ c :: y.
Proof.
  intros Hc. induction x as [|a x IH]; simpl.
  - now rewrite Hc.
  - destruct (p a); [exact IH | reflexivity].
Qed.

Lemma dropWhile_length (s : jsstring) : length (dropWhile p s) <= length s.
Proof.
  induction s as [|a s IH]; simpl; [lia|].
  destruct (p a); simpl; lia.
Qed.

Lemma dropWhile_fixed (s : jsstring) :
  dropWhile p (dropWhile p s) = dropWhile p s.
Proof.
  induction s as [|a s IH]; simpl; [reflexivity|].
  destruct (p a) eqn:E; [exact IH | simpl; now rewrite E].
Qed.

Lemma dropWhile_all (s : jsstring) :
  forallb p s = true -> dropWhile p s = [].
Proof.
  induction s as [|a s IH]; simpl; [reflexivity|].
  destruct (p a); simpl; [exact IH | discriminate].
Qed.

Lemma dropWhile_head (c : N) (s : jsstring) :
  p c = false -> dropWhile p (c :: s) = c :: s.
Proof. intros H. simpl. now rewrite H. Qed.

End Trimming.

Lemma trimEnd_snoc (x : jsstring) (c : N) :
  is_trimmable c = false -> trimEnd (x ++ [c]) = x ++ [c].
Proof.
  intros H. unfold trimEnd. rewrite rev_app_distr. simpl.
  rewrite H. simpl. now rewrite rev_involutive.
Qed.

Lemma trimEnd_length (s : jsstring) : length (trimEnd s) <= length s.
Proof.
  unfold trimEnd. rewrite length_rev.
  etransitivity; [apply dropWhile_length | now rewrite length_rev].
Qed.

Lemma trim_length (s : jsstring) : length (trim s) <= length s.
Proof.
  unfold trim, trimStart.
  etransitivity; [apply trimEnd_length | apply dropWhile_length].
Qed.

Lemma trimEnd_app_stop (x y : jsstring) (c : N) :
  is_trimmable c = false -> trimEnd (x ++ c :: y) = x ++ c :: trimEnd y.
Proof.
  intros H. unfold trimEnd.
  rewrite rev_app_distr. simpl rev at 1. rewrite <- app_assoc. simpl.
  rewrite dropWhile_app_stop by exact H.
  rewrite rev_app_distr. simpl. rewrite rev_involutive.
  now rewrite <- app_assoc.
Qed.

Lemma trimStart_cases (s : jsstring) :
  trimStart s = [] \/
  exists c t, trimStart s = c :: t /\ is_trimmable c = false.
Proof.
  unfold trimStart. induction s as [|a s IH]; simpl; [now left|].
  destruct (is_trimmable a) eqn:E; [exact IH|].
  right. now exists a, s.
Qed.

Lemma trimEnd_cons (c : N) (s : jsstring) :
  is_trimmable c = false -> trimEnd (c :: s) = c :: trimEnd s.
Proof. intros H. exact (trimEnd_app_stop [] s c H). Qed.

Lemma trimEnd_fixed (s : jsstring) : trimEnd (trimEnd s) = trimEnd s.
Proof.
  unfold trimEnd. rewrite rev_involutive. now rewrite dropWhile_fixed.
Qed.

Lemma trim_fixed (s : jsstring) : trim (trim s) = trim s.
Proof.
  unfold trim at 2 3.
  destruct (trimStart_cases s) as [E | [c [t [E Hc]]]]; rewrite E.
  - reflexivity.
  - rewrite trimEnd_cons by exact Hc. unfold trim, trimStart.
    rewrite dropWhile_head by exact Hc.
    rewrite trimEnd_cons by exact Hc. now rewrite trimEnd_fixed.
Qed.

(* ================================================================== *)
(** ** C1: truncation *)

Lemma preprocessDiff_truncated (rawDiff : jsstring) :
  (MAX_DIFF_CHARS < strlen (filtered rawDiff))%N ->
  preprocessDiff rawDiff =
  trimStart (slice0 MAX_DIFF_CHARS (filtered rawDiff) ++ [10; 10]%N)
  ++ MARKER_TEXT.
Proof.
  intros H. unfold preprocessDiff. fold (filtered rawDiff).
  apply N.ltb_lt in H. rewrite H.
  unfold trim, TRUNCATION_NOTICE. fold MARKER_TEXT.
  rewrite app_assoc.
  set (body := slice0 MAX_DIFF_CHARS (filtered rawDiff) ++ [10; 10]%N).
  change MARKER_TEXT with
    (91%N :: removelast (tl MARKER_TEXT) ++ [93%N]).
  unfold trimStart. rewrite dropWhile_app_stop by reflexivity.
  rewrite app_comm_cons, app_assoc.
  now rewrite trimEnd_snoc by reflexivity.
Qed.

(** C1.  When the text left by noise removal and blank-line collapsing is
    longer than 12,000 code units, the output of [preprocessDiff] ends with
    the marker text "[... diff truncated for length ...]" and is at most
    12,000 code units plus the length of the appended notice (the marker
    text with the blank line before it) long. *)
Theorem preprocessDiff_truncation_marker (rawDiff : jsstring) :
  (MAX_DIFF_CHARS < strlen (filtered rawDiff))%N ->
  ends_with (preprocessDiff rawDiff) MARKER_TEXT /\
  (strlen (preprocessDiff rawDiff)
   <= MAX_DIFF_CHARS + strlen TRUNCATION_NOTICE)%N.
Proof.
  intros H. rewrite (preprocessDiff_truncated _ H). split.
  - now eexists.
  - unfold strlen, TRUNCATION_NOTICE. fold MARKER_TEXT.
    rewrite !length_app.
    pose proof (dropWhile_length is_trimmable
                  (slice0 MAX_DIFF_CHARS (filtered rawDiff) ++ [10; 10]%N)) as L.
    unfold trimStart. rewrite length_app in L. unfold slice0 in *.
    pose proof (firstn_le_length (N.to_nat MAX_DIFF_CHARS) (filtered rawDiff)) as F.
    simpl length in *. lia.
Qed.

Lemma preprocessDiff_truncation_marker_witness :
  ends_with (preprocessDiff (repeat 97%N (N.to_nat 12001))) MARKER_TEXT /\
  (strlen (preprocessDiff (repeat 97%N (N.to_nat 12001)))
   <= MAX_DIFF_CHARS + strlen TRUNCATION_NOTICE)%N.
Proof.
  apply (preprocessDiff_truncation_marker (repeat 97%N (N.to_nat 12001))).
  vm_compute. reflexivity.
Defined.

(** The bound is reached: 12,001 letters come out as 12,000 letters and
    the whole appended notice, 12,037 code units. *)
Example truncation_bound_reached :
  strlen (preprocessDiff (repeat 97%N (N.to_nat 12001))) =
  (MAX_DIFF_CHARS + strlen TRUNCATION_NOTICE)%N.
Proof. vm_compute. reflexivity. Qed.

(* ================================================================== *)
(** ** The command handler *)

Lemma trim_blank (s : jsstring) : forallb is_trimmable s = true -> trim s = [].
Proof.
  intros H. unfold trim, trimStart. now rewrite (dropWhile_all _ _ H).
Qed.

Lemma promise_all3_cases (a b c : Promise) (w : World) :
  (exists x y z,
      settled a = Fulfilled x /\ settled b = Fulfilled y /\
      settled c = Fulfilled z /\
      promise_all3 a b c w = (Fulfilled (x, y, z), w)) \/
  (exists e, promise_all3 a b c w = (Rejected e, w)).
Proof.
  unfold promise_all3, first_rejection.
  destruct (settled a) as [x|ea], (settled b) as [y|eb], (settled c) as [z|ec];
    try (left; now exists x, y, z);
    right; unfold throw;
    repeat match goal with
           | |- context [if ?t then _ else _] => destruct t
           end; eexists; reflexivity.
Qed.

Lemma promise_all3_ok (a b c : Promise) (w : World) (x y z : jsstring) :
  settled a = Fulfilled x -> settled b = Fulfilled y ->
  settled c = Fulfilled z ->
  promise_all3 a b c w = (Fulfilled (x, y, z), w).
Proof. intros Ha Hb Hc. unfold promise_all3. now rewrite Ha, Hb, Hc. Qed.

Lemma exec_callback_fulfilled (r : ProcessResult) (x : jsstring) :
  settled (exec_callback r) = Fulfilled x ->
  err_message r = None /\ x = trim (stdout r).
Proof.
  unfold exec_callback. simpl. destruct (err_message r); [discriminate|].
  intros H. injection H as <-. now split.
Qed.

Lemma exec_callback_ok (r : ProcessResult) :
  err_message r = None ->
  settled (exec_callback r) = Fulfilled (trim (stdout r)).
Proof. intros H. unfold exec_callback. simpl. now rewrite H. Qed.

(** Run the handler symbolically up to the next call whose outcome is not
    known. *)
Ltac run_handler :=
  cbv beta iota zeta delta
      [run_events run_repositories generate_command generate_body
       getGitDiff getStagedFiles getBranchName execCommand
       generateCommitMessage try_catch bind ret throw emit
       get_repositories set_inputBox fst snd events repositories].

Ltac gather x y z Hx Hy Hz e :=
  match goal with
  | |- context [promise_all3 ?a ?b ?c ?w] =>
      destruct (promise_all3_cases a b c w)
        as [(x & y & z & Hx & Hy & Hz & ->) | (e & ->)];
      [|destruct e]
  end.

Lemma blank_diff_never_reaches_provider env repo others :
  forallb is_trimmable (stdout (diff_result env repo)) = true ->
  existsb is_provider_call (run_events env (Some (repo :: others))) = false /\
  run_repositories env (Some (repo :: others)) = Some (repo :: others).
Proof.
  unfold diff_result.
  intros Hb. apply trim_blank in Hb.
  destruct (cfg_geminiApiKey env) as [[|k key]|] eqn:Ek.
  1, 3: run_handler; rewrite Ek; now split.
  destruct (git_extension env) as [g|] eqn:Eg.
  2: { run_handler. rewrite Ek, Eg. now split. }
  run_handler. rewrite Ek, Eg.
  destruct (isActive g); [|destruct (activate_failure g) as [[m|v]|]];
    try now split.
  all: gather x y z Hx Hy Hz e; try now split.
  all: apply exec_callback_fulfilled in Hx; destruct Hx as [_ ->];
    rewrite trim_fixed, Hb; now split.
Qed.

Lemma blank_diff_warns env repo others :
  forallb is_trimmable (stdout (diff_result env repo)) = true ->
  truthy (cfg_geminiApiKey env) = true ->
  git_ready env ->
  gathered env repo ->
  exists before,
    run_events env (Some (repo :: others)) =
    before ++ [ShowWarningMessage MSG_NOTHING_STAGED].
Proof.
  unfold gathered, diff_result, files_result, branch_result.
  intros Hb Hk (g & Eg & Hg) (H1 & H2 & H3). apply trim_blank in Hb.
  destruct (cfg_geminiApiKey env) as [[|k key]|] eqn:Ek; try discriminate.
  run_handler. rewrite Ek, Eg.
  pose proof (fun w => promise_all3_ok _ _ _ w _ _ _
                (exec_callback_ok _ H1) (exec_callback_ok _ H2)
                (exec_callback_ok _ H3)) as Hrun.
  destruct (isActive g); [|destruct Hg as [Hg|Hg]; [discriminate|rewrite Hg]].
  all: rewrite Hrun, trim_fixed, Hb; eexists; reflexivity.
Qed.

(** C7.  When the staged diff the Git runner returns is empty or only
    whitespace, the provider is never called and no input box is written;
    and when the run gets as far as having gathered the three Git outputs,
    the last thing it does is show the nothing-staged warning. *)
Theorem blank_diff_stops_at_warning env repo others :
  forallb is_trimmable (stdout (diff_result env repo)) = true ->
  existsb is_provider_call (run_events env (Some (repo :: others))) = false /\
  run_repositories env (Some (repo :: others)) = Some (repo :: others) /\
  (truthy (cfg_geminiApiKey env) = true ->
   git_ready env ->
   gathered env repo ->
   exists before,
     run_events env (Some (repo :: others)) =
     before ++ [ShowWarningMessage MSG_NOTHING_STAGED]).
Proof.
  intros Hb.
  destruct (blank_diff_never_reaches_provider env repo others Hb) as [H1 H2].
  repeat split; try assumption.
  intros. now apply blank_diff_warns.
Qed.

Lemma blank_diff_stops_at_warning_witness :
  let env := demo_env (Some (str "key")) None [32; 10; 9]%N (str "x") in
  existsb is_provider_call (run_events env (Some [demo_repo])) = false /\
  run_repositories env (Some [demo_repo]) = Some [demo_repo] /\
  exists before,
    run_events env (Some [demo_repo]) =
    before ++ [ShowWarningMessage MSG_NOTHING_STAGED].
Proof.
  intros env.
  destruct (blank_diff_stops_at_warning env demo_repo [] eq_refl)
    as (H1 & H2 & H3).
  repeat split; try assumption.
  apply H3.
  - reflexivity.
  - eexists. split; [reflexivity | now left].
  - repeat split.
Defined.

Ltac no_provider_event H :=
  cbn [app In] in H;
  repeat match type of H with
         | _ \/ _ => destruct H as [H|H]
         | False => contradiction
         | _ = GenerateContent _ => try discriminate H
         end.

(** C9.  When the provider is called and the sanitised text of its answer
    is empty, the repositories (their input boxes) are left as they were,
    no information message is shown, and the provider call is the last
    thing the run does. *)
Theorem empty_message_writes_nothing env repos req reply :
  In (GenerateContent req) (run_events env repos) ->
  provider env req = Fulfilled reply ->
  sanitize (trim reply) = [] ->
  run_repositories env repos = repos /\
  existsb is_information (run_events env repos) = false /\
  exists before, run_events env repos = before ++ [GenerateContent req].
Proof.
  intros Hin Hp Hs. revert Hin.
  destruct (cfg_geminiApiKey env) as [[|k key]|] eqn:Ek.
  1, 3: run_handler; rewrite Ek; intros Hin; no_provider_event Hin.
  destruct (git_extension env) as [g|] eqn:Eg.
  2: { run_handler. rewrite Ek, Eg. intros Hin. no_provider_event Hin. }
  run_handler. rewrite Ek, Eg.
  destruct repos as [[|repo others]|].
  1, 3: destruct (isActive g); [|destruct (activate_failure g) as [[m|v]|]];
        intros Hin; no_provider_event Hin.
  destruct (isActive g); [|destruct (activate_failure g) as [[m|v]|]].
  2, 3: intros Hin; no_provider_event Hin.
  all: gather x y z Hx Hy Hz e.
  2, 3, 5, 6: intros Hin; no_provider_event Hin.
  all: destruct (trim x) as [|c t] eqn:Et;
    [intros Hin; no_provider_event Hin|].
  all: match goal with
       | |- context [provider ?E ?r] =>
           set (r0 := r);
           destruct (provider E r0) as [text|[err|err]] eqn:Ep
       end.
  all: intros Hin.
  all: assert (Hreq : req = r0);
    [ try match type of Hin with
          | context [sanitize ?t] => destruct (sanitize t)
          end;
      no_provider_event Hin; now injection Hin
    | subst req ].
  2, 3, 5, 6: rewrite Hp in Ep; discriminate.
  all: rewrite Hp in Ep; injection Ep as <-; clear Hin.
  all: rewrite Hs; repeat split; eexists; reflexivity.
Qed.

Lemma empty_message_writes_nothing_witness :
  let env := demo_env (Some (str "key")) None (str "+x")
                      (str "```" ++ [10%N] ++ str "```") in
  run_repositories env (Some [demo_repo]) = Some [demo_repo] /\
  existsb is_information (run_events env (Some [demo_repo])) = false /\
  exists before,
    run_events env (Some [demo_repo]) =
    before ++
    [GenerateContent
       (demo_request (buildPrompt (str "+x") (str "main") (str "main")))].
Proof.
  intros env.
  apply (empty_message_writes_nothing env (Some [demo_repo])
           (demo_request (buildPrompt (str "+x") (str "main") (str "main")))
           (str "```" ++ [10%N] ++ str "```")).
  - vm_compute. do 4 right. left. reflexivity.
  - reflexivity.
  - vm_compute. reflexivity.
Defined.



(* ================================================================== *)
(** ** The prompt *)

Lemma dropWhile_app (p : N -> bool) (a b : jsstring) :
  dropWhile p (a ++ b) =
  match dropWhile p a with
  | [] => dropWhile p b
  | c :: r => (c :: r) ++ b
  end.
Proof.
  induction a as [|x a IH]; simpl.
  - now destruct (dropWhile p b).
  - destruct (p x); [exact IH | reflexivity].
Qed.

Lemma trimEnd_app (x y : jsstring) :
  trimEnd (x ++ y) =
  match trimEnd y with
  | [] => trimEnd x
  | _ :: _ => x ++ trimEnd y
  end.
Proof.
  unfold trimEnd. rewrite rev_app_distr, dropWhile_app.
  destruct (dropWhile is_trimmable (rev y)) as [|c r] eqn:E.
  - reflexivity.
  - rewrite rev_app_distr, rev_involutive.
    destruct (rev (c :: r)) eqn:E'; [|reflexivity].
    apply (f_equal (@length N)) in E'. rewrite length_rev in E'. discriminate.
Qed.

Lemma trimEnd_app_keep (x y : jsstring) :
  trimEnd y <> [] ->
  trimEnd (x ++ y) = x ++ trimEnd y /\ trimEnd (x ++ y) <> [].
Proof.
  intros H. rewrite trimEnd_app.
  destruct (trimEnd y) as [|c r]; [contradiction|].
  split; [reflexivity|]. now destruct x.
Qed.

Lemma trimEnd_ends_with (x y : jsstring) :
  ends_with (trimEnd (x ++ y)) (trimEnd y).
Proof.
  rewrite trimEnd_app. destruct (trimEnd y) as [|c r].
  - exists (trimEnd x). now rewrite app_nil_r.
  - now exists x.
Qed.

Lemma trimEnd_trim (s : jsstring) : trimEnd (trim s) = trim s.
Proof. unfold trim. apply trimEnd_fixed. Qed.

Lemma preprocessDiff_trimmed (rawDiff : jsstring) :
  trimEnd (preprocessDiff rawDiff) = preprocessDiff rawDiff.
Proof. unfold preprocessDiff. cbv zeta. apply trimEnd_trim. Qed.

Lemma buildPrompt_unfold (diff stagedFiles branchName : jsstring) :
  buildPrompt diff stagedFiles branchName =
  PROMPT_INTRO ++ branchName ++ str PROMPT_FILES ++ stagedFiles ++
  PROMPT_BODY ++ trimEnd ([10; 10]%N ++ diff).
Proof.
  unfold buildPrompt, prompt_template, trim, trimStart.
  change (str PROMPT_HEAD) with (10%N :: 89%N :: tl (tl (str PROMPT_HEAD))).
  cbn [app dropWhile].
  change (is_trimmable 10) with true. change (is_trimmable 89) with false.
  cbv iota.
  rewrite trimEnd_cons by reflexivity.
  change PROMPT_INTRO with (89%N :: tl (tl (str PROMPT_HEAD))).
  cbn [app]. f_equal.
  assert (Hrules : str PROMPT_RULES = PROMPT_BODY ++ [10; 10]%N)
    by (vm_compute; reflexivity).
  assert (Hbody : PROMPT_BODY = removelast PROMPT_BODY ++ [102%N])
    by (vm_compute; reflexivity).
  set (body := removelast PROMPT_BODY) in Hbody.
  assert (Htail : trimEnd (str PROMPT_RULES ++ diff ++ str PROMPT_TAIL) =
                  PROMPT_BODY ++ trimEnd ([10; 10]%N ++ diff)).
  { rewrite Hrules, Hbody, <- !app_assoc. cbn [app].
    rewrite trimEnd_app_stop by reflexivity.
    do 2 f_equal.
    change (10%N :: 10%N :: diff ++ str PROMPT_TAIL)
      with (([10; 10]%N ++ diff) ++ [10%N]).
    now rewrite trimEnd_app. }
  assert (Hne : trimEnd (str PROMPT_RULES ++ diff ++ str PROMPT_TAIL) <> []).
  { rewrite Htail, Hbody. now destruct body. }
  destruct (trimEnd_app_keep stagedFiles _ Hne) as [E1 N1].
  destruct (trimEnd_app_keep (str PROMPT_FILES) _ N1) as [E2 N2].
  destruct (trimEnd_app_keep branchName _ N2) as [E3 N3].
  destruct (trimEnd_app_keep (tl (tl (str PROMPT_HEAD))) _ N3) as [E4 _].
  now rewrite E4, E3, E2, E1, Htail.
Qed.

(** C3 fails as stated: a branch called "main" with a staged file
    "main.py" is in the prompt twice. *)
Lemma prompt_claim_counterexample :
  ~ prompt_claim (str "+x") ([77; 9]%N ++ str "main.py") (str "main").
Proof.
  intros [H _]. vm_compute in H. discriminate H.
Qed.

(** C3, amended.  The prompt is the fixed template with the branch name
    put in once after "Branch: ", the staged-file text put in once after
    "Staged files:", and the diff text, less its trailing whitespace, at
    the end.  So it contains both inputs verbatim and ends with the
    right-trimmed diff, which is the diff itself for every output of
    [preprocessDiff]. *)
Theorem buildPrompt_layout (diff stagedFiles branchName : jsstring) :
  let prompt := buildPrompt diff stagedFiles branchName in
  prompt =
    PROMPT_INTRO ++ branchName ++ str PROMPT_FILES ++ stagedFiles ++
    PROMPT_BODY ++ trimEnd ([10; 10]%N ++ diff) /\
  contains prompt branchName /\
  contains prompt stagedFiles /\
  ends_with prompt (trimEnd diff) /\
  ends_with (buildPrompt (preprocessDiff diff) stagedFiles branchName)
            (preprocessDiff diff).
Proof.
  cbv zeta. repeat split.
  - apply buildPrompt_unfold.
  - rewrite buildPrompt_unfold. now exists PROMPT_INTRO; eexists.
  - rewrite buildPrompt_unfold.
    exists (PROMPT_INTRO ++ branchName ++ str PROMPT_FILES). eexists.
    now rewrite <- !app_assoc.
  - rewrite buildPrompt_unfold.
    destruct (trimEnd_ends_with [10; 10]%N diff) as [b Hb]. rewrite Hb.
    eexists. rewrite !app_assoc. reflexivity.
  - rewrite buildPrompt_unfold.
    destruct (trimEnd_ends_with [10; 10]%N (preprocessDiff diff)) as [b Hb].
    rewrite Hb, preprocessDiff_trimmed.
    eexists. rewrite !app_assoc. reflexivity.
Qed.

(* ================================================================== *)
(** ** The sanitiser *)

Lemma startsWith_spec (p s : jsstring) :
  startsWith p s = true <-> exists rest, s = p ++ rest.
Proof.
  revert s. induction p as [|x p IH]; intros s; simpl.
  - split; [now exists s | reflexivity].
  - destruct s as [|y s].
    + split; [discriminate | intros [r H]; discriminate].
    + rewrite andb_true_iff, N.eqb_eq, IH. split.
      * intros [-> [r ->]]. now exists r.
      * intros [r H]. injection H as -> ->. split; [reflexivity | now exists r].
Qed.

Lemma endsWith_spec (p s : jsstring) :
  endsWith p s = true <-> ends_with s p.
Proof.
  unfold endsWith, ends_with. rewrite startsWith_spec. split.
  - intros [r H]. exists (rev r).
    rewrite <- (rev_involutive s), H, rev_app_distr. now rewrite rev_involutive.
  - intros [b ->]. exists (rev b). apply rev_app_distr.
Qed.

(** *** The matcher on literal text *)

Lemma cls_match_one (ic : bool) (a : ascii) (ch : N) :
  (ic = true -> is_letter (N_of_ascii a) = false) ->
  cls_match ic (one a) ch = (N_of_ascii a =? ch)%N.
Proof.
  unfold cls_match, one. intros H. rewrite (N.eqb_sym ch).
  destruct ic; [|reflexivity]. specialize (H eq_refl).
  destruct (N.eqb_spec (N_of_ascii a) ch) as [E|E]; [reflexivity|]. simpl.
  unfold is_letter, swap_case, in_range in *.
  apply N.eqb_neq.
  destruct (N.leb_spec 97 ch), (N.leb_spec ch 122); simpl;
    destruct (N.leb_spec 65 ch), (N.leb_spec ch 90); simpl;
    destruct (N.leb_spec 65 (N_of_ascii a)), (N.leb_spec (N_of_ascii a) 90);
    destruct (N.leb_spec 97 (N_of_ascii a)), (N.leb_spec (N_of_ascii a) 122);
    simpl in H; try discriminate H; lia.
Qed.

Section Literal.

Variables (ic ml : bool).

Lemma match_literal (l : list ascii) (ats : list atom)
      (prev : option N) (rest : jsstring) :
  plain ic l ->
  match_atoms ic ml (map (fun a => Cls (one a)) l ++ ats) prev rest =
  if startsWith (map N_of_ascii l) rest
  then option_map (Nat.add (length l))
         (match_atoms ic ml ats (prev_after prev (map N_of_ascii l))
                      (skipn (length l) rest))
  else None.
Proof.
  revert prev rest. induction l as [|a l IH]; intros prev rest Hp.
  - cbn. now destruct (match_atoms ic ml ats prev rest).
  - assert (Ha : ic = true -> is_letter (N_of_ascii a) = false).
    { intros E. specialize (Hp E). cbn in Hp.
      apply andb_true_iff in Hp. destruct Hp as [Hp _].
      now apply negb_true_iff in Hp. }
    assert (Hl : plain ic l).
    { intros E. specialize (Hp E). cbn in Hp.
      apply andb_true_iff in Hp. tauto. }
    destruct rest as [|ch r]; [reflexivity|].
    cbn [map app match_atoms startsWith length skipn].
    rewrite (cls_match_one _ _ _ Ha).
    destruct (N.eqb_spec (N_of_ascii a) ch) as [<-|]; [|reflexivity].
    cbn [andb]. rewrite (IH _ _ Hl).
    destruct (startsWith (map N_of_ascii l) r); [|reflexivity].
    unfold prev_after. cbn [fold_left].
    now destruct (match_atoms ic ml ats _ _).
Qed.

End Literal.

Lemma fence_open_only_at_start (c : N) (rest : jsstring) :
  try_match FENCE_OPEN (Some c) rest = None.
Proof. reflexivity. Qed.

Lemma replace_open_after_start (rest : jsstring) (c : N) :
  replace_first FENCE_OPEN [] (Some c) rest = rest.
Proof.
  revert c. induction rest as [|d rest IH]; intros c; simpl.
  - reflexivity.
  - now rewrite IH.
Qed.

Lemma fence_open_match (s : jsstring) :
  try_match FENCE_OPEN None s =
  if startsWith FENCE s
  then option_map (Nat.add 3)
         (match_atoms true false [Star lower; Opt newline] (Some 96%N)
                      (skipn 3 s))
  else None.
Proof.
  unfold try_match, FENCE_OPEN. cbn [source ignoreCase multiline re app].
  cbn [match_atoms at_bol]. unfold lit.
  now rewrite match_literal by (intros _; reflexivity).
Qed.

Lemma fence_open_needs_fence (s : jsstring) :
  startsWith FENCE s = false -> try_match FENCE_OPEN None s = None.
Proof. intros H. now rewrite fence_open_match, H. Qed.

Lemma replace_open_without_fence (s : jsstring) :
  startsWith FENCE s = false -> replace FENCE_OPEN [] s = s.
Proof.
  intros H. unfold replace. cbn [global FENCE_OPEN re].
  fold FENCE_OPEN.
  destruct s as [|c s]; cbn [replace_first].
  - now rewrite (fence_open_needs_fence [] H).
  - rewrite (fence_open_needs_fence _ H).
    now rewrite replace_open_after_start.
Qed.

Lemma fence_close_match (prev : option N) (rest : jsstring) (n : nat) :
  try_match FENCE_CLOSE prev rest = Some n -> rest = FENCE /\ n = 3.
Proof.
  unfold try_match, FENCE_CLOSE. cbn [source ignoreCase multiline re].
  unfold lit. rewrite match_literal by (intros _; reflexivity).
  change (map N_of_ascii (list_ascii_of_string "```")) with FENCE.
  destruct (startsWith FENCE rest) eqn:E; [|discriminate].
  apply startsWith_spec in E. destruct E as [r ->].
  cbn [length list_ascii_of_string]. change (skipn 3 (FENCE ++ r)) with r.
  cbn [match_atoms]. destruct r as [|c r]; cbn.
  - intros H. injection H as <-. now split.
  - discriminate.
Qed.

Lemma fence_close_at_fence (prev : option N) :
  try_match FENCE_CLOSE prev FENCE = Some 3.
Proof. reflexivity. Qed.

Lemma ends_with_cons (c : N) (s suffix : jsstring) :
  ends_with s suffix -> ends_with (c :: s) suffix.
Proof. intros [b ->]. now exists (c :: b). Qed.

Lemma replace_close_without_fence (s : jsstring) (prev : option N) :
  ~ ends_with s FENCE -> replace_first FENCE_CLOSE [] prev s = s.
Proof.
  revert prev. induction s as [|c s IH]; intros prev H.
  - reflexivity.
  - cbn [replace_first].
    destruct (try_match FENCE_CLOSE prev (c :: s)) as [n|] eqn:E.
    + apply fence_close_match in E. destruct E as [E _].
      exfalso. apply H. exists []. now rewrite E.
    + f_equal. apply IH. intros Hs. apply H. now apply ends_with_cons.
Qed.

Lemma sanitize_without_fences (s : jsstring) :
  startsWith FENCE s = false -> endsWith FENCE s = false ->
  sanitize s = trim s.
Proof.
  intros Hs He. unfold sanitize.
  rewrite (replace_open_without_fence _ Hs).
  unfold replace. cbn [global FENCE_CLOSE re]. fold FENCE_CLOSE.
  rewrite replace_close_without_fence; [reflexivity|].
  intros H. apply endsWith_spec in H. congruence.
Qed.

(** C6.  The fenced answer of the example is sanitised to its bare message,
    and a text that neither starts nor ends with three backticks is
    sanitised to its trimmed self. *)
Theorem sanitize_example_and_identity :
  sanitize (str "```" ++ [10%N] ++ str "feat(x): add y" ++ [10%N] ++ str "```")
  = str "feat(x): add y" /\
  forall s : jsstring,
    startsWith FENCE s = false -> endsWith FENCE s = false ->
    sanitize s = trim s.
Proof.
  split; [vm_compute; reflexivity | exact sanitize_without_fences].
Qed.

Lemma sanitize_example_and_identity_witness :
  sanitize (str "  fix(api): handle nil ") = str "fix(api): handle nil".
Proof.
  rewrite (proj2 sanitize_example_and_identity (str "  fix(api): handle nil ")
                 eq_refl eq_refl).
  vm_compute. reflexivity.
Defined.

(** *** Where sanitising twice differs from sanitising once *)

Lemma replace_first_length (r : regex) (prev : option N) (s : jsstring) :
  length (replace_first r [] prev s) <= length s.
Proof.
  revert prev. induction s as [|c s IH]; intros prev; cbn [replace_first].
  - destruct (try_match r prev []) as [n|]; cbn [app];
      [rewrite length_skipn|]; simpl; lia.
  - destruct (try_match r prev (c :: s)) as [n|]; cbn [app].
    + rewrite length_skipn. lia.
    + simpl. specialize (IH (Some c)). lia.
Qed.

Lemma quant_total (p : N -> bool) (k : cont) :
  (forall prev rest, exists n, k prev rest = Some n) ->
  forall rest max prev, exists n, quant p 0 max k prev rest = Some n.
Proof.
  intros Hk. induction rest as [|ch r IH]; intros max prev; cbn [quant Nat.eqb].
  - apply Hk.
  - destruct (p ch && negb match max with Some 0 => true | _ => false end).
    + cbn [pred]. destruct (IH (option_map pred max) (Some ch)) as [n ->].
      now exists (S n).
    + apply Hk.
Qed.

Lemma fence_open_tail_total (prev : option N) (rest : jsstring) :
  exists n,
    match_atoms true false [Star lower; Opt newline] prev rest = Some n.
Proof.
  cbn [match_atoms Star Opt]. apply quant_total.
  intros prev' rest'. apply quant_total. intros _ _. now exists 0.
Qed.

Lemma replace_first_match (r : regex) (repl : jsstring) (prev : option N)
      (s : jsstring) (n : nat) :
  try_match r prev s = Some n ->
  replace_first r repl prev s = repl ++ skipn n s.
Proof. intros H. destruct s; cbn [replace_first]; now rewrite H. Qed.

Lemma replace_open_strips (s : jsstring) :
  startsWith FENCE s = true ->
  length (replace FENCE_OPEN [] s) + 3 <= length s.
Proof.
  intros H. unfold replace. cbn [global FENCE_OPEN re]. fold FENCE_OPEN.
  assert (Hm : exists m, try_match FENCE_OPEN None s = Some (3 + m)).
  { rewrite fence_open_match, H.
    destruct (fence_open_tail_total (Some 96%N) (skipn 3 s)) as [m ->].
    now exists m. }
  destruct Hm as [m Hm]. rewrite (replace_first_match _ _ _ _ _ Hm).
  apply startsWith_spec in H. destruct H as [r ->].
  cbn [app]. rewrite length_skipn, length_app.
  change (length FENCE) with 3. lia.
Qed.

Lemma replace_close_strips (s : jsstring) (prev : option N) :
  ends_with s FENCE ->
  length (replace_first FENCE_CLOSE [] prev s) + 3 = length s.
Proof.
  revert prev. induction s as [|c s IH]; intros prev [b Hb].
  - destruct b; discriminate.
  - cbn [replace_first].
    destruct (try_match FENCE_CLOSE prev (c :: s)) as [n|] eqn:E.
    + apply fence_close_match in E. destruct E as [-> ->]. reflexivity.
    + destruct b as [|c' b].
      * cbn [app] in Hb. rewrite Hb, fence_close_at_fence in E. discriminate.
      * injection Hb as -> ->.
        assert (Hs : ends_with (b ++ FENCE) FENCE) by now exists b.
        specialize (IH (Some c') Hs). cbn [length]. lia.
Qed.

Lemma sanitize_length (s : jsstring) : length (sanitize s) <= length s.
Proof.
  unfold sanitize, replace. cbn [global FENCE_OPEN FENCE_CLOSE re].
  etransitivity; [apply trim_length|].
  etransitivity; apply replace_first_length.
Qed.

Lemma sanitize_strips_fence (s : jsstring) :
  startsWith FENCE s = true \/ endsWith FENCE s = true ->
  length (sanitize s) < length s.
Proof.
  intros H.
  destruct (startsWith FENCE s) eqn:Es.
  - pose proof (replace_open_strips s Es) as L.
    unfold sanitize. pose proof (trim_length (replace FENCE_CLOSE [] (replace FENCE_OPEN [] s))) as T.
    assert (C : length (replace FENCE_CLOSE [] (replace FENCE_OPEN [] s))
                <= length (replace FENCE_OPEN [] s))
      by apply replace_first_length.
    lia.
  - destruct H as [H|H]; [discriminate|].
    unfold sanitize. rewrite (replace_open_without_fence _ Es).
    apply endsWith_spec in H.
    pose proof (replace_close_strips s None H) as L.
    pose proof (trim_length (replace FENCE_CLOSE [] s)) as T.
    unfold replace in *. cbn [global FENCE_CLOSE re] in *.
    fold FENCE_CLOSE in *. lia.
Qed.

Lemma sanitize_trimmed (s : jsstring) : trim (sanitize s) = sanitize s.
Proof. unfold sanitize. apply trim_fixed. Qed.

(** C2 fails as stated: a message fenced twice loses one pair of fences
    each time it is sanitised. *)
Lemma sanitize_twice_counterexample : ~ sanitize_twice_is_once DOUBLE_FENCED.
Proof.
  unfold sanitize_twice_is_once. intros H. vm_compute in H. discriminate H.
Qed.

(** C2, amended.  Sanitising strips one leading and one trailing fence per
    application, so sanitising twice gives the same as sanitising once
    exactly for the inputs whose sanitised text neither starts nor ends
    with three backticks. *)
Theorem sanitize_twice_iff_fence_free (s : jsstring) :
  sanitize (sanitize s) = sanitize s <->
  startsWith FENCE (sanitize s) = false /\
  endsWith FENCE (sanitize s) = false.
Proof.
  split.
  - intros H.
    destruct (startsWith FENCE (sanitize s)) eqn:Es;
      [|destruct (endsWith FENCE (sanitize s)) eqn:Ee]; [| |now split].
    + pose proof (sanitize_strips_fence (sanitize s) (or_introl Es)) as L.
      rewrite H in L. lia.
    + pose proof (sanitize_strips_fence (sanitize s) (or_intror Ee)) as L.
      rewrite H in L. lia.
  - intros [Hs He]. rewrite (sanitize_without_fences _ Hs He).
    apply sanitize_trimmed.
Qed.

Lemma sanitize_twice_iff_fence_free_witness :
  sanitize (sanitize (str "```js" ++ [10%N] ++ str "fix: x" ++ [10%N]
                      ++ str "```"))
  = sanitize (str "```js" ++ [10%N] ++ str "fix: x" ++ [10%N] ++ str "```").
Proof.
  apply (proj2 (sanitize_twice_iff_fence_free
                  (str "```js" ++ [10%N] ++ str "fix: x" ++ [10%N]
                   ++ str "```"))).
  split; vm_compute; reflexivity.
Defined.
(* ================================================================== *)
(** ** Blank-line collapsing *)

Lemma quant_newlines (rest : jsstring) :
  forall (min : nat) (prev : option N),
    quant (cls_match false newline) min None (fun _ _ => Some 0) prev rest =
    if min <=? nlrun rest then Some (nlrun rest) else None.
Proof.
  induction rest as [|ch r IH]; intros min prev; cbn [quant nlrun].
  - now destruct min.
  - change (cls_match false newline ch) with (ch =? 10)%N.
    destruct (ch =? 10)%N; cbn [andb negb option_map].
    + rewrite IH. destruct min as [|min]; cbn [pred Nat.eqb Nat.leb].
      * reflexivity.
      * now destruct (min <=? nlrun r).
    + now destruct min.
Qed.

Lemma blank_run_match (prev : option N) (rest : jsstring) :
  try_match BLANK_RUN prev rest =
  if 3 <=? nlrun rest then Some (nlrun rest) else None.
Proof. apply quant_newlines. Qed.

Lemma replace_all_skip (r : regex) (repl : jsstring) :
  forall (k : nat) (rest : jsstring) (prev : option N),
    k <= length rest ->
    replace_all r repl k prev rest =
    replace_all r repl 0 (prev_after prev (firstn k rest)) (skipn k rest).
Proof.
  induction k as [|k IH]; intros rest prev Hk.
  - reflexivity.
  - destruct rest as [|c rest]; [simpl in Hk; lia|].
    cbn [replace_all firstn skipn]. rewrite IH by (simpl in Hk; lia).
    reflexivity.
Qed.

Lemma nlrun_le_length (s : jsstring) : nlrun s <= length s.
Proof.
  induction s as [|c s IH]; simpl; [lia|]. destruct (c =? 10)%N; lia.
Qed.

Lemma nlrun_skipn (s : jsstring) : nlrun (skipn (nlrun s) s) = 0.
Proof.
  induction s as [|c s IH]; [reflexivity|]. cbn [nlrun].
  destruct (c =? 10)%N eqn:E; cbn [skipn nlrun]; [exact IH | now rewrite E].
Qed.

Lemma length_skipn_nlrun (s : jsstring) (c : N) :
  length (skipn (nlrun s) s) < length (c :: s).
Proof. rewrite length_skipn. simpl. lia. Qed.

(** One step of the collapse at a position outside a match. *)
Lemma collapse_step (prev : option N) (c : N) (s : jsstring) :
  replace_all BLANK_RUN [10; 10]%N 0 prev (c :: s) =
  if 3 <=? nlrun (c :: s)
  then [10; 10]%N ++
       replace_all BLANK_RUN [10; 10]%N 0
                   (prev_after (Some c) (firstn (nlrun s) s))
                   (skipn (nlrun s) s)
  else c :: replace_all BLANK_RUN [10; 10]%N 0 (Some c) s.
Proof.
  cbn [replace_all]. rewrite blank_run_match.
  destruct (3 <=? nlrun (c :: s)) eqn:E; [|reflexivity].
  cbn [nlrun] in *. destruct (c =? 10)%N; [|discriminate].
  now rewrite replace_all_skip by apply nlrun_le_length.
Qed.

Lemma collapse_nil (prev : option N) :
  replace_all BLANK_RUN [10; 10]%N 0 prev [] = [].
Proof. reflexivity. Qed.

Lemma collapse_output (n : nat) :
  forall (s : jsstring) (prev : option N),
    length s <= n ->
    no_blank_run (replace_all BLANK_RUN [10; 10]%N 0 prev s) = true /\
    nlrun (replace_all BLANK_RUN [10; 10]%N 0 prev s) <= nlrun s.
Proof.
  induction n as [|n IH]; intros s prev Hn.
  - destruct s; [now split | simpl in Hn; lia].
  - destruct s as [|c s]; [now split|].
    rewrite collapse_step.
    destruct (3 <=? nlrun (c :: s)) eqn:E.
    + apply Nat.leb_le in E.
      assert (Hc : (c =? 10)%N = true).
      { cbn [nlrun] in E. destruct (c =? 10)%N; [reflexivity | lia]. }
      destruct (IH (skipn (nlrun s) s)
                   (prev_after (Some c) (firstn (nlrun s) s)))
        as [Hno Hrun].
      { rewrite length_skipn. simpl in Hn. lia. }
      rewrite nlrun_skipn in Hrun.
      set (o := replace_all _ _ _ _ _) in *.
      assert (Ho : nlrun o = 0) by lia.
      remember (nlrun (c :: s)) as m eqn:Em.
      cbn [app no_blank_run nlrun N.eqb Pos.eqb]. rewrite Ho, Hno.
      split; [reflexivity | lia].
    + destruct (IH s (Some c)) as [Hno Hrun]; [simpl in Hn; lia|].
      apply Nat.leb_gt in E.
      set (o := replace_all _ _ _ _ _) in *.
      cbn [no_blank_run]. rewrite Hno.
      assert (Hle : nlrun (c :: o) <= nlrun (c :: s)).
      { cbn [nlrun]. destruct (c =? 10)%N; lia. }
      split; [|exact Hle].
      rewrite andb_true_r. apply Nat.ltb_lt. lia.
Qed.

Lemma collapse_fixed (s : jsstring) :
  no_blank_run s = true ->
  forall prev, replace_all BLANK_RUN [10; 10]%N 0 prev s = s.
Proof.
  induction s as [|c s IH]; intros H prev; [reflexivity|].
  rewrite collapse_step.
  cbn [no_blank_run] in H. apply andb_true_iff in H. destruct H as [H1 H2].
  apply Nat.ltb_lt in H1.
  destruct (3 <=? nlrun (c :: s)) eqn:E.
  - apply Nat.leb_le in E. lia.
  - now rewrite IH.
Qed.

(** C5.  Collapsing the runs of three or more line feeds of a text that has
    already been collapsed changes nothing. *)
Theorem collapse_blank_lines_idempotent (s : jsstring) :
  collapse_blank_lines (collapse_blank_lines s) = collapse_blank_lines s.
Proof.
  unfold collapse_blank_lines, replace. cbn [global BLANK_RUN re].
  fold BLANK_RUN.
  apply collapse_fixed.
  exact (proj1 (collapse_output (length s) s None (Nat.le_refl _))).
Qed.
(* ================================================================== *)
(** ** Noise removal, line by line *)

Section Matcher.

Variables (ic ml : bool).

Lemma quant_ends_at_eol (p : N -> bool) (k : cont) :
  ends_at_eol ml k ->
  forall rest min max prev n,
    quant p min max k prev rest = Some n ->
    n <= length rest /\ at_eol ml (skipn n rest) = true.
Proof.
  intros Hk. induction rest as [|ch r IH]; intros min max prev n;
    cbn [quant].
  - destruct (Nat.eqb min 0); [apply Hk | discriminate].
  - destruct (p ch && negb match max with Some 0 => true | _ => false end).
    + destruct (quant p (pred min) (option_map pred max) k (Some ch) r)
        as [m|] eqn:E.
      * intros H. injection H as <-. apply IH in E. destruct E as [E1 E2].
        cbn [length skipn]. split; [lia | exact E2].
      * destruct (Nat.eqb min 0); [apply Hk | discriminate].
    + destruct (Nat.eqb min 0); [apply Hk | discriminate].
Qed.

Lemma match_ends_at_eol (ats : list atom) :
  ends_at_eol ml (match_atoms ic ml (ats ++ [Eol])).
Proof.
  induction ats as [|a ats IH]; intros prev rest n; cbn [app match_atoms].
  - destruct (at_eol ml rest) eqn:E; [|discriminate].
    intros H. injection H as <-. cbn [skipn]. split; [lia | exact E].
  - destruct a as [| |c|min max c].
    + destruct (at_bol ml prev); [apply IH | discriminate].
    + destruct (at_eol ml rest); [apply IH | discriminate].
    + destruct rest as [|ch r]; [discriminate|].
      destruct (cls_match ic c ch); [|discriminate].
      destruct (match_atoms ic ml (ats ++ [Eol]) (Some ch) r) as [m|] eqn:E;
        [|discriminate].
      intros H. injection H as <-. apply IH in E. destruct E as [E1 E2].
        cbn [length skipn]. split; [lia | exact E2].
    + apply quant_ends_at_eol. exact IH.
Qed.

End Matcher.

Lemma whole_line (l : jsstring) :
  no_lt l = true ->
  forall n, n <= length l -> at_eol true (skipn n l) = true -> n = length l.
Proof.
  induction l as [|c l IH]; intros Hl n Hn He.
  - simpl in *. lia.
  - cbn [no_lt forallb] in Hl. apply andb_true_iff in Hl.
    destruct Hl as [Hc Hl]. apply negb_true_iff in Hc.
    destruct n as [|n].
    + cbn in He. rewrite Hc in He. discriminate.
    + cbn [skipn] in He. cbn [length] in *. f_equal. apply IH; auto. lia.
Qed.

Lemma quant_line_local (rest0 : jsstring) (p : N -> bool) (k k' : cont) :
  at_eol true rest0 = true ->
  (forall ch, is_line_terminator ch = true -> p ch = false) ->
  (forall l prev prev', no_lt l = true -> k prev (l ++ rest0) = k' prev' l) ->
  forall l min max prev prev',
    no_lt l = true ->
    quant p min max k prev (l ++ rest0) = quant p min max k' prev' l.
Proof.
  intros Hrest0 Hp Hk. induction l as [|ch l IH]; intros min max prev prev' Hl.
  - pose proof (Hk [] prev prev' eq_refl) as H0. cbn [app] in *.
    destruct rest0 as [|t r]; cbn [quant].
    + now rewrite H0.
    + cbn in Hrest0. rewrite (Hp t Hrest0). cbn [andb]. now rewrite H0.
  - pose proof Hl as Hl0.
    cbn [no_lt forallb] in Hl. apply andb_true_iff in Hl.
    destruct Hl as [_ Hl].
    cbn [app quant].
    rewrite (IH (pred min) (option_map pred max) (Some ch) (Some ch) Hl).
    pose proof (Hk (ch :: l) prev prev' Hl0) as H1. cbn [app] in H1.
    now rewrite H1.
Qed.

Lemma match_line_local (rest0 : jsstring) (ats : list atom) :
  at_eol true rest0 = true ->
  Forall line_local ats ->
  forall l prev prev',
    no_lt l = true ->
    match_atoms false true ats prev (l ++ rest0) =
    match_atoms false true ats prev' l.
Proof.
  intros Hrest0.
  induction 1 as [|a ats Ha _ IH]; intros l prev prev' Hl.
  - reflexivity.
  - destruct a as [| |c|min max c]; cbn [match_atoms].
    + contradiction.
    + assert (He : at_eol true (l ++ rest0) = at_eol true l).
      { destruct l; [exact Hrest0 | reflexivity]. }
      rewrite He. now rewrite (IH l prev prev' Hl).
    + destruct l as [|ch l]; cbn [app].
      * destruct rest0 as [|t r]; [reflexivity|].
        cbn in Hrest0. unfold cls_match. now rewrite (Ha t Hrest0).
      * cbn [no_lt forallb] in Hl. apply andb_true_iff in Hl.
        destruct Hl as [_ Hl].
        now rewrite (IH l (Some ch) (Some ch) Hl).
    + apply quant_line_local; auto.
Qed.

Lemma prev_after_no_lt (l : jsstring) :
  forall c,
    is_line_terminator c = false -> no_lt l = true ->
    exists x, prev_after (Some c) l = Some x /\ is_line_terminator x = false.
Proof.
  induction l as [|d l IH]; intros c Hc Hl.
  - now exists c.
  - cbn [no_lt forallb] in Hl. apply andb_true_iff in Hl.
    destruct Hl as [Hd Hl]. apply negb_true_iff in Hd.
    exact (IH d Hd Hl).
Qed.

Lemma firstn_length_app (l r : jsstring) : firstn (length l) (l ++ r) = l.
Proof. induction l; simpl; [now destruct r | now f_equal]. Qed.

Lemma skipn_length_app (l r : jsstring) : skipn (length l) (l ++ r) = r.
Proof. induction l; simpl; auto. Qed.

Section NoisePattern.

Variable body : list atom.
Hypothesis Hbody : Forall line_local body.

(** A pattern [/^ body $/gm]. *)
Let P : regex := re true false true (Bol :: body ++ [Eol]).

Hypothesis Hnonempty : line_match P [] = false.

Lemma line_local_pattern : Forall line_local (body ++ [Eol]).
Proof. apply Forall_app. split; [exact Hbody | now constructor]. Qed.

Lemma noise_match_at_line_start (prev : option N) (l rest0 : jsstring) :
  at_bol true prev = true -> no_lt l = true -> at_eol true rest0 = true ->
  try_match P prev (l ++ rest0) =
  if line_match P l then Some (length l) else None.
Proof.
  intros Hprev Hl Hrest0. unfold line_match, try_match.
  cbn [P re source ignoreCase multiline match_atoms at_bol].
  rewrite Hprev.
  rewrite (match_line_local rest0 (body ++ [Eol]) Hrest0 line_local_pattern
             l prev None Hl).
  destruct (match_atoms false true (body ++ [Eol]) None l) as [n|] eqn:E;
    [|reflexivity].
  destruct (match_ends_at_eol false true body None l n E) as [Hn He].
  now rewrite (whole_line l Hl n Hn He).
Qed.

Lemma noise_no_match_inside (x : N) (rest : jsstring) :
  is_line_terminator x = false -> try_match P (Some x) rest = None.
Proof.
  intros Hx. unfold try_match.
  cbn [P re source ignoreCase multiline match_atoms at_bol].
  now rewrite Hx.
Qed.

Lemma noise_copy_inside (l : jsstring) :
  forall x rest0,
    is_line_terminator x = false -> no_lt l = true ->
    replace_all P [] 0 (Some x) (l ++ rest0) = l ++ next_line P rest0.
Proof.
  induction l as [|c l IH]; intros x rest0 Hx Hl.
  - destruct rest0 as [|t r]; cbn [app replace_all next_line];
      now rewrite noise_no_match_inside.
  - cbn [no_lt forallb] in Hl. apply andb_true_iff in Hl.
    destruct Hl as [Hc Hl]. apply negb_true_iff in Hc.
    cbn [app replace_all]. rewrite noise_no_match_inside by exact Hx.
    now rewrite IH.
Qed.

Lemma noise_line_step (prev : option N) (l rest0 : jsstring) :
  at_bol true prev = true -> no_lt l = true -> at_eol true rest0 = true ->
  replace_all P [] 0 prev (l ++ rest0) = keep_line P l ++ next_line P rest0.
Proof.
  intros Hprev Hl Hrest0. unfold keep_line.
  destruct l as [|c l].
  - rewrite Hnonempty.
    pose proof (noise_match_at_line_start prev [] rest0 Hprev eq_refl Hrest0)
      as Hm.
    rewrite Hnonempty in Hm. cbn [app] in *.
    destruct rest0 as [|t r]; cbn [replace_all next_line]; now rewrite Hm.
  - pose proof (noise_match_at_line_start prev (c :: l) rest0 Hprev Hl Hrest0)
      as Hm.
    cbn [no_lt forallb] in Hl. apply andb_true_iff in Hl.
    destruct Hl as [Hc Hl]. apply negb_true_iff in Hc.
    cbn [app] in *. cbn [replace_all]. rewrite Hm.
    destruct (line_match P (c :: l)).
    + cbn [length app].
      rewrite replace_all_skip by (rewrite length_app; lia).
      rewrite firstn_length_app, skipn_length_app.
      destruct (prev_after_no_lt l c Hc Hl) as (x & -> & Hx).
      exact (noise_copy_inside [] x rest0 Hx eq_refl).
    + cbn [app]. f_equal. now apply noise_copy_inside.
Qed.

Lemma noise_replace_acc (s : jsstring) :
  forall acc prev,
    at_bol true prev = true -> no_lt acc = true ->
    replace_all P [] 0 prev (acc ++ s) = strip_acc (keep_line P) acc s.
Proof.
  induction s as [|c s IH]; intros acc prev Hprev Hacc.
  - rewrite (noise_line_step prev acc [] Hprev Hacc eq_refl).
    cbn [next_line strip_acc]. apply app_nil_r.
  - cbn [strip_acc]. destruct (is_line_terminator c) eqn:Ec.
    + rewrite (noise_line_step prev acc (c :: s) Hprev Hacc).
      * cbn [next_line]. do 2 f_equal.
        apply (IH [] (Some c)); [cbn; now rewrite Ec | reflexivity].
      * cbn. exact Ec.
    + change (acc ++ c :: s) with (acc ++ [c] ++ s). rewrite app_assoc.
      apply IH; [exact Hprev|].
      unfold no_lt. rewrite forallb_app. fold (no_lt acc). rewrite Hacc.
      cbn. now rewrite Ec.
Qed.

(** Replacing the matches of a noise pattern by nothing empties the lines
    it matches and leaves all else, the line terminators included, as it
    was. *)
Lemma noise_replace_lines (s : jsstring) :
  replace P [] s = strip_lines (keep_line P) s.
Proof.
  unfold replace, strip_lines. cbn [global P re].
  exact (noise_replace_acc s [] None eq_refl eq_refl).
Qed.

End NoisePattern.

(** *** The five patterns *)

Lemma line_terminator_cases (ch : N) :
  is_line_terminator ch = true ->
  ch = 10%N \/ ch = 13%N \/ ch = 8232%N \/ ch = 8233%N.
Proof.
  unfold is_line_terminator. rewrite !orb_true_iff, !N.eqb_eq. tauto.
Qed.

Ltac line_local_atoms :=
  unfold lit; cbn [list_ascii_of_string map app];
  repeat (apply Forall_cons || apply Forall_nil);
  cbn [line_local Plus Star];
  intros ch Hch;
  destruct (line_terminator_cases ch Hch) as [->|[->|[->| ->]]];
  reflexivity.

Lemma replace_index_lines (s : jsstring) :
  replace NOISE_INDEX [] s = strip_lines (keep_line NOISE_INDEX) s.
Proof.
  apply (noise_replace_lines BODY_INDEX); [line_local_atoms | reflexivity].
Qed.

Lemma replace_similarity_lines (s : jsstring) :
  replace NOISE_SIMILARITY [] s = strip_lines (keep_line NOISE_SIMILARITY) s.
Proof.
  apply (noise_replace_lines BODY_SIMILARITY);
    [line_local_atoms | reflexivity].
Qed.

Lemma replace_old_mode_lines (s : jsstring) :
  replace NOISE_OLD_MODE [] s = strip_lines (keep_line NOISE_OLD_MODE) s.
Proof.
  apply (noise_replace_lines BODY_OLD_MODE); [line_local_atoms | reflexivity].
Qed.

Lemma replace_new_mode_lines (s : jsstring) :
  replace NOISE_NEW_MODE [] s = strip_lines (keep_line NOISE_NEW_MODE) s.
Proof.
  apply (noise_replace_lines BODY_NEW_MODE); [line_local_atoms | reflexivity].
Qed.

Lemma replace_binary_lines (s : jsstring) :
  replace NOISE_BINARY [] s = strip_lines (keep_line NOISE_BINARY) s.
Proof.
  apply (noise_replace_lines BODY_BINARY); [line_local_atoms | reflexivity].
Qed.

Lemma remove_noise_unfold (s : jsstring) :
  remove_noise s =
  strip_lines (keep_line NOISE_BINARY)
    (strip_lines (keep_line NOISE_NEW_MODE)
       (strip_lines (keep_line NOISE_OLD_MODE)
          (strip_lines (keep_line NOISE_SIMILARITY)
             (strip_lines (keep_line NOISE_INDEX) s)))).
Proof.
  unfold remove_noise. cbn [fold_left NOISE_PATTERNS].
  now rewrite replace_index_lines, replace_similarity_lines,
    replace_old_mode_lines, replace_new_mode_lines, replace_binary_lines.
Qed.

Lemma keep_all_unfold (l : jsstring) :
  keep_all l =
  keep_line NOISE_BINARY
    (keep_line NOISE_NEW_MODE
       (keep_line NOISE_OLD_MODE
          (keep_line NOISE_SIMILARITY (keep_line NOISE_INDEX l)))).
Proof. reflexivity. Qed.

Lemma keep_all_cases (l : jsstring) :
  keep_all l = if noise_line l then [] else l.
Proof.
  rewrite keep_all_unfold. unfold noise_line.
  cbn [existsb NOISE_PATTERNS]. unfold keep_line at 5.
  destruct (line_match NOISE_INDEX l); [reflexivity|].
  unfold keep_line at 4.
  destruct (line_match NOISE_SIMILARITY l); [reflexivity|].
  unfold keep_line at 3.
  destruct (line_match NOISE_OLD_MODE l); [reflexivity|].
  unfold keep_line at 2.
  destruct (line_match NOISE_NEW_MODE l); [reflexivity|].
  unfold keep_line.
  now destruct (line_match NOISE_BINARY l).
Qed.

Lemma keep_line_no_lt (p : regex) (l : jsstring) :
  no_lt l = true -> no_lt (keep_line p l) = true.
Proof. intros H. unfold keep_line. now destruct (line_match p l). Qed.

Lemma no_lt_app (a b : jsstring) :
  no_lt (a ++ b) = no_lt a && no_lt b.
Proof. apply forallb_app. Qed.

Lemma no_lt_snoc (acc : jsstring) (c : N) :
  no_lt acc = true -> is_line_terminator c = false ->
  no_lt (acc ++ [c]) = true.
Proof. intros Ha Hc. rewrite no_lt_app, Ha. cbn. now rewrite Hc. Qed.

Section Strip.

Variable f : jsstring -> jsstring.

Lemma strip_acc_line (l : jsstring) :
  forall acc t s,
    no_lt l = true -> is_line_terminator t = true ->
    strip_acc f acc (l ++ t :: s) = f (acc ++ l) ++ t :: strip_acc f [] s.
Proof.
  induction l as [|c l IH]; intros acc t s Hl Ht.
  - cbn [app strip_acc]. now rewrite Ht, app_nil_r.
  - cbn [no_lt forallb] in Hl. apply andb_true_iff in Hl.
    destruct Hl as [Hc Hl]. apply negb_true_iff in Hc.
    cbn [app strip_acc]. rewrite Hc, (IH _ _ _ Hl Ht).
    now rewrite <- app_assoc.
Qed.

Lemma strip_acc_last (l : jsstring) :
  forall acc, no_lt l = true -> strip_acc f acc l = f (acc ++ l).
Proof.
  induction l as [|c l IH]; intros acc Hl.
  - cbn [strip_acc]. now rewrite app_nil_r.
  - cbn [no_lt forallb] in Hl. apply andb_true_iff in Hl.
    destruct Hl as [Hc Hl]. apply negb_true_iff in Hc.
    cbn [strip_acc]. rewrite Hc, (IH _ Hl). now rewrite <- app_assoc.
Qed.

End Strip.

Lemma segs_acc_app (x : jsstring) :
  forall acc y,
    no_lt x = true -> segs_acc acc (x ++ y) = segs_acc (acc ++ x) y.
Proof.
  induction x as [|c x IH]; intros acc y Hx.
  - cbn [app]. now rewrite app_nil_r.
  - cbn [no_lt forallb] in Hx. apply andb_true_iff in Hx.
    destruct Hx as [Hc Hx]. apply negb_true_iff in Hc.
    cbn [app segs_acc]. rewrite Hc, (IH _ _ Hx). now rewrite <- app_assoc.
Qed.

Lemma segs_strip (f : jsstring -> jsstring) :
  (forall l, no_lt l = true -> no_lt (f l) = true) ->
  forall s acc,
    no_lt acc = true ->
    segs (strip_acc f acc s) = map f (segs_acc acc s).
Proof.
  intros Hf. unfold segs.
  induction s as [|c s IH]; intros acc Hacc; cbn [strip_acc segs_acc].
  - rewrite <- (app_nil_r (f acc)).
    rewrite segs_acc_app by (apply Hf; exact Hacc). reflexivity.
  - destruct (is_line_terminator c) eqn:Ec.
    + rewrite segs_acc_app by (apply Hf; exact Hacc).
      cbn [app segs_acc map]. rewrite Ec. f_equal. now apply IH.
    + apply IH. now apply no_lt_snoc.
Qed.

Lemma segs_no_lt (s : jsstring) :
  forall acc, no_lt acc = true -> Forall (fun l => no_lt l = true) (segs_acc acc s).
Proof.
  induction s as [|c s IH]; intros acc Hacc; cbn [segs_acc].
  - now constructor.
  - destruct (is_line_terminator c) eqn:Ec.
    + constructor; [exact Hacc | now apply IH].
    + apply IH. now apply no_lt_snoc.
Qed.

Lemma segs_lines (f : jsstring -> jsstring) (s : jsstring) :
  (forall l, no_lt l = true -> no_lt (f l) = true) ->
  segs (strip_lines f s) = map f (segs s).
Proof. intros Hf. now apply segs_strip. Qed.

Lemma segs_remove_noise (s : jsstring) :
  segs (remove_noise s) = map keep_all (segs s).
Proof.
  rewrite remove_noise_unfold.
  rewrite !segs_lines by (intros; now apply keep_line_no_lt).
  rewrite !map_map. apply map_ext. intros l. now rewrite keep_all_unfold.
Qed.

(** *** Lines in the sense of C4 *)

Lemma jseqb_eq (a b : jsstring) : jseqb a b = true <-> a = b.
Proof.
  revert b. induction a as [|x a IH]; intros [|y b]; cbn [jseqb];
    try (split; [discriminate | discriminate]); [now split|].
  rewrite andb_true_iff, N.eqb_eq, IH. split.
  - now intros [-> ->].
  - intros H. now injection H.
Qed.

Lemma has_line_spec (l s : jsstring) : has_line l s = true <-> In l (lines s).
Proof.
  unfold has_line. rewrite existsb_exists. split.
  - intros (x & Hx & E). apply jseqb_eq in E. now subst.
  - intros H. exists l. split; [exact H | now apply jseqb_eq].
Qed.

(** A line in the sense of [split] that holds no line terminator is also
    a line between line terminators. *)
Lemma lines_segs (L : jsstring) :
  no_lt L = true ->
  forall s acc acc',
    (acc = acc' /\ no_lt acc = true) \/ no_lt acc = false ->
    In L (split_acc acc s) -> In L (segs_acc acc' s).
Proof.
  intros HL. induction s as [|c s IH]; intros acc acc' Hacc Hin.
  - cbn [split_acc segs_acc In] in *. destruct Hin as [<-|[]].
    destruct Hacc as [[-> _]|Hacc]; [now left | congruence].
  - cbn [split_acc segs_acc] in *.
    destruct (N.eqb_spec c 10) as [->|Hc].
    + cbn [is_line_terminator N.eqb Pos.eqb orb In] in *.
      destruct Hin as [<-|Hin].
      * destruct Hacc as [[-> _]|Hacc]; [now left | congruence].
      * right. apply (IH [] []); [now left | exact Hin].
    + destruct (is_line_terminator c) eqn:Ec.
      * right. apply (IH (acc ++ [c]) []); [|exact Hin].
        right. rewrite no_lt_app. cbn. rewrite Ec. apply andb_false_r.
      * apply (IH (acc ++ [c]) (acc' ++ [c])); [|exact Hin].
        destruct Hacc as [[-> Hacc]|Hacc].
        -- left. split; [reflexivity | now apply no_lt_snoc].
        -- right. rewrite no_lt_app, Hacc. reflexivity.
Qed.

(** C4 fails as stated: after the mode pair is removed the text starts with
    the context line " old mode 100644", and the final trim takes its
    leading blank away. *)
Lemma noise_claim_counterexample : ~ noise_claim MODE_PAIR_THEN_CONTEXT.
Proof.
  intros H.
  assert (Hin : has_line LINE_OLD_MODE MODE_PAIR_THEN_CONTEXT = true /\
                has_line LINE_NEW_MODE MODE_PAIR_THEN_CONTEXT = true)
    by (split; vm_compute; reflexivity).
  specialize (H (or_intror (or_intror Hin)) LINE_OLD_MODE).
  assert (Hl : In LINE_OLD_MODE NAMED_NOISE_LINES) by (right; right; now left).
  specialize (H Hl). vm_compute in H. discriminate H.
Qed.

(** *** Trimming around a gap *)

Lemma newline_is_terminator (c : N) :
  is_line_terminator c = false -> (c =? 10)%N = false.
Proof.
  unfold is_line_terminator. intros H.
  destruct (c =? 10)%N; [discriminate H | reflexivity].
Qed.

Lemma dropWhile_nil (p : N -> bool) (s : jsstring) :
  dropWhile p s = [] -> forallb p s = true.
Proof.
  induction s as [|c s IH]; [reflexivity|]. cbn [dropWhile forallb].
  destruct (p c); [exact IH | discriminate].
Qed.

Lemma trimStart_not_blank (s : jsstring) : blank s = false -> trimStart s <> [].
Proof.
  intros H E. apply dropWhile_nil in E. unfold blank in H. congruence.
Qed.

Lemma trimEnd_not_blank (s : jsstring) : blank s = false -> trimEnd s <> [].
Proof.
  intros H E. unfold trimEnd in E.
  apply (f_equal (@rev N)) in E. rewrite rev_involutive in E. cbn in E.
  apply dropWhile_nil in E. unfold blank in H.
  assert (F : forallb is_trimmable s = true).
  { apply forallb_forall. intros x Hx.
    rewrite forallb_forall in E. apply E. now apply in_rev in Hx. }
  congruence.
Qed.

Lemma trim_around_gap (a b : jsstring) :
  blank a = false -> blank b = false ->
  trim (a ++ 10%N :: 10%N :: b) = trimStart a ++ 10%N :: 10%N :: trimEnd b.
Proof.
  intros Ha Hb. unfold trim.
  assert (Es : trimStart (a ++ 10%N :: 10%N :: b) =
               trimStart a ++ 10%N :: 10%N :: b).
  { unfold trimStart. rewrite dropWhile_app.
    pose proof (trimStart_not_blank a Ha) as Hne. unfold trimStart in Hne.
    now destruct (dropWhile is_trimmable a). }
  rewrite Es.
  change (trimStart a ++ 10%N :: 10%N :: b)
    with (trimStart a ++ [10; 10]%N ++ b).
  rewrite app_assoc.
  destruct (trimEnd_app_keep (trimStart a ++ [10; 10]%N) b
                             (trimEnd_not_blank b Hb)) as [-> _].
  now rewrite <- app_assoc.
Qed.

(* ================================================================== *)
(** ** The runs of the command *)

Lemma first_rejection_spec (ps : list Promise) :
  forall e t,
    first_rejection ps = Some (e, t) ->
    exists p, In p ps /\ settled p = Rejected e /\ settledAt p = t /\
              forall q e', In q ps -> settled q = Rejected e' ->
                           t <= settledAt q.
Proof.
  induction ps as [|p ps IH]; intros e t; cbn [first_rejection].
  - discriminate.
  - destruct (settled p) as [x|ep] eqn:Ep.
    + intros H. destruct (IH e t H) as (q & Hq & Hs & Ht & Hmin).
      exists q. repeat split; auto; [now right|].
      intros q' e' [<-|Hin] Hrej; [congruence | eauto].
    + destruct (first_rejection ps) as [[e' t']|] eqn:Ef.
      * destruct (settledAt p <=? t') eqn:Ele; intros H; injection H as <- <-.
        -- exists p. repeat split; auto; [now left|].
           apply Nat.leb_le in Ele.
           destruct (IH e' t' eq_refl) as (q & _ & _ & _ & Hmin).
           intros q' e'' [<-|Hin] Hrej; [lia|].
           specialize (Hmin q' e'' Hin Hrej). lia.
        -- apply Nat.leb_gt in Ele.
           destruct (IH e' t' eq_refl) as (q & Hq & Hs & Ht & Hmin).
           exists q. repeat split; auto; [now right|].
           intros q' e'' [<-|Hin] Hrej; [lia | eauto].
      * intros H. injection H as <- <-.
        exists p. repeat split; auto; [now left|].
        intros q' e'' [<-|Hin] Hrej; [lia|].
        exfalso. clear IH Ep. induction ps as [|a ps IHps]; [contradiction|].
        cbn [first_rejection] in Ef.
        destruct Hin as [<-|Hin].
        -- rewrite Hrej in Ef.
           destruct (first_rejection ps) as [[? t0]|];
             [destruct (_ <=? _)|]; discriminate.
        -- destruct (settled a); [now apply IHps|].
           destruct (first_rejection ps) as [[? t0]|];
             [destruct (_ <=? _)|]; discriminate.
Qed.

Lemma first_rejection_some (ps : list Promise) (q : Promise) (e : Thrown) :
  In q ps -> settled q = Rejected e -> first_rejection ps <> None.
Proof.
  induction ps as [|a ps IH]; [contradiction|]. cbn [first_rejection].
  intros [<-|Hin] Hrej.
  - rewrite Hrej. destruct (first_rejection ps) as [[? t0]|];
      [destruct (_ <=? _)|]; discriminate.
  - specialize (IH Hin Hrej).
    destruct (settled a); [exact IH|].
    destruct (first_rejection ps) as [[? t']|]; [|congruence].
    now destruct (settledAt a <=? t').
Qed.

(** [Promise.all] of three: all values, or the rejection that came first. *)
Lemma promise_all3_spec (a b c : Promise) (w : World) :
  (exists x y z,
      settled a = Fulfilled x /\ settled b = Fulfilled y /\
      settled c = Fulfilled z /\
      promise_all3 a b c w = (Fulfilled (x, y, z), w)) \/
  (exists e p,
      promise_all3 a b c w = (Rejected e, w) /\
      In p [a; b; c] /\ settled p = Rejected e /\
      forall q e', In q [a; b; c] -> settled q = Rejected e' ->
                   settledAt p <= settledAt q).
Proof.
  destruct (settled a) as [x|ea] eqn:Ea;
    [destruct (settled b) as [y|eb] eqn:Eb;
     [destruct (settled c) as [z|ec] eqn:Ec|]|].
  1: { left. exists x, y, z. repeat split. unfold promise_all3.
       now rewrite Ea, Eb, Ec. }
  all: right.
  all: assert (Hsome : first_rejection [a; b; c] <> None);
    [ first [ apply (first_rejection_some [a; b; c] a ea); [now left | exact Ea]
            | apply (first_rejection_some [a; b; c] b eb);
              [right; now left | exact Eb]
            | apply (first_rejection_some [a; b; c] c ec);
              [right; right; now left | exact Ec] ] |].
  all: destruct (first_rejection [a; b; c]) as [[e t]|] eqn:Ef;
    [|congruence].
  all: destruct (first_rejection_spec [a; b; c] e t Ef)
    as (p & Hp & Hs & Ht & Hmin).
  all: exists e, p; repeat split; auto;
    [ unfold promise_all3; rewrite Ef, ?Ea, ?Eb, ?Ec;
      try reflexivity;
      destruct (settled b); try reflexivity;
      destruct (settled c); reflexivity
    | intros q e' Hq Hr; rewrite Ht; eauto ].
Qed.

Lemma exec_callback_rejected (r : ProcessResult) (e : Thrown) :
  settled (exec_callback r) = Rejected e ->
  exists m, e = Err m /\ rejection_of r = Some m /\ err_message r <> None.
Proof.
  unfold exec_callback, rejection_of. cbn [settled].
  destruct (err_message r); [|discriminate].
  intros H. injection H as <-. eexists.
  split; [reflexivity | split; [reflexivity | discriminate]].
Qed.

Lemma exec_callback_settled (r : ProcessResult) :
  settled (exec_callback r) =
  match rejection_of r with
  | Some e => Rejected (Err e)
  | None => Fulfilled (trim (stdout r))
  end.
Proof.
  unfold exec_callback, rejection_of. cbn [settled].
  now destruct (err_message r).
Qed.

Lemma truthy_some (v : option jsstring) :
  truthy v = true -> exists k, v = Some k /\ k <> [].
Proof.
  destruct v as [[|c k]|]; try discriminate.
  intros _. exists (c :: k). split; [reflexivity | discriminate].
Qed.

(** The rejection of [Promise.all] over the three Git commands is the
    message of a failed command that exited first. *)
Lemma git_rejection (env : Env) (repo : Repository) (p : Promise)
      (e : Thrown) :
  In p (map exec_callback (git_results env repo)) ->
  settled p = Rejected e ->
  (forall q e', In q (map exec_callback (git_results env repo)) ->
                settled q = Rejected e' -> settledAt p <= settledAt q) ->
  exists r m,
    e = Err m /\ In r (git_results env repo) /\ rejection_of r = Some m /\
    forall r', In r' (git_results env repo) -> err_message r' <> None ->
               exitedAt r <= exitedAt r'.
Proof.
  intros Hp Hs Hmin. apply in_map_iff in Hp. destruct Hp as (r & <- & Hin).
  destruct (exec_callback_rejected r e Hs) as (m & -> & Hrej & _).
  exists r, m. repeat split; try assumption.
  intros r' Hr' Hfail.
  destruct (rejection_of r') as [e'|] eqn:Er';
    [|unfold rejection_of in Er'; destruct (err_message r');
      [discriminate | congruence]].
  apply (Hmin (exec_callback r') (Err e')).
  - now apply in_map.
  - now rewrite exec_callback_settled, Er'.
Qed.

(** Every run of the command is of one of the kinds of [Run]. *)
Lemma run_cases (env : Env) (repos : option (list Repository)) :
  Run env repos (run_events env repos) (run_repositories env repos)
      (run_outcome env repos).
Proof.
  unfold run_outcome.
  destruct (cfg_geminiApiKey env) as [[|k key]|] eqn:Ek.
  1, 3: run_handler; rewrite Ek; apply Run_no_key; now rewrite Ek.
  assert (Hk : truthy (cfg_geminiApiKey env) = true) by now rewrite Ek.
  destruct (git_extension env) as [g|] eqn:Eg.
  2: { run_handler. rewrite Ek, Eg. now apply Run_no_extension. }
  run_handler. rewrite Ek, Eg.
  destruct g as [[|] [[fail|fail]|]]; cbn [isActive activate_failure] in *.
  4: { exact (Run_activation_failed env repos
                {| isActive := false; activate_failure := Some (Err fail) |}
                fail Hk Eg eq_refl eq_refl). }
  4: { exact (Run_activation_unreadable env repos
                {| isActive := false;
                   activate_failure := Some (NoMessage fail) |}
                fail Hk Eg eq_refl eq_refl). }
  all: match type of Eg with
       | _ = Some ?G => set (g := G) in *
       end.
  all: assert (Hready : isActive g = true \/ activate_failure g = None)
      by (subst g; cbn; auto).
  all: destruct repos as [[|repo others]|].
  all: try (apply (Run_no_repository env _ g Hk Eg Hready); auto).
  all: match goal with
       | |- context [promise_all3 ?a ?b ?c ?w] =>
           destruct (promise_all3_spec a b c w)
             as [(x & y & z & Hx & Hy & Hz & ->)
                | (e & p & -> & Hp & Hs & Hmin)]
       end.
  2, 4, 6, 8:
    destruct (git_rejection env repo p e Hp Hs Hmin)
      as (r & m & -> & Hin & Hrej & Hfirst);
    exact (Run_git_failed env repo others g r m Hk Eg Hready Hin Hrej Hfirst).
  (* the three outputs are there *)
  all: apply exec_callback_fulfilled in Hx, Hy, Hz.
  all: destruct Hx as [Hx ->], Hy as [Hy ->], Hz as [Hz ->].
  all: assert (Hg : gathered env repo) by (repeat split; assumption).
  all: rewrite trim_fixed.
  all: destruct (trim (stdout (run_process env (str "git diff --cached")
                                           (rootUri_fsPath repo))))
    as [|c t] eqn:Et;
    [exact (Run_nothing_staged env repo others g Hk Eg Hready Hg Et)|].
  all: assert (Hne : trim (stdout (diff_result env repo)) <> [])
      by (unfold diff_result; rewrite Et; discriminate).
  all: rewrite <- Et.
  all: assert (Hkey : k :: key <> []) by discriminate.
  all: destruct (provider env (request_of env (k :: key) repo))
    as [reply|[e|v]] eqn:Ep;
    [|pose proof (Run_provider_failed env repo others g (k :: key) e
                    Ek Hkey Eg Hready Hg Hne Ep) as R;
      unfold request_of, model_or_default, diff_result, files_result,
        branch_result in R, Ep;
      rewrite Ep; exact R
     |pose proof (Run_provider_unreadable env repo others g (k :: key) v
                    Ek Hkey Eg Hready Hg Hne Ep) as R;
      unfold request_of, model_or_default, diff_result, files_result,
        branch_result in R, Ep;
      rewrite Ep; exact R].
  all: destruct (sanitize (trim reply)) as [|m ms] eqn:Es;
    [pose proof (Run_empty_message env repo others g (k :: key) reply
                   Ek Hkey Eg Hready Hg Hne Ep Es) as R;
     unfold request_of, model_or_default, diff_result, files_result,
       branch_result in R, Ep;
     rewrite Ep, Es; exact R|].
  all: assert (Hm : sanitize (trim reply) <> [])
      by (rewrite Es; discriminate).
  all: pose proof (Run_delivered env repo others g (k :: key) reply
                     Ek Hkey Eg Hready Hg Hne Ep Hm) as R;
    unfold request_of, model_or_default, diff_result, files_result,
      branch_result in R, Ep;
    rewrite Ep, Es; rewrite Es in R; exact R.
Qed.

(** Simplify the log of one kind of run. *)
Ltac log_simpl :=
  unfold activation_events, git_execs, caught;
  repeat match goal with
         | |- context [isActive ?g] => destruct (isActive g)
         end;
  cbn [app filter existsb In is_notification is_process_call
       is_provider_call is_information length orb].

(** X1.  A run shows exactly one error, warning or information message and
    the promise of the command is fulfilled, with two exceptions.  The run in
    which the provider's sanitised answer is empty shows no message and ends
    with the provider call.  And when the activation of the Git extension or
    the provider call is rejected with a value whose message cannot be read
    ([null] or [undefined], say), the [catch] block throws in its turn: no
    message is shown, nothing is written, and the command is rejected with
    what was thrown there. *)
Theorem one_message_per_run (env : Env) (repos : option (list Repository)) :
  (run_outcome env repos = Fulfilled tt /\
   ((exists m, filter is_notification (run_events env repos) = [m]) \/
    (filter is_notification (run_events env repos) = [] /\
     exists before req reply,
       run_events env repos = before ++ [GenerateContent req] /\
       provider env req = Fulfilled reply /\
       sanitize (trim reply) = []))) \/
  (exists v,
      run_outcome env repos = Rejected v /\
      filter is_notification (run_events env repos) = [] /\
      run_repositories env repos = repos /\
      ((exists g,
           git_extension env = Some g /\ isActive g = false /\
           activate_failure g = Some (NoMessage v) /\
           run_events env repos = [ActivateGit]) \/
       (exists before req,
           run_events env repos = before ++ [GenerateContent req] /\
           provider env req = Rejected (NoMessage v)))).
Proof.
  destruct (run_cases env repos).
  4: { right. exists v. repeat split. left. now exists g. }
  8: { right. exists v. split; [reflexivity|].
       split; [now log_simpl|]. split; [reflexivity|]. right.
       exists (activation_events g ++ git_execs (rootUri_fsPath repo) ++
               [WithProgress MSG_PROGRESS]), (request_of env key repo).
       split; [now rewrite <- !app_assoc | assumption]. }
  8: { left. split; [reflexivity|]. right. split; [now log_simpl|].
       exists (activation_events g ++ git_execs (rootUri_fsPath repo) ++
               [WithProgress MSG_PROGRESS]), (request_of env key repo), reply.
       split; [now rewrite <- !app_assoc | now split]. }
  all: left; split; [reflexivity|]; left; log_simpl; eexists; reflexivity.
Qed.

(** A provider call rejected with [undefined]: the command is rejected with
    the TypeError the engine raises in the [catch] block, and the run ends
    at the provider call without a message. *)
Example unreadable_rejection :
  let type_error := Err (str "TypeError") in
  let env :=
    {| cfg_geminiApiKey := Some (str "key");
       cfg_model := None;
       git_extension := git_extension bad_key_env;
       run_process := run_process bad_key_env;
       provider := fun _ => Rejected (NoMessage type_error) |} in
  run_outcome env (Some [demo_repo]) = Rejected type_error /\
  run_events env (Some [demo_repo]) =
  ActivateGit :: git_execs (str "/work") ++
  [WithProgress MSG_PROGRESS;
   GenerateContent (request_of env (str "key") demo_repo)].
Proof. split; reflexivity. Qed.

(** X2.  A run starts no process at all, or exactly the three Git commands, in
    the order diff, name-status, branch, each in the root of the first
    repository. *)
Theorem process_calls_of_a_run (env : Env) (repos : option (list Repository)) :
  filter is_process_call (run_events env repos) = [] \/
  exists repo others,
    repos = Some (repo :: others) /\
    filter is_process_call (run_events env repos) =
    git_execs (rootUri_fsPath repo).
Proof.
  destruct (run_cases env repos).
  1-5: left; now log_simpl.
  all: right; exists repo, others; split; [reflexivity | now log_simpl].
Qed.

Ltac not_in_log H :=
  unfold activation_events, git_execs, caught in H;
  repeat match type of H with
         | context [isActive ?g] => destruct (isActive g)
         end;
  cbn [app In] in H;
  repeat match type of H with
         | _ \/ _ => destruct H as [H|H]
         | False => contradiction
         | _ = GenerateContent _ => try discriminate H
         end.

(** X3.  The provider is called at most once in a run, and only with the
    configured key, the configured model (or the default), the fixed
    sampling parameters and the prompt built from the trimmed outputs of
    the three Git commands, all three having succeeded and the diff not
    being blank. *)
Theorem provider_call_of_a_run (env : Env) (repos : option (list Repository)) :
  length (filter is_provider_call (run_events env repos)) <= 1 /\
  forall req,
    In (GenerateContent req) (run_events env repos) ->
    exists key repo others,
      cfg_geminiApiKey env = Some key /\ key <> [] /\
      repos = Some (repo :: others) /\
      gathered env repo /\
      trim (stdout (diff_result env repo)) <> [] /\
      req = request_of env key repo.
Proof.
  destruct (run_cases env repos).
  1-7: split; [log_simpl; lia | intros req Hin; not_in_log Hin].
  all: split; [log_simpl; lia|].
  all: intros req Hin; not_in_log Hin; injection Hin as <-.
  all: exists key, repo, others;
    refine (conj _ (conj _ (conj _ (conj _ (conj _ _)))));
    first [assumption | reflexivity].
Qed.

Lemma provider_call_of_a_run_witness :
  let env := demo_env (Some (str "key")) (Some (str "gemini-pro"))
                      (str "+x") (str "fix: x") in
  exists key repo others,
    cfg_geminiApiKey env = Some key /\ key <> [] /\
    Some [demo_repo] = Some (repo :: others) /\
    gathered env repo /\
    trim (stdout (diff_result env repo)) <> [] /\
    {| req_apiKey := str "key";
       req_model := str "gemini-pro";
       req_generationConfig :=
         {| temperature := 0.2; topP := 0.9; maxOutputTokens := 256 |};
       req_prompt := buildPrompt (str "+x") (str "main") (str "main") |}
    = request_of env key repo.
Proof.
  intros env.
  apply (proj2 (provider_call_of_a_run env (Some [demo_repo]))).
  vm_compute. do 4 right. left. reflexivity.
Defined.

Ltac other_run :=
  match goal with
  | H : truthy ?v = false, H' : truthy ?v = true |- _ => congruence
  | H : ?x = None, H' : ?x = Some _ |- _ => congruence
  | H : cfg_geminiApiKey ?env = Some ?k, H' : ?k <> [],
    H'' : truthy (cfg_geminiApiKey ?env) = false |- _ =>
      rewrite H in H''; destruct k; [now contradiction H' | discriminate H'']
  | H : None = Some _ \/ _ |- _ =>
      destruct H as [H|H]; discriminate H
  | H : Some _ = None \/ Some _ = Some [] |- _ =>
      destruct H as [H|H]; discriminate H
  end.

(** Two names for the Git extension of the environment. *)
Ltac same_extension g :=
  match goal with
  | H : git_extension ?env = Some g, H' : git_extension ?env = Some ?g' |- _ =>
      assert (g' = g) by congruence; subst g'
  end.

(** X4.  When the key is set, the Git extension is ready and a repository is
    open, but a Git command fails, the run starts the three commands, shows
    the message of the failed command that exited first (its [stderr], or
    the error's own message when [stderr] is empty) behind the error
    prefix, logs it to the console, and does nothing else: no provider
    call, no write to the input box. *)
Theorem git_failure_is_reported (env : Env) (repo : Repository)
        (others : list Repository) (g : GitExtension) :
  truthy (cfg_geminiApiKey env) = true ->
  git_extension env = Some g ->
  isActive g = true \/ activate_failure g = None ->
  ~ gathered env repo ->
  exists r e,
    In r (git_results env repo) /\ rejection_of r = Some e /\
    (forall r', In r' (git_results env repo) -> err_message r' <> None ->
                exitedAt r <= exitedAt r') /\
    run_events env (Some (repo :: others)) =
    activation_events g ++ git_execs (rootUri_fsPath repo) ++ caught e /\
    run_repositories env (Some (repo :: others)) = Some (repo :: others).
Proof.
  intros Hk Eg Hready Hng.
  remember (Some (repo :: others)) as repos eqn:Er.
  destruct (run_cases env repos); try other_run.
  1, 2: same_extension g; destruct Hready as [Hr|Hr]; congruence.
  1: subst repos; other_run.
  all: injection Er as -> ->; try contradiction.
  same_extension g. exists r, e. repeat split; assumption.
Qed.

Lemma git_failure_is_reported_witness :
  exists r e,
    In r (git_results unborn_branch_env demo_repo) /\
    rejection_of r = Some e /\
    (forall r', In r' (git_results unborn_branch_env demo_repo) ->
                err_message r' <> None -> exitedAt r <= exitedAt r') /\
    run_events unborn_branch_env (Some [demo_repo]) =
    activation_events {| isActive := true; activate_failure := None |} ++
    git_execs (rootUri_fsPath demo_repo) ++ caught e /\
    run_repositories unborn_branch_env (Some [demo_repo]) = Some [demo_repo].
Proof.
  apply (git_failure_is_reported unborn_branch_env demo_repo []
           {| isActive := true; activate_failure := None |}).
  - reflexivity.
  - reflexivity.
  - now left.
  - intros (_ & _ & H). vm_compute in H. discriminate H.
Defined.

Lemma provider_call_after_git (g : GitExtension) (root : jsstring)
      (rest : list Event) (req : ProviderRequest) :
  In (GenerateContent req)
     (activation_events g ++ git_execs root ++ rest) ->
  In (GenerateContent req) rest.
Proof.
  intros H. apply in_app_or in H. destruct H as [H|H].
  - unfold activation_events in H. destruct (isActive g); not_in_log H.
  - apply in_app_or in H. destruct H as [H|H]; [not_in_log H | exact H].
Qed.

(** Find the provider call in the log of one kind of run. *)
Ltac provider_call_in H :=
  first [ apply provider_call_after_git in H | idtac ];
  not_in_log H.

(** X5.  When the provider call fails with an error whose message is [e], the
    run shows that message behind the error prefix, logs it to the console,
    shows no success message and leaves the repositories as they were. *)
Theorem provider_failure_is_reported (env : Env)
        (repos : option (list Repository)) (req : ProviderRequest)
        (e : jsstring) :
  In (GenerateContent req) (run_events env repos) ->
  provider env req = Rejected (Err e) ->
  (exists before,
      run_events env repos = before ++ GenerateContent req :: caught e) /\
  existsb is_information (run_events env repos) = false /\
  run_repositories env repos = repos.
Proof.
  intros Hin Hp. revert Hin.
  destruct (run_cases env repos); intros Hin; provider_call_in Hin;
    injection Hin as <-; try congruence.
  assert (e0 = e) by congruence. subst e0.
  split; [|split; [now log_simpl | reflexivity]].
  exists (activation_events g ++ git_execs (rootUri_fsPath repo) ++
          [WithProgress MSG_PROGRESS]).
  now rewrite <- !app_assoc.
Qed.

Lemma provider_failure_is_reported_witness :
  (exists before,
      run_events bad_key_env (Some [demo_repo]) =
      before ++
      GenerateContent (request_of bad_key_env (str "key") demo_repo)
      :: caught (str "API key not valid")) /\
  existsb is_information (run_events bad_key_env (Some [demo_repo])) = false /\
  run_repositories bad_key_env (Some [demo_repo]) = Some [demo_repo].
Proof.
  apply (provider_failure_is_reported bad_key_env (Some [demo_repo])
           (request_of bad_key_env (str "key") demo_repo)
           (str "API key not valid")).
  - vm_compute. do 5 right. left. reflexivity.
  - reflexivity.
Defined.

(** X6.  When the provider answers and the sanitised answer is not empty, it is
    written to the input box of the first repository, whose root and the
    other repositories stay as they were, and the success message is the
    last thing shown. *)
Theorem message_is_delivered (env : Env) (repos : option (list Repository))
        (req : ProviderRequest) (reply : jsstring) :
  In (GenerateContent req) (run_events env repos) ->
  provider env req = Fulfilled reply ->
  sanitize (trim reply) <> [] ->
  exists repo others,
    repos = Some (repo :: others) /\
    run_repositories env repos =
    Some (with_inputBox repo (sanitize (trim reply)) :: others) /\
    exists before,
      run_events env repos =
      before ++ [GenerateContent req; ShowInformationMessage MSG_READY].
Proof.
  intros Hin Hp Hs. revert Hin.
  destruct (run_cases env repos); intros Hin; provider_call_in Hin;
    injection Hin as <-; try congruence.
  assert (reply0 = reply) by congruence. subst reply0.
  exists repo, others. split; [reflexivity|]. split; [reflexivity|].
  exists (activation_events g ++ git_execs (rootUri_fsPath repo) ++
          [WithProgress MSG_PROGRESS]).
  now rewrite <- !app_assoc.
Qed.

Lemma message_is_delivered_witness :
  let env := demo_env (Some (str "key")) None (str "+x")
                      (str "```" ++ [10%N] ++ str "fix: x" ++ [10%N]
                       ++ str "```") in
  exists repo others,
    Some [demo_repo; demo_repo] = Some (repo :: others) /\
    run_repositories env (Some [demo_repo; demo_repo]) =
    Some (with_inputBox repo (str "fix: x") :: others) /\
    exists before,
      run_events env (Some [demo_repo; demo_repo]) =
      before ++ [GenerateContent (request_of env (str "key") demo_repo);
                 ShowInformationMessage MSG_READY].
Proof.
  intros env.
  apply (message_is_delivered env (Some [demo_repo; demo_repo])
           (request_of env (str "key") demo_repo)
           (str "```" ++ [10%N] ++ str "fix: x" ++ [10%N] ++ str "```")).
  - vm_compute. do 4 right. left. reflexivity.
  - reflexivity.
  - vm_compute. discriminate.
Defined.

(** X7.  A run leaves the repositories as they were and shows no success
    message, or it writes a text that is not empty and has no whitespace
    at either end to the input box of the first repository, touches
    nothing else, and ends with the success message. *)
Theorem input_box_is_the_only_write (env : Env)
        (repos : option (list Repository)) :
  (run_repositories env repos = repos /\
   existsb is_information (run_events env repos) = false) \/
  (exists repo others message,
      repos = Some (repo :: others) /\
      run_repositories env repos =
      Some (with_inputBox repo message :: others) /\
      message <> [] /\ trim message = message /\
      exists before,
        run_events env repos = before ++ [ShowInformationMessage MSG_READY]).
Proof.
  destruct (run_cases env repos).
  1-10: left; split; [reflexivity | now log_simpl].
  right. exists repo, others, (sanitize (trim reply)).
  repeat split; auto using sanitize_trimmed.
  exists (activation_events g ++ git_execs (rootUri_fsPath repo) ++
          [WithProgress MSG_PROGRESS;
           GenerateContent (request_of env key repo)]).
  now rewrite <- !app_assoc.
Qed.

(** X8.  With the key set: a missing Git extension gives exactly its error
    message; an extension that fails to activate, with an error whose
    message is [e], has that message shown behind the error prefix and
    logged; and with no repository open the
    run activates the extension if need be and then shows exactly the
    no-repository error.  None of these runs starts a process, calls the
    provider or writes to an input box. *)
Theorem early_exits (env : Env) (repos : option (list Repository)) :
  truthy (cfg_geminiApiKey env) = true ->
  (git_extension env = None ->
   run_events env repos = [ShowErrorMessage MSG_NO_GIT_EXTENSION] /\
   run_repositories env repos = repos) /\
  (forall g e,
      git_extension env = Some g ->
      isActive g = false -> activate_failure g = Some (Err e) ->
      run_events env repos = ActivateGit :: caught e /\
      run_repositories env repos = repos) /\
  (forall g,
      git_extension env = Some g ->
      isActive g = true \/ activate_failure g = None ->
      repos = None \/ repos = Some [] ->
      run_events env repos =
      activation_events g ++ [ShowErrorMessage MSG_NO_REPOSITORY] /\
      run_repositories env repos = repos).
Proof.
  intros Hk. split; [|split].
  - intros Hg. destruct (run_cases env repos); try congruence.
    now split.
  - intros g e Hg Ha Hf.
    destruct (run_cases env repos); try congruence; same_extension g;
      try match goal with
          | H : isActive g = true \/ activate_failure g = None |- _ =>
              destruct H; congruence
          end.
    assert (e0 = e) by congruence. subst e0. now split.
  - intros g Hg Hready Hrepos.
    destruct (run_cases env repos); try congruence;
      try (destruct Hrepos; discriminate); same_extension g.
    1, 2: destruct Hready; congruence.
    now split.
Qed.

Lemma early_exits_witness :
  (let env := {| cfg_geminiApiKey := Some (str "key");
                 cfg_model := None;
                 git_extension := None;
                 run_process := run_process broken_git_env;
                 provider := provider broken_git_env |} in
   run_events env (Some [demo_repo]) =
   [ShowErrorMessage MSG_NO_GIT_EXTENSION] /\
   run_repositories env (Some [demo_repo]) = Some [demo_repo]) /\
  (run_events broken_git_env (Some [demo_repo]) =
   ActivateGit :: caught (str "Git not found") /\
   run_repositories broken_git_env (Some [demo_repo]) = Some [demo_repo]) /\
  (run_events bad_key_env (Some []) =
   [ActivateGit; ShowErrorMessage MSG_NO_REPOSITORY] /\
   run_repositories bad_key_env (Some []) = Some []).
Proof.
  split; [|split].
  - intros env.
    exact (proj1 (early_exits env (Some [demo_repo]) eq_refl) eq_refl).
  - exact (proj1 (proj2 (early_exits broken_git_env (Some [demo_repo])
                                     eq_refl))
                 _ _ eq_refl eq_refl eq_refl).
  - exact (proj2 (proj2 (early_exits bad_key_env (Some []) eq_refl))
                 _ eq_refl (or_intror eq_refl) (or_intror eq_refl)).
Defined.

(* ================================================================== *)
(** ** Size and shape of the filtered diff *)

Lemma strip_acc_length (f : jsstring -> jsstring) :
  (forall l, length (f l) <= length l) ->
  forall s acc, length (strip_acc f acc s) <= length acc + length s.
Proof.
  intros Hf. induction s as [|c s IH]; intros acc; cbn [strip_acc].
  - specialize (Hf acc). simpl. lia.
  - destruct (is_line_terminator c).
    + rewrite length_app. cbn [length].
      specialize (Hf acc). specialize (IH []). simpl in IH. lia.
    + specialize (IH (acc ++ [c])). rewrite length_app in IH.
      simpl in *. lia.
Qed.

Lemma keep_line_length (p : regex) (l : jsstring) :
  length (keep_line p l) <= length l.
Proof. unfold keep_line. destruct (line_match p l); simpl; lia. Qed.

Lemma strip_lines_length (p : regex) (s : jsstring) :
  length (strip_lines (keep_line p) s) <= length s.
Proof.
  unfold strip_lines.
  exact (strip_acc_length (keep_line p) (keep_line_length p) s []).
Qed.

Lemma remove_noise_length (s : jsstring) : length (remove_noise s) <= length s.
Proof.
  rewrite remove_noise_unfold.
  repeat (etransitivity; [apply strip_lines_length|]). lia.
Qed.

Lemma collapse_length (n : nat) :
  forall (s : jsstring) (prev : option N),
    length s <= n ->
    length (replace_all BLANK_RUN [10; 10]%N 0 prev s) <= length s.
Proof.
  induction n as [|n IH]; intros s prev Hn.
  - destruct s; [simpl; lia | simpl in Hn; lia].
  - destruct s as [|c s]; [simpl; lia|].
    rewrite collapse_step.
    destruct (3 <=? nlrun (c :: s)) eqn:E.
    + apply Nat.leb_le in E.
      assert (Hrun : 2 <= nlrun s).
      { cbn [nlrun] in E. destruct (c =? 10)%N; lia. }
      pose proof (nlrun_le_length s) as Hl.
      specialize (IH (skipn (nlrun s) s)
                     (prev_after (Some c) (firstn (nlrun s) s))).
      rewrite length_skipn in IH. simpl in Hn.
      rewrite length_app. cbn [length]. lia.
    + specialize (IH s (Some c)). simpl in *. lia.
Qed.

Lemma collapse_blank_lines_length (s : jsstring) :
  length (collapse_blank_lines s) <= length s.
Proof.
  unfold collapse_blank_lines, replace. cbn [global BLANK_RUN re].
  fold BLANK_RUN. exact (collapse_length (length s) s None (Nat.le_refl _)).
Qed.

Lemma filtered_length (rawDiff : jsstring) :
  length (filtered rawDiff) <= length rawDiff.
Proof.
  unfold filtered.
  etransitivity; [apply collapse_blank_lines_length | apply remove_noise_length].
Qed.

(** X9.  Whatever the input, the output of [preprocessDiff] is at most 12,000
    code units plus the appended notice long, and has no whitespace at
    either end. *)
Theorem preprocessDiff_bounded_and_trimmed (rawDiff : jsstring) :
  (strlen (preprocessDiff rawDiff)
   <= MAX_DIFF_CHARS + strlen TRUNCATION_NOTICE)%N /\
  trim (preprocessDiff rawDiff) = preprocessDiff rawDiff.
Proof.
  split.
  - destruct (MAX_DIFF_CHARS <? strlen (filtered rawDiff))%N eqn:E.
    + apply N.ltb_lt in E. rewrite (preprocessDiff_truncated _ E).
      unfold strlen, TRUNCATION_NOTICE. fold MARKER_TEXT.
      rewrite !length_app.
      pose proof (dropWhile_length is_trimmable
                    (slice0 MAX_DIFF_CHARS (filtered rawDiff) ++ [10; 10]%N))
        as L.
      unfold trimStart. rewrite length_app in L. unfold slice0 in *.
      pose proof (firstn_le_length (N.to_nat MAX_DIFF_CHARS)
                                   (filtered rawDiff)) as F.
      simpl length in *. lia.
    + unfold preprocessDiff. fold (filtered rawDiff). rewrite E.
      apply N.ltb_ge in E. unfold strlen in *.
      pose proof (trim_length (filtered rawDiff)). lia.
  - unfold preprocessDiff. cbv zeta. apply trim_fixed.
Qed.

(** X10.  Noise removal and blank-line collapsing only delete, so a diff of at
    most 12,000 code units is never truncated: its output is the trimmed
    filtered text, and is no longer than the input. *)
Theorem short_diff_is_not_truncated (rawDiff : jsstring) :
  (strlen rawDiff <= MAX_DIFF_CHARS)%N ->
  preprocessDiff rawDiff = trim (filtered rawDiff) /\
  length (preprocessDiff rawDiff) <= length rawDiff.
Proof.
  intros H. pose proof (filtered_length rawDiff) as F.
  assert (E : (MAX_DIFF_CHARS <? strlen (filtered rawDiff))%N = false).
  { apply N.ltb_ge. unfold strlen in *. lia. }
  assert (P : preprocessDiff rawDiff = trim (filtered rawDiff)).
  { unfold preprocessDiff. fold (filtered rawDiff). now rewrite E. }
  split; [exact P|]. rewrite P.
  pose proof (trim_length (filtered rawDiff)). lia.
Qed.

Lemma short_diff_is_not_truncated_witness :
  preprocessDiff (str "index 1a..2b 100644" ++ [10%N] ++ str "+x") =
  trim (filtered (str "index 1a..2b 100644" ++ [10%N] ++ str "+x")) /\
  length (preprocessDiff (str "index 1a..2b 100644" ++ [10%N] ++ str "+x"))
  <= length (str "index 1a..2b 100644" ++ [10%N] ++ str "+x").
Proof.
  apply (short_diff_is_not_truncated
           (str "index 1a..2b 100644" ++ [10%N] ++ str "+x")).
  vm_compute. discriminate.
Defined.

(* ================================================================== *)
(** ** The noise loop as a whole *)

Section StripLaws.

Variables f g : jsstring -> jsstring.
Hypothesis Hg : forall l, no_lt l = true -> no_lt (g l) = true.

Lemma strip_acc_compose (s : jsstring) :
  forall acc,
    no_lt acc = true ->
    strip_acc f [] (strip_acc g acc s) =
    strip_acc (fun l => f (g l)) acc s.
Proof.
  induction s as [|c s IH]; intros acc Hacc; cbn [strip_acc].
  - now rewrite (strip_acc_last f (g acc) [] (Hg acc Hacc)).
  - destruct (is_line_terminator c) eqn:Ec.
    + rewrite (strip_acc_line f (g acc) [] c _ (Hg acc Hacc) Ec).
      cbn [app]. now rewrite (IH [] eq_refl).
    + apply IH. now apply no_lt_snoc.
Qed.

Lemma strip_lines_compose (s : jsstring) :
  strip_lines f (strip_lines g s) = strip_lines (fun l => f (g l)) s.
Proof. exact (strip_acc_compose s [] eq_refl). Qed.

Lemma strip_acc_terminators (s : jsstring) :
  forall acc,
    no_lt acc = true ->
    filter is_line_terminator (strip_acc g acc s) =
    filter is_line_terminator s.
Proof.
  assert (Hnone : forall l, no_lt l = true ->
                            filter is_line_terminator l = []).
  { induction l as [|c l IHl]; [reflexivity|]. cbn [no_lt forallb filter].
    intros H. apply andb_true_iff in H. destruct H as [Hc Hl].
    apply negb_true_iff in Hc. rewrite Hc. now apply IHl. }
  induction s as [|c s IH]; intros acc Hacc; cbn [strip_acc filter].
  - apply Hnone. now apply Hg.
  - destruct (is_line_terminator c) eqn:Ec.
    + rewrite filter_app, (Hnone _ (Hg acc Hacc)). cbn [app filter].
      rewrite Ec. f_equal. now apply IH.
    + apply IH. now apply no_lt_snoc.
Qed.

End StripLaws.

Lemma strip_acc_ext (f g : jsstring -> jsstring) :
  (forall l, f l = g l) ->
  forall s acc, strip_acc f acc s = strip_acc g acc s.
Proof.
  intros H. induction s as [|c s IH]; intros acc; cbn [strip_acc].
  - apply H.
  - destruct (is_line_terminator c); [now rewrite H, IH | apply IH].
Qed.

Lemma drop_noise_no_lt (l : jsstring) :
  no_lt l = true -> no_lt (drop_noise l) = true.
Proof. intros H. unfold drop_noise. now destruct (noise_line l). Qed.

Lemma remove_noise_strip (s : jsstring) :
  remove_noise s = strip_lines drop_noise s.
Proof.
  rewrite remove_noise_unfold.
  rewrite !strip_lines_compose
    by (intros; repeat apply keep_line_no_lt; assumption).
  unfold strip_lines. apply strip_acc_ext. intros l.
  now rewrite <- keep_all_unfold, keep_all_cases.
Qed.

(** X12.  The loop over the noise patterns works line by line: a line (the text
    between two line terminators) that one of the patterns matches is
    emptied, every other line stays as it is, and no line terminator is
    removed or added. *)
Theorem remove_noise_line_by_line (s : jsstring) :
  remove_noise s = strip_lines drop_noise s /\
  segs (remove_noise s) = map drop_noise (segs s) /\
  filter is_line_terminator (remove_noise s) = filter is_line_terminator s.
Proof.
  split; [apply remove_noise_strip|]. split.
  - rewrite remove_noise_strip. apply segs_lines. apply drop_noise_no_lt.
  - rewrite remove_noise_strip. unfold strip_lines.
    apply strip_acc_terminators; [apply drop_noise_no_lt | reflexivity].
Qed.

Lemma segs_skip_newlines (L : jsstring) (s : jsstring) :
  In L (segs_acc [] (skipn (nlrun s) s)) -> In L (segs_acc [] s).
Proof.
  induction s as [|c s IH]; [auto|]. cbn [nlrun].
  destruct (N.eqb_spec c 10) as [->|Hc]; cbn [skipn]; [|auto].
  intros H. cbn [segs_acc is_line_terminator N.eqb Pos.eqb orb].
  right. now apply IH.
Qed.

(** Collapsing blank lines adds no line between terminators but the empty
    one. *)
Lemma collapse_segs (L : jsstring) (n : nat) :
  forall s acc prev,
    length s <= n ->
    In L (segs_acc acc (replace_all BLANK_RUN [10; 10]%N 0 prev s)) ->
    L = [] \/ In L (segs_acc acc s).
Proof.
  induction n as [|n IH]; intros s acc prev Hn.
  - destruct s; [now right | simpl in Hn; lia].
  - destruct s as [|c s]; [now right|].
    rewrite collapse_step.
    destruct (3 <=? nlrun (c :: s)) eqn:E.
    + assert (Hc : c = 10%N).
      { apply Nat.leb_le in E. cbn [nlrun] in E.
        destruct (N.eqb_spec c 10); [assumption | lia]. }
      subst c.
      cbn [app segs_acc is_line_terminator N.eqb Pos.eqb orb In].
      intros [<-|[<-|Hin]]; [right; now left | now left |].
      apply IH in Hin; [|rewrite length_skipn; simpl in Hn; lia].
      destruct Hin as [->|Hin]; [now left|].
      right. right. now apply segs_skip_newlines.
    + cbn [segs_acc]. destruct (is_line_terminator c).
      * cbn [In]. intros [<-|Hin]; [right; now left|].
        apply IH in Hin; [|simpl in Hn; lia].
        destruct Hin as [->|Hin]; [now left | right; now right].
      * intros Hin. apply IH in Hin; [exact Hin | simpl in Hn; lia].
Qed.

Lemma strip_acc_fixed (f : jsstring -> jsstring) (s : jsstring) :
  forall acc,
    (forall l, In l (segs_acc acc s) -> f l = l) ->
    strip_acc f acc s = acc ++ s.
Proof.
  induction s as [|c s IH]; intros acc H; cbn [strip_acc segs_acc] in *.
  - rewrite app_nil_r. apply H. now left.
  - destruct (is_line_terminator c).
    + rewrite (H acc (or_introl eq_refl)). do 2 f_equal.
      apply (IH []). intros l Hl. apply H. now right.
    + rewrite (IH _ H). now rewrite <- app_assoc.
Qed.

Lemma drop_noise_fixed (l : jsstring) : drop_noise (drop_noise l) = drop_noise l.
Proof.
  unfold drop_noise at 2 3. destruct (noise_line l) eqn:E; [reflexivity|].
  unfold drop_noise. now rewrite E.
Qed.

Lemma remove_noise_of_clean (u : jsstring) :
  (forall l, In l (segs u) -> drop_noise l = l) -> remove_noise u = u.
Proof.
  intros H. rewrite remove_noise_strip. unfold strip_lines.
  exact (strip_acc_fixed drop_noise u [] H).
Qed.

Lemma collapse_twice (s : jsstring) :
  collapse_blank_lines (collapse_blank_lines s) = collapse_blank_lines s.
Proof.
  unfold collapse_blank_lines, replace. cbn [global BLANK_RUN re].
  fold BLANK_RUN. apply collapse_fixed.
  exact (proj1 (collapse_output (length s) s None (Nat.le_refl _))).
Qed.

(** X13.  Filtering a filtered text changes nothing: noise removal leaves no line
    for a second pass to match, blank-line collapsing exposes none, and a
    collapsed text has no blank run left. *)
Theorem filter_stage_idempotent (s : jsstring) :
  remove_noise (remove_noise s) = remove_noise s /\
  filtered (filtered s) = filtered s.
Proof.
  assert (Hclean : forall l, In l (segs (remove_noise s)) -> drop_noise l = l).
  { intros l Hl. rewrite segs_remove_noise in Hl.
    apply in_map_iff in Hl. destruct Hl as (l' & <- & _).
    rewrite keep_all_cases. apply drop_noise_fixed. }
  split; [now apply remove_noise_of_clean|].
  unfold filtered at 1.
  rewrite (remove_noise_of_clean (filtered s)).
  - unfold filtered. apply collapse_twice.
  - intros l Hl. unfold filtered, collapse_blank_lines, replace, segs in Hl.
    cbn [global BLANK_RUN re] in Hl. fold BLANK_RUN in Hl.
    apply (collapse_segs l (length (remove_noise s)) _ _ _ (Nat.le_refl _))
      in Hl.
    destruct Hl as [->|Hl]; [reflexivity | now apply Hclean].
Qed.

Lemma filter_skip_newlines (s : jsstring) :
  filter (fun c => negb (line_feed c)) (skipn (nlrun s) s) =
  filter (fun c => negb (line_feed c)) s.
Proof.
  induction s as [|c s IH]; [reflexivity|]. cbn [nlrun].
  destruct (c =? 10)%N eqn:E; cbn [skipn filter]; [|reflexivity].
  unfold line_feed at 2. rewrite E. exact IH.
Qed.

Lemma collapse_keeps_text (n : nat) :
  forall (s : jsstring) (prev : option N),
    length s <= n ->
    filter (fun c => negb (line_feed c))
           (replace_all BLANK_RUN [10; 10]%N 0 prev s) =
    filter (fun c => negb (line_feed c)) s.
Proof.
  induction n as [|n IH]; intros s prev Hn.
  - destruct s; [reflexivity | simpl in Hn; lia].
  - destruct s as [|c s]; [reflexivity|].
    rewrite collapse_step.
    destruct (3 <=? nlrun (c :: s)) eqn:E.
    + assert (Hc : c = 10%N).
      { apply Nat.leb_le in E. cbn [nlrun] in E.
        destruct (N.eqb_spec c 10); [assumption | lia]. }
      subst c. cbn [app filter line_feed N.eqb Pos.eqb negb].
      rewrite IH by (rewrite length_skipn; simpl in Hn; lia).
      apply filter_skip_newlines.
    + cbn [filter]. rewrite (IH s (Some c)) by (simpl in Hn; lia).
      reflexivity.
Qed.

(** X14.  Blank-line collapsing deletes line feeds and nothing else: the other
    code units come out in the same order, no three line feeds in a row are
    left, the text does not grow, and a text without three line feeds in a
    row is not changed. *)
Theorem collapse_deletes_only_line_feeds (s : jsstring) :
  filter (fun c => negb (line_feed c)) (collapse_blank_lines s) =
  filter (fun c => negb (line_feed c)) s /\
  no_blank_run (collapse_blank_lines s) = true /\
  length (collapse_blank_lines s) <= length s /\
  (no_blank_run s = true -> collapse_blank_lines s = s).
Proof.
  unfold collapse_blank_lines, replace. cbn [global BLANK_RUN re].
  fold BLANK_RUN. repeat split.
  - exact (collapse_keeps_text (length s) s None (Nat.le_refl _)).
  - exact (proj1 (collapse_output (length s) s None (Nat.le_refl _))).
  - exact (collapse_length (length s) s None (Nat.le_refl _)).
  - intros H. now apply collapse_fixed.
Qed.

Lemma collapse_deletes_only_line_feeds_witness :
  collapse_blank_lines (str "a" ++ [10; 10]%N ++ str "b" ++ [10; 13; 10]%N)
  = str "a" ++ [10; 10]%N ++ str "b" ++ [10; 13; 10]%N.
Proof.
  apply (proj2 (proj2 (proj2 (collapse_deletes_only_line_feeds
           (str "a" ++ [10; 10]%N ++ str "b" ++ [10; 13; 10]%N))))).
  reflexivity.
Defined.

(* ================================================================== *)
(** ** Which lines the noise patterns match *)

Lemma matched_option_map (f : nat -> nat) (o : option nat) :
  matched (option_map f o) = matched o.
Proof. now destruct o. Qed.

Lemma quant_forgets_prev (p : N -> bool) (k : cont) :
  (forall prev prev' r, k prev r = k prev' r) ->
  forall r min max prev prev',
    quant p min max k prev r = quant p min max k prev' r.
Proof.
  intros Hk. induction r as [|ch r IH]; intros min max prev prev';
    cbn [quant].
  - now rewrite (Hk prev prev').
  - rewrite (Hk prev prev' (ch :: r)). reflexivity.
Qed.

Lemma match_atoms_forgets_prev (ic ml : bool) (ats : list atom) :
  Forall bol_free ats ->
  forall prev prev' r,
    match_atoms ic ml ats prev r = match_atoms ic ml ats prev' r.
Proof.
  induction 1 as [|a ats Ha _ IH]; intros prev prev' r; [reflexivity|].
  destruct a as [| |c|min max c]; cbn [match_atoms].
  - contradiction.
  - now rewrite (IH prev prev').
  - reflexivity.
  - now apply quant_forgets_prev.
Qed.

(** When a greedy quantifier with its continuation succeeds: some number
    of repetitions within the bounds lets the continuation succeed. *)
Lemma quant_matched (p : N -> bool) (k : cont) :
  (forall prev prev' r, k prev r = k prev' r) ->
  forall r min prev,
    matched (quant p min None k prev r) = true <->
    exists j, min <= j /\ j <= length r /\
              forallb p (firstn j r) = true /\
              matched (k None (skipn j r)) = true.
Proof.
  intros Hk. induction r as [|ch r IH]; intros min prev; cbn [quant].
  - split.
    + destruct (Nat.eqb_spec min 0) as [->|]; [|discriminate].
      intros H. exists 0. rewrite (Hk None prev). now repeat split.
    + intros (j & Hmin & Hj & _ & Hm). cbn [length] in Hj.
      assert (j = 0) by lia. subst j. assert (min = 0) by lia. subst min.
      cbn [Nat.eqb skipn] in *. now rewrite (Hk prev None).
  - cbn [option_map]. rewrite andb_true_r.
    destruct (p ch) eqn:Ep.
    + specialize (IH (pred min) (Some ch)).
      destruct (quant p (pred min) None k (Some ch) r) as [n|] eqn:Eq.
      * split; [|reflexivity]. intros _.
        destruct (proj1 IH eq_refl) as (j & Hmin & Hj & Hall & Hm).
        exists (S j). cbn [length firstn skipn forallb]. rewrite Ep, Hall.
        repeat split; try lia. exact Hm.
      * split.
        -- destruct (Nat.eqb_spec min 0) as [->|]; [|discriminate].
           intros H. exists 0. rewrite (Hk None prev).
           repeat split; auto; lia.
        -- intros (j & Hmin & Hj & Hall & Hm).
           destruct j as [|j].
           ++ assert (min = 0) by lia. subst min.
              cbn [Nat.eqb skipn] in *. now rewrite (Hk prev None).
           ++ cbn [firstn forallb skipn length] in *.
              apply andb_true_iff in Hall. destruct Hall as [_ Hall].
              assert (Hex : exists j0, pred min <= j0 /\ j0 <= length r /\
                              forallb p (firstn j0 r) = true /\
                              matched (k None (skipn j0 r)) = true)
                by (exists j; repeat split; auto; lia).
              apply IH in Hex. discriminate Hex.
    + split.
      * destruct (Nat.eqb_spec min 0) as [->|]; [|discriminate].
        intros H. exists 0. rewrite (Hk None prev).
        repeat split; auto; lia.
      * intros (j & Hmin & Hj & Hall & Hm).
        destruct j as [|j].
        -- assert (min = 0) by lia. subst min.
           cbn [Nat.eqb skipn] in *. now rewrite (Hk prev None).
        -- cbn [firstn forallb] in Hall. rewrite Ep in Hall. discriminate.
Qed.

Lemma eol_matched (r : jsstring) :
  no_lt r = true ->
  (matched (match_atoms false true [Eol] None r) = true <-> r = []).
Proof.
  intros Hr. cbn [match_atoms]. destruct r as [|c r]; cbn [at_eol].
  - now split.
  - cbn [no_lt forallb] in Hr. apply andb_true_iff in Hr.
    destruct Hr as [Hc _]. apply negb_true_iff in Hc. rewrite Hc.
    split; discriminate.
Qed.

Lemma no_lt_skipn (n : nat) (r : jsstring) :
  no_lt r = true -> no_lt (skipn n r) = true.
Proof.
  revert r. induction n as [|n IH]; intros r Hr; [exact Hr|].
  destruct r as [|c r]; [reflexivity|]. cbn [skipn].
  cbn [no_lt forallb] in Hr. apply andb_true_iff in Hr. now apply IH.
Qed.

Lemma no_lt_firstn (n : nat) (r : jsstring) :
  no_lt r = true -> no_lt (firstn n r) = true.
Proof.
  revert r. induction n as [|n IH]; intros r Hr; [reflexivity|].
  destruct r as [|c r]; [reflexivity|]. cbn [firstn].
  unfold no_lt in *. cbn [forallb] in *. apply andb_true_iff in Hr.
  destruct Hr as [Hc Hr]. now rewrite Hc, (IH r Hr).
Qed.

Lemma skipn_nil_length (j : nat) (r : jsstring) :
  j <= length r -> skipn j r = [] -> firstn j r = r /\ j = length r.
Proof.
  intros Hj H. pose proof (firstn_skipn j r) as E. rewrite H, app_nil_r in E.
  split; [exact E|]. apply (f_equal (@length N)) in E.
  rewrite length_firstn in E. lia.
Qed.

Lemma line_match_matched (p : regex) (l : jsstring) :
  line_match p l = matched (try_match p None l).
Proof. reflexivity. Qed.

(** A line that starts with the literal [pre] matches [/^ pre ats/m] when
    what follows the literal matches [ats]. *)
Lemma line_match_literal (pre : list ascii) (ats : list atom) (l : jsstring) :
  Forall bol_free ats ->
  line_match (re true false true
                 (Bol :: map (fun a => Cls (one a)) pre ++ ats)) l =
  startsWith (map N_of_ascii pre) l &&
  matched (match_atoms false true ats None (skipn (length pre) l)).
Proof.
  intros Hats. rewrite line_match_matched. unfold try_match.
  cbn [re source ignoreCase multiline match_atoms at_bol].
  rewrite match_literal by (intros E; discriminate E).
  destruct (startsWith (map N_of_ascii pre) l); [|reflexivity].
  rewrite matched_option_map.
  now rewrite (match_atoms_forgets_prev false true ats Hats _ None).
Qed.

(** One or more characters of a class up to the end of the line. *)
Lemma plus_to_eol_matched (c : cls) (r : jsstring) :
  no_lt r = true ->
  (matched (match_atoms false true [Plus c; Eol] None r) = true <->
   r <> [] /\ forallb c r = true).
Proof.
  intros Hr. cbn [match_atoms Plus].
  change (cls_match false c) with c.
  rewrite quant_matched by reflexivity. split.
  - intros (j & Hmin & Hj & Hall & Hm).
    apply (eol_matched _ (no_lt_skipn j r Hr)) in Hm.
    destruct (skipn_nil_length j r Hj Hm) as [E Hlen]. rewrite E in Hall.
    split; [|exact Hall]. intros ->. simpl in Hlen. lia.
  - intros [Hne Hall]. exists (length r).
    rewrite firstn_all, skipn_all. repeat split; auto.
    destruct r; [contradiction | simpl; lia].
Qed.

(** X17.  What [/^old mode \d+$/gm] and [/^new mode \d+$/gm] match: a line made
    of the words and one or more decimal digits, and nothing else. *)
Theorem mode_lines (l : jsstring) :
  no_lt l = true ->
  (line_match NOISE_OLD_MODE l = true <->
   exists d, d <> [] /\ forallb digit d = true /\ l = str "old mode " ++ d) /\
  (line_match NOISE_NEW_MODE l = true <->
   exists d, d <> [] /\ forallb digit d = true /\ l = str "new mode " ++ d).
Proof.
  intros Hl.
  assert (Hfree : Forall bol_free [Plus digit; Eol])
    by (repeat constructor).
  split.
  - unfold NOISE_OLD_MODE, lit. cbn [app].
    rewrite (line_match_literal _ _ l Hfree), andb_true_iff, startsWith_spec.
    split.
    + intros [[r ->] Hm]. change (skipn _ (_ ++ r)) with r in Hm.
      unfold str in Hl. rewrite no_lt_app in Hl.
      apply andb_true_iff in Hl. destruct Hl as [_ Hr].
      apply (plus_to_eol_matched digit r Hr) in Hm. now exists r.
    + intros (d & Hne & Hd & ->). split; [now exists d|].
      change (skipn _ (_ ++ d)) with d.
      unfold str in Hl. rewrite no_lt_app in Hl.
      apply andb_true_iff in Hl. destruct Hl as [_ Hr].
      now apply (plus_to_eol_matched digit d Hr).
  - unfold NOISE_NEW_MODE, lit. cbn [app].
    rewrite (line_match_literal _ _ l Hfree), andb_true_iff, startsWith_spec.
    split.
    + intros [[r ->] Hm]. change (skipn _ (_ ++ r)) with r in Hm.
      unfold str in Hl. rewrite no_lt_app in Hl.
      apply andb_true_iff in Hl. destruct Hl as [_ Hr].
      apply (plus_to_eol_matched digit r Hr) in Hm. now exists r.
    + intros (d & Hne & Hd & ->). split; [now exists d|].
      change (skipn _ (_ ++ d)) with d.
      unfold str in Hl. rewrite no_lt_app in Hl.
      apply andb_true_iff in Hl. destruct Hl as [_ Hr].
      now apply (plus_to_eol_matched digit d Hr).
Qed.

Lemma mode_lines_witness :
  line_match NOISE_OLD_MODE (str "old mode 100644") = true.
Proof.
  apply (proj1 (mode_lines (str "old mode 100644") eq_refl)).
  exists (str "100644"). repeat split. discriminate.
Defined.

Lemma literal_to_eol_matched (pre : list ascii) (r : jsstring) :
  no_lt r = true ->
  (matched (match_atoms false true
                        (map (fun a => Cls (one a)) pre ++ [Eol]) None r)
   = true <-> r = map N_of_ascii pre).
Proof.
  intros Hr. rewrite match_literal by (intros E; discriminate E).
  destruct (startsWith (map N_of_ascii pre) r) eqn:E.
  - rewrite matched_option_map.
    apply startsWith_spec in E. destruct E as [r' ->].
    rewrite <- (length_map N_of_ascii pre), skipn_length_app.
    rewrite no_lt_app in Hr. apply andb_true_iff in Hr.
    destruct Hr as [_ Hr'].
    rewrite (match_atoms_forgets_prev false true [Eol]
               (Forall_cons Eol I (Forall_nil _)) _ None).
    rewrite (eol_matched r' Hr'). split.
    + intros ->. apply app_nil_r.
    + intros H. rewrite <- (app_nil_r (map N_of_ascii pre)) in H at 2.
      now apply app_inv_head in H.
  - split; [discriminate|]. intros ->.
    assert (T : startsWith (map N_of_ascii pre) (map N_of_ascii pre) = true)
      by (apply startsWith_spec; exists []; now rewrite app_nil_r).
    congruence.
Qed.

Lemma literal_bol_free (pre : list ascii) (ats : list atom) :
  Forall bol_free ats ->
  Forall bol_free (map (fun a => Cls (one a)) pre ++ ats).
Proof.
  intros H. apply Forall_app. split; [|exact H].
  induction pre; constructor; [exact I | assumption].
Qed.

(** One or more characters of a class, then a literal, then the end of
    the line. *)
Lemma plus_then_literal_matched (c : cls) (pre : list ascii) (r : jsstring) :
  no_lt r = true ->
  (matched (match_atoms false true
              (Plus c :: map (fun a => Cls (one a)) pre ++ [Eol]) None r)
   = true <->
   exists x, x <> [] /\ forallb c x = true /\ r = x ++ map N_of_ascii pre).
Proof.
  intros Hr. cbn [match_atoms Plus]. change (cls_match false c) with c.
  rewrite quant_matched
    by (apply match_atoms_forgets_prev, literal_bol_free;
        repeat constructor).
  split.
  - intros (j & Hmin & Hj & Hall & Hm).
    apply (literal_to_eol_matched pre _ (no_lt_skipn j r Hr)) in Hm.
    exists (firstn j r). repeat split; auto.
    + intros E. apply (f_equal (@length N)) in E.
      rewrite length_firstn in E. simpl in E. lia.
    + now rewrite <- Hm, firstn_skipn.
  - intros (x & Hne & Hall & ->). exists (length x).
    rewrite firstn_length_app, skipn_length_app, length_app.
    repeat split; auto; try lia.
    + destruct x; [contradiction | simpl; lia].
    + apply literal_to_eol_matched; [|reflexivity].
      rewrite no_lt_app in Hr. apply andb_true_iff in Hr. tauto.
Qed.

Ltac line_after_literal Hl r :=
  unfold str in Hl; rewrite no_lt_app in Hl;
  apply andb_true_iff in Hl; destruct Hl as [_ Hl].

(** X16.  What [/^similarity index \d+%$/gm] matches: a line made of the words,
    one or more decimal digits and a percent sign. *)
Theorem similarity_lines (l : jsstring) :
  no_lt l = true ->
  (line_match NOISE_SIMILARITY l = true <->
   exists d, d <> [] /\ forallb digit d = true /\
             l = str "similarity index " ++ d ++ str "%").
Proof.
  intros Hl. unfold NOISE_SIMILARITY, lit. cbn [app].
  rewrite (line_match_literal _ (Plus digit :: map _ _ ++ [Eol]) l)
    by (constructor; [exact I | apply literal_bol_free; repeat constructor]).
  rewrite andb_true_iff, startsWith_spec. split.
  - intros [[r ->] Hm]. change (skipn _ (_ ++ r)) with r in Hm.
    line_after_literal Hl r.
    apply (plus_then_literal_matched digit _ r Hl) in Hm.
    destruct Hm as (d & Hne & Hd & ->). now exists d.
  - intros (d & Hne & Hd & ->). split; [now eexists|].
    change (skipn _ (_ ++ ?x)) with (d ++ str "%").
    line_after_literal Hl r.
    apply (plus_then_literal_matched digit _ _ Hl). now exists d.
Qed.

Lemma similarity_lines_witness :
  line_match NOISE_SIMILARITY (str "similarity index 87%") = true.
Proof.
  apply (proj2 (similarity_lines (str "similarity index 87%") eq_refl)).
  exists (str "87"). repeat split. discriminate.
Defined.

(** X18.  What [/^Binary files .+ differ$/gm] matches: a line that starts with
    "Binary files ", ends with " differ" and has at least one character in
    between. *)
Theorem binary_lines (l : jsstring) :
  no_lt l = true ->
  (line_match NOISE_BINARY l = true <->
   exists x, x <> [] /\
             l = str "Binary files " ++ x ++ str " differ").
Proof.
  intros Hl. unfold NOISE_BINARY, lit. cbn [app].
  rewrite (line_match_literal _ (Plus dot :: map _ _ ++ [Eol]) l)
    by (constructor; [exact I | apply literal_bol_free; repeat constructor]).
  rewrite andb_true_iff, startsWith_spec. split.
  - intros [[r ->] Hm]. change (skipn _ (_ ++ r)) with r in Hm.
    line_after_literal Hl r.
    apply (plus_then_literal_matched dot _ r Hl) in Hm.
    destruct Hm as (x & Hne & _ & ->). now exists x.
  - intros (x & Hne & ->). split; [now eexists|].
    change (skipn _ (_ ++ ?y)) with (x ++ str " differ").
    line_after_literal Hl r.
    apply (plus_then_literal_matched dot _ _ Hl). exists x.
    repeat split; auto.
    rewrite no_lt_app in Hl. apply andb_true_iff in Hl. tauto.
Qed.

Lemma binary_lines_witness :
  line_match NOISE_BINARY (str "Binary files a/x.png and b/x.png differ")
  = true.
Proof.
  apply (proj2 (binary_lines (str "Binary files a/x.png and b/x.png differ")
                             eq_refl)).
  exists (str "a/x.png and b/x.png"). split; [discriminate | reflexivity].
Defined.

Lemma star_dot_to_eol_matched (r : jsstring) :
  no_lt r = true ->
  matched (match_atoms false true [Star dot; Eol] None r) = true.
Proof.
  intros Hr. cbn [match_atoms Star]. change (cls_match false dot) with dot.
  apply quant_matched; [reflexivity|].
  exists (length r). rewrite firstn_all, skipn_all. repeat split; auto.
  lia.
Qed.

Lemma plus_then_matched (c : cls) (ats : list atom) (r : jsstring) :
  Forall bol_free ats ->
  (matched (match_atoms false true (Plus c :: ats) None r) = true <->
   exists j, 1 <= j /\ j <= length r /\
             forallb c (firstn j r) = true /\
             matched (match_atoms false true ats None (skipn j r)) = true).
Proof.
  intros H.
  change (match_atoms false true (Plus c :: ats) None r)
    with (quant c 1 None (match_atoms false true ats) None r).
  apply quant_matched. now apply match_atoms_forgets_prev.
Qed.

Lemma literal_then_matched (pre : list ascii) (ats : list atom)
      (r : jsstring) :
  Forall bol_free ats ->
  matched (match_atoms false true
                       (map (fun a => Cls (one a)) pre ++ ats) None r) =
  startsWith (map N_of_ascii pre) r &&
  matched (match_atoms false true ats None (skipn (length pre) r)).
Proof.
  intros H. rewrite match_literal by (intros E; discriminate E).
  destruct (startsWith (map N_of_ascii pre) r); [|reflexivity].
  rewrite matched_option_map.
  now rewrite (match_atoms_forgets_prev false true ats H _ None).
Qed.

Lemma firstn_nonempty (j : nat) (r : jsstring) :
  1 <= j -> j <= length r -> firstn j r <> [].
Proof.
  intros H1 H2 E. apply (f_equal (@length N)) in E.
  rewrite length_firstn in E. simpl in E. lia.
Qed.

(** X15.  What [/^index [a-f0-9]+\.\.[a-f0-9]+.*$/gm] matches: a line that
    starts with "index ", one or more lower-case hexadecimal digits, two
    dots and one or more such digits again; anything may follow. *)
Theorem index_lines (l : jsstring) :
  no_lt l = true ->
  (line_match NOISE_INDEX l = true <->
   exists h1 h2 rest,
     h1 <> [] /\ forallb hex_lower h1 = true /\
     h2 <> [] /\ forallb hex_lower h2 = true /\
     l = str "index " ++ h1 ++ str ".." ++ h2 ++ rest).
Proof.
  intros Hl. unfold NOISE_INDEX, lit. cbn [app].
  assert (Hfree3 : Forall bol_free [Star dot; Eol]) by (repeat constructor).
  assert (Hfree2 : Forall bol_free [Plus hex_lower; Star dot; Eol])
    by (repeat constructor).
  assert (Hfree1 : Forall bol_free
                     (map (fun a => Cls (one a)) (list_ascii_of_string "..")
                      ++ [Plus hex_lower; Star dot; Eol]))
    by (now apply literal_bol_free).
  rewrite (line_match_literal _
             (Plus hex_lower ::
              map (fun a => Cls (one a)) (list_ascii_of_string "..") ++
              [Plus hex_lower; Star dot; Eol]) l)
    by (constructor; [exact I | exact Hfree1]).
  rewrite andb_true_iff, startsWith_spec.
  split.
  - intros [[r ->] Hm]. change (skipn _ (_ ++ r)) with r in Hm.
    line_after_literal Hl r.
    apply (plus_then_matched hex_lower _ r Hfree1) in Hm.
    destruct Hm as (j & Hmin & Hj & Hh1 & Hm).
    rewrite (literal_then_matched _ _ _ Hfree2) in Hm.
    apply andb_true_iff in Hm. destruct Hm as [Edots Hm].
    apply startsWith_spec in Edots. destruct Edots as [r2 Er].
    rewrite Er in Hm. change (skipn _ (_ ++ r2)) with r2 in Hm.
    apply (plus_then_matched hex_lower _ r2 Hfree3) in Hm.
    destruct Hm as (i & Hmin2 & Hi & Hh2 & _).
    exists (firstn j r), (firstn i r2), (skipn i r2).
    repeat split; auto using firstn_nonempty.
    rewrite firstn_skipn.
    change (str "..") with (map N_of_ascii (list_ascii_of_string "..")).
    now rewrite <- Er, firstn_skipn.
  - intros (h1 & h2 & rest & Hn1 & Hh1 & Hn2 & Hh2 & ->).
    split; [now eexists|].
    change (skipn _ (_ ++ ?y)) with (h1 ++ str ".." ++ h2 ++ rest).
    line_after_literal Hl r.
    apply (plus_then_matched hex_lower _ _ Hfree1).
    exists (length h1). rewrite firstn_length_app, skipn_length_app.
    rewrite length_app.
    repeat split; auto; try lia.
    + destruct h1; [contradiction | simpl; lia].
    + rewrite (literal_then_matched _ _ _ Hfree2).
      apply andb_true_iff. split.
      * apply startsWith_spec. now eexists.
      * change (skipn _ (_ ++ ?y)) with (h2 ++ rest).
        apply (plus_then_matched hex_lower _ _ Hfree3).
        exists (length h2). rewrite firstn_length_app, skipn_length_app.
        rewrite length_app.
        repeat split; auto; try lia.
        -- destruct h2; [contradiction | simpl; lia].
        -- apply star_dot_to_eol_matched.
           rewrite !no_lt_app in Hl. rewrite !andb_true_iff in Hl. tauto.
Qed.

Lemma index_lines_witness :
  line_match NOISE_INDEX (str "index abc123..def456 100644") = true.
Proof.
  apply (proj2 (index_lines (str "index abc123..def456 100644") eq_refl)).
  exists (str "abc123"), (str "def456"), (str " 100644").
  repeat split; discriminate.
Defined.

(* ================================================================== *)
(** ** More on the sanitiser and the prompt *)

Lemma cls_match_lower (ch : N) : cls_match true lower ch = is_letter ch.
Proof.
  unfold cls_match, lower, is_letter, swap_case, in_range, chr.
  cbn [N_of_ascii N_of_digits N.add N.mul].
  change (0 + 2 * _)%N with 122%N || idtac.
  destruct (N.leb_spec 97 ch), (N.leb_spec ch 122),
           (N.leb_spec 65 ch), (N.leb_spec ch 90); cbn [andb orb];
    try reflexivity; try lia;
    repeat match goal with
           | |- context [(?a <=? ?b)%N] =>
               destruct (N.leb_spec a b); cbn [andb orb]
           end; try reflexivity; lia.
Qed.

Lemma forallb_pointwise (f g : N -> bool) (l : jsstring) :
  (forall x, f x = g x) -> forallb f l = forallb g l.
Proof.
  intros H. induction l as [|x l IH]; [reflexivity|].
  cbn [forallb]. now rewrite H, IH.
Qed.

(** A greedy [*] takes the whole run of class characters when the rest of
    the pattern matches after it. *)
Lemma quant_takes_run (p : N -> bool) (k : cont) (rest : jsstring)
      (m : nat) :
  match rest with [] => True | c :: _ => p c = false end ->
  forall tag prev,
    forallb p tag = true ->
    k (prev_after prev tag) rest = Some m ->
    quant p 0 None k prev (tag ++ rest) = Some (length tag + m).
Proof.
  intros Hrest. induction tag as [|t tag IH]; intros prev Htag Hk.
  - cbn [app length prev_after fold_left] in *.
    destruct rest as [|c r]; cbn [quant Nat.eqb]; [exact Hk|].
    rewrite Hrest. exact Hk.
  - cbn [forallb] in Htag. apply andb_true_iff in Htag.
    destruct Htag as [Ht Htag].
    cbn [app quant]. rewrite Ht. cbn [andb negb pred option_map].
    now rewrite (IH (Some t) Htag Hk).
Qed.

Lemma opt_newline_takes (prev : option N) (r : jsstring) :
  match_atoms true false [Opt newline] prev (10%N :: r) = Some 1.
Proof.
  destruct r as [|c r]; [reflexivity|].
  cbn [match_atoms Opt quant option_map pred Nat.eqb].
  change (cls_match true newline 10) with true. cbn [andb negb].
  now rewrite andb_false_r.
Qed.

Lemma replace_close_suffix (body : jsstring) :
  forall prev, replace_first FENCE_CLOSE [] prev (body ++ FENCE) = body.
Proof.
  induction body as [|c body IH]; intros prev.
  - reflexivity.
  - cbn [app replace_first].
    destruct (try_match FENCE_CLOSE prev (c :: body ++ FENCE)) as [n|] eqn:E.
    + apply fence_close_match in E. destruct E as [E _].
      apply (f_equal (@length N)) in E. cbn [length] in E.
      rewrite length_app in E. change (length FENCE) with 3 in E. lia.
    + now rewrite IH.
Qed.

(** X19.  A fenced answer comes out as its trimmed body: an opening fence with a
    language tag of letters (of either case, or none) and a line feed, and
    a closing fence at the very end, are both removed. *)
Theorem sanitize_fenced (tag body : jsstring) :
  forallb is_letter tag = true ->
  sanitize (FENCE ++ tag ++ [10%N] ++ body ++ FENCE) = trim body.
Proof.
  intros Htag. unfold sanitize.
  assert (Hopen : replace FENCE_OPEN [] (FENCE ++ tag ++ [10%N] ++ body ++ FENCE)
                  = body ++ FENCE).
  { unfold replace. cbn [global FENCE_OPEN re]. fold FENCE_OPEN.
    assert (Hm : try_match FENCE_OPEN None
                   (FENCE ++ tag ++ [10%N] ++ body ++ FENCE)
                 = Some (3 + (length tag + 1))).
    { rewrite fence_open_match.
      assert (T : startsWith FENCE (FENCE ++ tag ++ [10%N] ++ body ++ FENCE)
                  = true) by (apply startsWith_spec; now eexists).
      rewrite T. change (skipn 3 (FENCE ++ ?x)) with x.
      cbn [match_atoms Star].
      rewrite (quant_takes_run (cls_match true lower) _
                 ([10%N] ++ body ++ FENCE) 1).
      - reflexivity.
      - reflexivity.
      - rewrite (forallb_pointwise _ is_letter tag cls_match_lower).
        exact Htag.
      - apply opt_newline_takes. }
    rewrite (replace_first_match _ _ _ _ _ Hm). cbn [app].
    change (FENCE ++ tag ++ 10%N :: body ++ FENCE)
      with (FENCE ++ tag ++ [10%N] ++ body ++ FENCE).
    rewrite (app_assoc tag), (app_assoc FENCE).
    replace (3 + (length tag + 1)) with (length (FENCE ++ tag ++ [10%N]))
      by (rewrite !length_app; reflexivity).
    apply skipn_length_app. }
  rewrite Hopen. unfold replace. cbn [global FENCE_CLOSE re].
  fold FENCE_CLOSE. now rewrite replace_close_suffix.
Qed.

Lemma sanitize_fenced_witness :
  sanitize (FENCE ++ str "Text" ++ [10%N] ++
            (str "fix(api): handle nil" ++ [10%N]) ++ FENCE)
  = str "fix(api): handle nil".
Proof.
  rewrite (sanitize_fenced (str "Text") (str "fix(api): handle nil" ++ [10%N])
                           eq_refl).
  reflexivity.
Defined.

Lemma contains_trans (a b c : jsstring) :
  contains a b -> contains b c -> contains a c.
Proof.
  intros (x & y & ->) (u & v & ->). exists (x ++ u), (v ++ y).
  now rewrite <- !app_assoc.
Qed.

Lemma contains_skipn (n : nat) (s : jsstring) : contains s (skipn n s).
Proof.
  exists (firstn n s), []. now rewrite app_nil_r, firstn_skipn.
Qed.

Lemma dropWhile_contains (p : N -> bool) (s : jsstring) :
  contains s (dropWhile p s).
Proof.
  induction s as [|c s IH]; cbn [dropWhile].
  - now exists [], [].
  - destruct (p c).
    + destruct IH as (x & y & E). exists (c :: x), y. cbn [app]. now f_equal.
    + exists [], []. now rewrite app_nil_r.
Qed.

Lemma contains_rev (s t : jsstring) :
  contains s t -> contains (rev s) (rev t).
Proof.
  intros (x & y & ->). exists (rev y), (rev x).
  now rewrite !rev_app_distr, <- app_assoc.
Qed.

Lemma trim_contains (s : jsstring) : contains s (trim s).
Proof.
  unfold trim, trimEnd, trimStart.
  apply (contains_trans _ (dropWhile is_trimmable s));
    [apply dropWhile_contains|].
  rewrite <- (rev_involutive (dropWhile is_trimmable s)) at 1.
  apply contains_rev, dropWhile_contains.
Qed.

Lemma replace_open_contains (s : jsstring) :
  contains s (replace FENCE_OPEN [] s).
Proof.
  unfold replace. cbn [global FENCE_OPEN re]. fold FENCE_OPEN.
  destruct (try_match FENCE_OPEN None s) as [n|] eqn:E.
  - rewrite (replace_first_match _ _ _ _ _ E). apply contains_skipn.
  - destruct s as [|c s]; cbn [replace_first]; rewrite E.
    + now exists [], [].
    + rewrite replace_open_after_start. exists [], [].
      now rewrite app_nil_r.
Qed.

Lemma replace_close_prefix (s : jsstring) :
  forall prev,
    exists m, replace_first FENCE_CLOSE [] prev s = firstn m s.
Proof.
  induction s as [|d s IH]; intros prev; cbn [replace_first].
  - exists 0. reflexivity.
  - destruct (try_match FENCE_CLOSE prev (d :: s)) as [k|] eqn:Ek.
    + apply fence_close_match in Ek. destruct Ek as [-> ->]. now exists 0.
    + destruct (IH (Some d)) as [m Hm]. exists (S m).
      cbn [firstn]. now rewrite Hm.
Qed.

Lemma replace_close_contains (s : jsstring) :
  contains s (replace FENCE_CLOSE [] s).
Proof.
  unfold replace. cbn [global FENCE_CLOSE re]. fold FENCE_CLOSE.
  destruct (replace_close_prefix s None) as [m ->].
  exists [], (skipn m s). cbn [app]. now rewrite firstn_skipn.
Qed.

(** X20.  The sanitiser cuts at the two ends only: its result is one contiguous
    piece of the text it was given, with no whitespace at either end. *)
Theorem sanitize_cuts_the_ends (s : jsstring) :
  contains s (sanitize s) /\ trim (sanitize s) = sanitize s.
Proof.
  split; [|apply sanitize_trimmed].
  unfold sanitize.
  apply (contains_trans _ (replace FENCE_OPEN [] s));
    [apply replace_open_contains|].
  apply (contains_trans _ (replace FENCE_CLOSE [] (replace FENCE_OPEN [] s)));
    [apply replace_close_contains | apply trim_contains].
Qed.

Lemma trimEnd_blank (s : jsstring) : blank s = true -> trimEnd s = [].
Proof.
  intros H. unfold trimEnd.
  rewrite (dropWhile_all is_trimmable (rev s)); [reflexivity|].
  apply forallb_forall. intros x Hx. apply in_rev in Hx.
  unfold blank in H. rewrite forallb_forall in H. now apply H.
Qed.

(** X21.  With a diff that is empty or only whitespace the prompt ends with its
    last instruction line and has no diff section; otherwise the diff,
    less its trailing whitespace, follows after one blank line. *)
Theorem buildPrompt_by_diff (diff stagedFiles branchName : jsstring) :
  (blank diff = true ->
   buildPrompt diff stagedFiles branchName =
   PROMPT_INTRO ++ branchName ++ str PROMPT_FILES ++ stagedFiles ++
   PROMPT_BODY) /\
  (blank diff = false ->
   buildPrompt diff stagedFiles branchName =
   PROMPT_INTRO ++ branchName ++ str PROMPT_FILES ++ stagedFiles ++
   PROMPT_BODY ++ [10; 10]%N ++ trimEnd diff).
Proof.
  rewrite buildPrompt_unfold. split; intros H.
  - rewrite (trimEnd_blank ([10; 10]%N ++ diff)); [now rewrite app_nil_r|].
    unfold blank in *. cbn [app forallb]. exact H.
  - destruct (trimEnd_app_keep [10; 10]%N diff (trimEnd_not_blank diff H))
      as [-> _].
    reflexivity.
Qed.

Lemma buildPrompt_by_diff_witness :
  buildPrompt [] (str "M" ++ [9%N] ++ str "f.py") (str "main") =
  PROMPT_INTRO ++ str "main" ++ str PROMPT_FILES ++
  (str "M" ++ [9%N] ++ str "f.py") ++ PROMPT_BODY /\
  buildPrompt (str "+x" ++ [10%N]) (str "M" ++ [9%N] ++ str "f.py")
              (str "main") =
  PROMPT_INTRO ++ str "main" ++ str PROMPT_FILES ++
  (str "M" ++ [9%N] ++ str "f.py") ++ PROMPT_BODY ++ [10; 10]%N ++ str "+x".
Proof.
  split.
  - exact (proj1 (buildPrompt_by_diff [] (str "M" ++ [9%N] ++ str "f.py")
                                      (str "main")) eq_refl).
  - exact (proj2 (buildPrompt_by_diff (str "+x" ++ [10%N])
                                      (str "M" ++ [9%N] ++ str "f.py")
                                      (str "main")) eq_refl).
Defined.

(** X11.  A truncated output is the first 12,000 code units of the filtered
    text, less any whitespace at their start, then one blank line and the
    marker; nothing of the filtered text beyond the budget is kept. *)
Theorem truncated_output_form (rawDiff : jsstring) :
  (MAX_DIFF_CHARS < strlen (filtered rawDiff))%N ->
  preprocessDiff rawDiff =
  trimStart (slice0 MAX_DIFF_CHARS (filtered rawDiff) ++ [10; 10]%N)
  ++ MARKER_TEXT /\
  (blank (slice0 MAX_DIFF_CHARS (filtered rawDiff)) = false ->
   preprocessDiff rawDiff =
   trimStart (slice0 MAX_DIFF_CHARS (filtered rawDiff)) ++ TRUNCATION_NOTICE).
Proof.
  intros H. pose proof (preprocessDiff_truncated rawDiff H) as E.
  split; [exact E|]. intros Hb. rewrite E.
  unfold trimStart. rewrite dropWhile_app.
  pose proof (trimStart_not_blank _ Hb) as Hne. unfold trimStart in Hne.
  destruct (dropWhile is_trimmable (slice0 MAX_DIFF_CHARS (filtered rawDiff)));
    [contradiction|].
  unfold TRUNCATION_NOTICE. fold MARKER_TEXT. now rewrite <- app_assoc.
Qed.

Lemma truncated_output_form_witness :
  preprocessDiff (repeat 97%N (N.to_nat 12001)) =
  repeat 97%N (N.to_nat 12000) ++ TRUNCATION_NOTICE.
Proof.
  destruct (truncated_output_form (repeat 97%N (N.to_nat 12001))) as [_ T].
  - vm_compute. reflexivity.
  - rewrite T; vm_compute; reflexivity.
Defined.

(* ================================================================== *)
(** ** The patterns read directly *)

Lemma collapse_direct_run (s : jsstring) :
  2 <= nlrun s ->
  collapse_direct (10%N :: s) =
  10%N :: 10%N :: collapse_direct (skipn (nlrun s) s).
Proof.
  induction s as [|c s IH]; [simpl; lia|].
  cbn [nlrun]. destruct (N.eqb_spec c 10) as [->|]; [|lia].
  intros H.
  change (collapse_direct (10%N :: 10%N :: s))
    with (if (2 <=? nlrun (10%N :: s)) then collapse_direct (10%N :: s)
          else 10%N :: collapse_direct (10%N :: s)).
  cbn [nlrun N.eqb Pos.eqb skipn].
  destruct (Nat.leb_spec 2 (S (nlrun s))) as [_|]; [|lia].
  destruct (Nat.le_gt_cases 2 (nlrun s)) as [H2|H2].
  - exact (IH H2).
  - assert (E : nlrun s = 1) by lia. rewrite E.
    destruct s as [|d s]; [discriminate E|].
    cbn [nlrun] in E. destruct (N.eqb_spec d 10) as [->|]; [|discriminate E].
    assert (E0 : nlrun s = 0) by lia.
    cbn [skipn collapse_direct nlrun N.eqb Pos.eqb andb]. rewrite E0.
    reflexivity.
Qed.

Lemma collapse_is_direct (n : nat) :
  forall (s : jsstring) (prev : option N),
    length s <= n ->
    replace_all BLANK_RUN [10; 10]%N 0 prev s = collapse_direct s.
Proof.
  induction n as [|n IH]; intros s prev Hn.
  - destruct s; [reflexivity | simpl in Hn; lia].
  - destruct s as [|c s]; [reflexivity|].
    rewrite collapse_step.
    destruct (3 <=? nlrun (c :: s)) eqn:E.
    + apply Nat.leb_le in E.
      assert (Hc : c = 10%N).
      { cbn [nlrun] in E. destruct (N.eqb_spec c 10); [assumption | lia]. }
      subst c. cbn [nlrun N.eqb Pos.eqb] in E.
      rewrite collapse_direct_run by lia. cbn [app]. do 2 f_equal.
      apply IH. rewrite length_skipn. simpl in Hn. lia.
    + apply Nat.leb_gt in E. cbn [collapse_direct].
      rewrite (IH s (Some c)) by (simpl in Hn; lia).
      cbn [nlrun] in E.
      destruct (c =? 10)%N; [|reflexivity].
      destruct (Nat.leb_spec 2 (nlrun s)); [lia | reflexivity].
Qed.

(** X22.  Replacing every run of three or more line feeds by two deletes
    a line feed exactly when at least two more line feeds follow it at
    once, and keeps every other code unit. *)
Theorem collapse_blank_lines_direct (s : jsstring) :
  collapse_blank_lines s = collapse_direct s.
Proof.
  unfold collapse_blank_lines, replace. cbn [global BLANK_RUN re].
  fold BLANK_RUN. exact (collapse_is_direct (length s) s None (Nat.le_refl _)).
Qed.

(** X23.  A text whose lines match no noise pattern, that has no three
    line feeds in a row and is within the budget passes through
    [preprocessDiff] unchanged but for the trimming of its two ends. *)
Theorem clean_diff_passes_through (s : jsstring) :
  (forall l, In l (segs s) -> noise_line l = false) ->
  no_blank_run s = true ->
  (strlen s <= MAX_DIFF_CHARS)%N ->
  preprocessDiff s = trim s.
Proof.
  intros Hclean Hrun Hlen.
  assert (E1 : remove_noise s = s).
  { apply remove_noise_of_clean. intros l Hl. unfold drop_noise.
    now rewrite (Hclean l Hl). }
  assert (E2 : collapse_blank_lines s = s).
  { unfold collapse_blank_lines, replace. cbn [global BLANK_RUN re].
    fold BLANK_RUN. now apply collapse_fixed. }
  unfold preprocessDiff. rewrite E1, E2.
  apply N.ltb_ge in Hlen. now rewrite Hlen.
Qed.

Lemma clean_diff_passes_through_witness :
  preprocessDiff (str "--- a/f.py" ++ [10%N] ++ str "+++ b/f.py" ++
                  [10; 10]%N ++ str "+new" ++ [10%N])
  = str "--- a/f.py" ++ [10%N] ++ str "+++ b/f.py" ++ [10; 10]%N ++
    str "+new".
Proof.
  rewrite (clean_diff_passes_through
             (str "--- a/f.py" ++ [10%N] ++ str "+++ b/f.py" ++
              [10; 10]%N ++ str "+new" ++ [10%N])).
  - reflexivity.
  - intros l Hl. vm_compute in Hl.
    repeat (destruct Hl as [<-|Hl]; [reflexivity|]). contradiction.
  - reflexivity.
  - vm_compute. discriminate.
Defined.

Lemma dropWhile_split (p : N -> bool) (s : jsstring) :
  exists taken,
    s = taken ++ dropWhile p s /\ forallb p taken = true /\
    match dropWhile p s with [] => True | c :: _ => p c = false end.
Proof.
  induction s as [|a s (d & IH1 & IH2 & IH3)]; cbn [dropWhile].
  - now exists [].
  - destruct (p a) eqn:E.
    + exists (a :: d). cbn [app forallb]. rewrite E, IH2.
      repeat split; [now f_equal | exact IH3].
    + exists []. now repeat split.
Qed.

Lemma opt_newline_skips (prev : option N) (r : jsstring) :
  match r with [] => True | c :: _ => (c =? 10)%N = false end ->
  match_atoms true false [Opt newline] prev r = Some 0.
Proof.
  destruct r as [|c r]; [reflexivity|]. intros Hc.
  cbn [match_atoms Opt quant Nat.eqb].
  unfold newline. rewrite cls_match_one by (intros _; reflexivity).
  change (N_of_ascii "010") with 10%N.
  now rewrite N.eqb_sym, Hc.
Qed.

Lemma replace_open_direct (s : jsstring) :
  replace FENCE_OPEN [] s = strip_open_fence s.
Proof.
  unfold strip_open_fence.
  destruct (startsWith FENCE s) eqn:E;
    [|now apply replace_open_without_fence].
  unfold replace. cbn [global FENCE_OPEN re]. fold FENCE_OPEN.
  pose proof (fence_open_match s) as Hm. rewrite E in Hm.
  apply startsWith_spec in E. destruct E as [r ->].
  change (skipn 3 (FENCE ++ r)) with r in *.
  destruct (dropWhile_split is_letter r) as (tag & Hr & Htag & Hstop).
  set (rest := dropWhile is_letter r) in *.
  assert (Hk : exists m,
             match_atoms true false [Opt newline]
                         (prev_after (Some 96%N) tag) rest = Some m /\
             skipn m rest =
             match rest with
             | [] => []
             | c :: r0 => if (c =? 10)%N then r0 else c :: r0
             end).
  { destruct rest as [|c r0]; [now exists 0|].
    destruct (N.eqb_spec c 10) as [->|Hc].
    - exists 1. split; [apply opt_newline_takes | reflexivity].
    - exists 0. split; [|reflexivity].
      apply opt_newline_skips. now apply N.eqb_neq. }
  destruct Hk as (m & Hk & Hskip).
  assert (Hq : match_atoms true false [Star lower; Opt newline] (Some 96%N) r
               = Some (length tag + m)).
  { rewrite Hr. cbn [match_atoms Star].
    apply quant_takes_run.
    - destruct rest as [|c r0]; [exact I|].
      now rewrite cls_match_lower.
    - now rewrite (forallb_pointwise _ is_letter tag cls_match_lower).
    - exact Hk. }
  rewrite Hq in Hm. cbn [option_map] in Hm.
  rewrite (replace_first_match _ _ _ _ _ Hm). cbn [app].
  etransitivity; [|exact Hskip].
  change (skipn (3 + (length tag + m)) (FENCE ++ r))
    with (skipn (length tag + m) r).
  rewrite Hr at 1.
  rewrite <- (skipn_length_app tag rest) at 2.
  now rewrite skipn_skipn, Nat.add_comm.
Qed.

Lemma replace_close_direct (s : jsstring) :
  replace FENCE_CLOSE [] s = strip_close_fence s.
Proof.
  unfold strip_close_fence, replace. cbn [global FENCE_CLOSE re].
  fold FENCE_CLOSE.
  destruct (endsWith FENCE s) eqn:E.
  - apply endsWith_spec in E. destruct E as [body ->].
    rewrite replace_close_suffix, length_app.
    change (length FENCE) with 3.
    replace (length body + 3 - 3) with (length body) by lia.
    now rewrite firstn_length_app.
  - apply replace_close_without_fence. intros H.
    apply endsWith_spec in H. congruence.
Qed.

(** X24.  The two patterns of the sanitiser do what their words say: the
    first removes three backticks at the very start, the ASCII letters of
    either case after them and one line feed if it comes next; the second
    removes three backticks at the very end; the result is then trimmed. *)
Theorem sanitize_direct (s : jsstring) :
  sanitize s = trim (strip_close_fence (strip_open_fence s)).
Proof.
  unfold sanitize. now rewrite replace_open_direct, replace_close_direct.
Qed.

(* ================================================================== *)
(** ** A noise line inside a diff *)

Lemma strip_acc_break (f : jsstring -> jsstring) (x : jsstring) :
  forall acc t s,
    is_line_terminator t = true ->
    strip_acc f acc (x ++ t :: s) = strip_acc f acc x ++ t :: strip_acc f [] s.
Proof.
  induction x as [|c x IH]; intros acc t s Ht.
  - cbn [app strip_acc]. now rewrite Ht.
  - cbn [app strip_acc]. destruct (is_line_terminator c).
    + rewrite (IH [] t s Ht). now rewrite <- app_assoc.
    + now apply IH.
Qed.

Lemma prev_after_snoc (prev : option N) (x : jsstring) (t : N) :
  prev_after prev (x ++ [t]) = Some t.
Proof. unfold prev_after. now rewrite fold_left_app. Qed.

(** A text is cut at the start of a line: noise removal works on the two
    parts separately. *)
Lemma remove_noise_at_line_start (pre s : jsstring) :
  at_bol true (prev_after None pre) = true ->
  remove_noise (pre ++ s) = remove_noise pre ++ remove_noise s.
Proof.
  intros H. rewrite !remove_noise_strip. unfold strip_lines.
  destruct pre as [|t x _] using rev_ind.
  - reflexivity.
  - rewrite prev_after_snoc in H. cbn [at_bol andb] in H.
    rewrite <- app_assoc. cbn [app].
    rewrite !(strip_acc_break drop_noise x [] t _ H).
    cbn [strip_acc]. rewrite <- app_assoc. reflexivity.
Qed.

(** Three lines in a row, the last of which ends its line. *)
Lemma remove_noise_lines_then (a n b post : jsstring) :
  at_eol true post = true ->
  no_lt a = true -> no_lt n = true -> no_lt b = true ->
  remove_noise (a ++ 10%N :: n ++ 10%N :: b ++ post) =
  drop_noise a ++ 10%N :: drop_noise n ++ 10%N :: drop_noise b
  ++ remove_noise post.
Proof.
  intros Hpost Ha Hn Hb. rewrite !remove_noise_strip. unfold strip_lines.
  rewrite (strip_acc_line drop_noise a [] 10%N _ Ha eq_refl).
  rewrite (strip_acc_line drop_noise n [] 10%N _ Hn eq_refl).
  cbn [app]. do 4 f_equal.
  destruct post as [|t y].
  - rewrite app_nil_r, (strip_acc_last drop_noise b [] Hb).
    cbn [app strip_acc]. now rewrite app_nil_r.
  - cbn [at_eol andb] in Hpost.
    rewrite (strip_acc_line drop_noise b [] t y Hb Hpost).
    cbn [app strip_acc]. now rewrite Hpost.
Qed.

Lemma nlrun_app_stop (u v : jsstring) :
  nlrun v = 0 -> nlrun (u ++ v) = nlrun u.
Proof.
  intros Hv. induction u as [|c u IH]; [exact Hv|].
  cbn [app nlrun]. now rewrite IH.
Qed.

(** Blank-line collapsing works on the two sides of a place where no run
    of line feeds goes on. *)
Lemma collapse_direct_app (u v : jsstring) :
  nlrun v = 0 ->
  collapse_direct (u ++ v) = collapse_direct u ++ collapse_direct v.
Proof.
  intros Hv. induction u as [|c u IH]; [reflexivity|].
  cbn [app collapse_direct]. rewrite (nlrun_app_stop u v Hv), IH.
  now destruct ((c =? 10)%N && (2 <=? nlrun u)).
Qed.

Lemma collapse_direct_line (l w : jsstring) :
  no_lt l = true -> collapse_direct (l ++ w) = l ++ collapse_direct w.
Proof.
  intros Hl. induction l as [|c l IH]; [reflexivity|].
  cbn [no_lt forallb] in Hl. apply andb_true_iff in Hl.
  destruct Hl as [Hc Hl]. apply negb_true_iff in Hc.
  cbn [app collapse_direct]. rewrite (newline_is_terminator c Hc).
  cbn [andb]. now rewrite (IH Hl).
Qed.

Lemma nlrun_line (l w : jsstring) :
  no_lt l = true -> l <> [] -> nlrun (l ++ w) = 0.
Proof.
  intros Hl Hne. destruct l as [|c l]; [contradiction|].
  cbn [no_lt forallb] in Hl. apply andb_true_iff in Hl.
  destruct Hl as [Hc _]. apply negb_true_iff in Hc.
  cbn [app nlrun]. now rewrite (newline_is_terminator c Hc).
Qed.

Lemma collapse_blank_lines_is_direct (s : jsstring) :
  collapse_blank_lines s = collapse_direct s.
Proof.
  unfold collapse_blank_lines, replace. cbn [global BLANK_RUN re].
  fold BLANK_RUN. exact (collapse_is_direct (length s) s None (Nat.le_refl _)).
Qed.

(** A gap of two line feeds between two lines that are not empty stays,
    whatever stands before and after. *)
Lemma collapse_around_gap (u a b v : jsstring) :
  no_lt a = true -> a <> [] -> no_lt b = true -> b <> [] ->
  collapse_blank_lines (u ++ a ++ [10; 10]%N ++ b ++ v) =
  collapse_blank_lines u ++ a ++ [10; 10]%N ++ b ++ collapse_blank_lines v.
Proof.
  intros Ha Hane Hb Hbne. rewrite !collapse_blank_lines_is_direct.
  rewrite (collapse_direct_app u _ (nlrun_line a _ Ha Hane)).
  rewrite (collapse_direct_line a _ Ha).
  cbn [app collapse_direct nlrun N.eqb Pos.eqb andb].
  rewrite (nlrun_line b v Hb Hbne). cbn [Nat.leb].
  now rewrite (collapse_direct_line b v Hb).
Qed.

Lemma blank_app (x y : jsstring) : blank (x ++ y) = blank x && blank y.
Proof. apply forallb_app. Qed.

Lemma blank_nil (l : jsstring) : blank l = false -> l <> [].
Proof. intros H ->. discriminate H. Qed.

(** C8.  A line [n] that a noise pattern matches is emptied and its line
    feed kept, wherever in a diff it stands.  Let [a] be the line before it
    and [b] the line after it, neither matched by a noise pattern, with any
    text [pre] before [a] and [post] after [b] ([pre] is empty or ends with
    a line terminator, [post] is empty or starts with one, so that [a] and
    [b] are whole lines).  Noise removal leaves [a], two line feeds and [b]
    between what it makes of [pre] and of [post].  When [a] and [b] are
    not empty, blank-line collapsing leaves that gap alone; and when they
    are not blank and the filtered text is within the budget, the output
    has the two lines separated by one blank line. *)
Theorem noise_line_leaves_blank_line (pre a n b post : jsstring) :
  at_bol true (prev_after None pre) = true -> at_eol true post = true ->
  no_lt a = true -> no_lt n = true -> no_lt b = true ->
  noise_line a = false -> noise_line n = true -> noise_line b = false ->
  let rawDiff := pre ++ a ++ [10%N] ++ n ++ [10%N] ++ b ++ post in
  remove_noise rawDiff =
  remove_noise pre ++ a ++ [10; 10]%N ++ b ++ remove_noise post /\
  (a <> [] -> b <> [] ->
   filtered rawDiff = filtered pre ++ a ++ [10; 10]%N ++ b ++ filtered post) /\
  (blank a = false -> blank b = false ->
   (strlen (filtered rawDiff) <= MAX_DIFF_CHARS)%N ->
   preprocessDiff rawDiff =
   trimStart (filtered pre ++ a) ++ [10; 10]%N ++ trimEnd (b ++ filtered post)).
Proof.
  intros Hpre Hpost Ha Hn Hb Na Nn Nb rawDiff.
  assert (E1 : remove_noise rawDiff =
               remove_noise pre ++ a ++ [10; 10]%N ++ b ++ remove_noise post).
  { unfold rawDiff. rewrite (remove_noise_at_line_start pre _ Hpre).
    cbn [app]. rewrite (remove_noise_lines_then a n b post Hpost Ha Hn Hb).
    unfold drop_noise. now rewrite Na, Nn, Nb. }
  assert (E2 : a <> [] -> b <> [] ->
               filtered rawDiff =
               filtered pre ++ a ++ [10; 10]%N ++ b ++ filtered post).
  { intros Hane Hbne. unfold filtered. rewrite E1.
    now apply collapse_around_gap. }
  split; [exact E1|]. split; [exact E2|].
  intros Ba Bb Hlen. unfold preprocessDiff. fold (filtered rawDiff).
  apply N.ltb_ge in Hlen. rewrite Hlen.
  rewrite (E2 (blank_nil a Ba) (blank_nil b Bb)).
  rewrite (app_assoc (filtered pre) a).
  apply (trim_around_gap (filtered pre ++ a) (b ++ filtered post)).
  - rewrite blank_app, Ba. apply andb_false_r.
  - now rewrite blank_app, Bb.
Qed.

Lemma noise_line_leaves_blank_line_witness :
  preprocessDiff
    (str "diff --git a/f.py b/f.py" ++ [10%N] ++
     str "index 111..222 100644" ++ [10%N] ++
     str "--- a/f.py" ++ [10%N] ++
     str "diff --git a/g.py b/g.py" ++ [10%N] ++
     str "index 333..444 100644" ++ [10%N] ++
     str "--- a/g.py" ++ [10%N] ++ str "+++ b/g.py" ++ [10%N])
  = str "diff --git a/f.py b/f.py" ++ [10; 10]%N ++
    str "--- a/f.py" ++ [10%N] ++
    str "diff --git a/g.py b/g.py" ++ [10; 10]%N ++
    str "--- a/g.py" ++ [10%N] ++ str "+++ b/g.py".
Proof.
  etransitivity.
  - apply (proj2 (proj2 (noise_line_leaves_blank_line
                           (str "diff --git a/f.py b/f.py" ++ [10%N] ++
                            str "index 111..222 100644" ++ [10%N] ++
                            str "--- a/f.py" ++ [10%N])
                           (str "diff --git a/g.py b/g.py")
                           (str "index 333..444 100644")
                           (str "--- a/g.py")
                           ([10%N] ++ str "+++ b/g.py" ++ [10%N])
                           eq_refl eq_refl eq_refl eq_refl eq_refl
                           eq_refl eq_refl eq_refl))).
    + reflexivity.
    + reflexivity.
    + vm_compute. discriminate.
  - vm_compute. reflexivity.
Defined.
(* ================================================================== *)
(** ** The lines of a trimmed text *)

Lemma segs_acc_hd (s : jsstring) :
  forall acc, segs_acc acc s = (acc ++ hd [] (segs s)) :: tl (segs s).
Proof.
  unfold segs. induction s as [|c s IH]; intros acc; cbn [segs_acc].
  - cbn [hd tl]. now rewrite app_nil_r.
  - destruct (is_line_terminator c).
    + cbn [hd tl]. now rewrite app_nil_r.
    + rewrite (IH (acc ++ [c])), (IH ([] ++ [c])). cbn [hd tl app].
      now rewrite <- app_assoc.
Qed.

Lemma segs_cons_keep (c : N) (s : jsstring) :
  is_line_terminator c = false ->
  segs (c :: s) = (c :: hd [] (segs s)) :: tl (segs s).
Proof.
  intros Hc. unfold segs at 1. cbn [segs_acc]. rewrite Hc.
  now rewrite segs_acc_hd.
Qed.

Lemma segs_cons_break (c : N) (s : jsstring) :
  is_line_terminator c = true -> segs (c :: s) = [] :: segs s.
Proof. intros Hc. unfold segs. cbn [segs_acc]. now rewrite Hc. Qed.

Lemma segs_nonempty (s : jsstring) : segs s <> [].
Proof. unfold segs. rewrite segs_acc_hd. discriminate. Qed.

Lemma segs_snoc (s : jsstring) (c : N) :
  segs (s ++ [c]) =
  if is_line_terminator c then segs s ++ [[]]
  else removelast (segs s) ++ [last (segs s) [] ++ [c]].
Proof.
  induction s as [|d s IH].
  - cbn [app]. destruct (is_line_terminator c) eqn:Ec.
    + now rewrite (segs_cons_break c [] Ec).
    + now rewrite (segs_cons_keep c [] Ec).
  - cbn [app]. destruct (is_line_terminator d) eqn:Ed.
    + rewrite (segs_cons_break d _ Ed), (segs_cons_break d _ Ed), IH.
      destruct (is_line_terminator c); [reflexivity|].
      pose proof (segs_nonempty s) as Hne.
      destruct (segs s) as [|h t]; [contradiction|]. reflexivity.
    + rewrite (segs_cons_keep d _ Ed), (segs_cons_keep d _ Ed), IH.
      pose proof (segs_nonempty s) as Hne.
      destruct (segs s) as [|h t]; [contradiction|].
      destruct (is_line_terminator c).
      * reflexivity.
      * destruct t as [|h' t]; [reflexivity|].
        cbn [hd tl removelast last app]. reflexivity.
Qed.

(** The lines of a text read backwards. *)
Lemma segs_rev (s : jsstring) : segs (rev s) = rev (map (@rev N) (segs s)).
Proof.
  induction s as [|c s IH]; [reflexivity|].
  cbn [rev]. rewrite segs_snoc, IH.
  pose proof (segs_nonempty s) as Hne.
  destruct (is_line_terminator c) eqn:Ec.
  - now rewrite (segs_cons_break c s Ec).
  - rewrite (segs_cons_keep c s Ec).
    destruct (segs s) as [|h t]; [contradiction|].
    cbn [hd tl map rev].
    now rewrite removelast_last, last_last.
Qed.

Lemma blank_rev (l : jsstring) : blank (rev l) = blank l.
Proof.
  unfold blank. destruct (forallb is_trimmable l) eqn:E.
  - apply forallb_forall. intros x Hx. apply in_rev in Hx.
    rewrite forallb_forall in E. now apply E.
  - destruct (forallb is_trimmable (rev l)) eqn:E'; [|reflexivity].
    rewrite <- E. symmetry. apply forallb_forall. intros x Hx.
    rewrite forallb_forall in E'. apply E'. now apply in_rev in Hx.
Qed.

Lemma trimStart_blank (l : jsstring) : blank l = true -> trimStart l = [].
Proof. intros H. unfold trimStart. now apply dropWhile_all. Qed.

Lemma trimStart_after_blank (acc l : jsstring) :
  blank acc = true -> trimStart (acc ++ l) = trimStart l.
Proof.
  intros H. unfold trimStart. rewrite dropWhile_app.
  now rewrite (dropWhile_all _ _ H).
Qed.

(** The lines of [trimStart s]: the blank lines at the start are gone and
    the first line with text has lost the whitespace at its start. *)
Lemma segs_trimStart_acc (s : jsstring) :
  forall acc,
    blank acc = true ->
    segs (trimStart s) = lstrip (segs_acc acc s).
Proof.
  induction s as [|c s IH]; intros acc Hacc.
  - cbn [segs_acc lstrip]. now rewrite Hacc.
  - cbn [segs_acc]. destruct (is_line_terminator c) eqn:Ec.
    + assert (Ht : is_trimmable c = true)
        by (unfold is_trimmable; rewrite Ec; apply orb_true_r).
      unfold trimStart. cbn [dropWhile lstrip]. rewrite Ht, Hacc.
      exact (IH [] eq_refl).
    + destruct (is_trimmable c) eqn:Ht.
      * unfold trimStart. cbn [dropWhile]. rewrite Ht.
        apply IH. rewrite blank_app, Hacc. unfold blank. cbn [forallb].
        now rewrite Ht.
      * unfold trimStart. cbn [dropWhile]. rewrite Ht.
        rewrite (segs_cons_keep c s Ec), segs_acc_hd. cbn [lstrip].
        assert (Hb : blank ((acc ++ [c]) ++ hd [] (segs s)) = false).
        { rewrite !blank_app. unfold blank at 2. cbn [forallb].
          rewrite Ht. cbn [andb]. now rewrite andb_false_r. }
        rewrite Hb. rewrite <- app_assoc.
        rewrite (trimStart_after_blank acc _ Hacc).
        unfold trimStart. cbn [app dropWhile]. now rewrite Ht.
Qed.

Lemma segs_trimStart (s : jsstring) : segs (trimStart s) = lstrip (segs s).
Proof. exact (segs_trimStart_acc s [] eq_refl). Qed.

Lemma trimEnd_rev (s : jsstring) : trimEnd s = rev (trimStart (rev s)).
Proof. reflexivity. Qed.

Lemma segs_trimEnd (s : jsstring) : segs (trimEnd s) = rstrip (segs s).
Proof.
  rewrite trimEnd_rev, segs_rev, segs_trimStart, segs_rev. reflexivity.
Qed.

Lemma segs_trim (s : jsstring) : segs (trim s) = rstrip (lstrip (segs s)).
Proof. unfold trim. now rewrite segs_trimEnd, segs_trimStart. Qed.

(** *** Trimming a list of lines *)

Lemma lstrip_blank (ls : list jsstring) :
  forallb blank ls = true -> lstrip ls = [[]].
Proof.
  induction ls as [|l ls IH]; [reflexivity|]. cbn [forallb lstrip].
  intros H. apply andb_true_iff in H. destruct H as [-> H]. now apply IH.
Qed.

Lemma lstrip_app (B : list jsstring) (l : jsstring) (R : list jsstring) :
  forallb blank B = true -> blank l = false ->
  lstrip (B ++ l :: R) = trimStart l :: R.
Proof.
  intros HB Hl. induction B as [|b B IH].
  - cbn [app lstrip]. now rewrite Hl.
  - cbn [forallb] in HB. apply andb_true_iff in HB. destruct HB as [Hb HB].
    cbn [app lstrip]. rewrite Hb. now apply IH.
Qed.

Lemma forallb_blank_rev (B : list jsstring) :
  forallb blank B = true -> forallb blank (rev (map (@rev N) B)) = true.
Proof.
  intros H. apply forallb_forall. intros x Hx. apply in_rev in Hx.
  apply in_map_iff in Hx. destruct Hx as (y & <- & Hy).
  rewrite blank_rev. rewrite forallb_forall in H. now apply H.
Qed.

Lemma rev_lines_involutive (X : list jsstring) :
  rev (map (@rev N) (rev (map (@rev N) X))) = X.
Proof.
  rewrite map_rev, rev_involutive, map_map.
  rewrite <- (map_id X) at 2. apply map_ext. intros l. apply rev_involutive.
Qed.

Lemma rstrip_app (X : list jsstring) (l : jsstring) (B : list jsstring) :
  forallb blank B = true -> blank l = false ->
  rstrip (X ++ l :: B) = X ++ [trimEnd l].
Proof.
  intros HB Hl. unfold rstrip.
  rewrite map_app, rev_app_distr. cbn [map rev]. rewrite <- app_assoc.
  cbn [app].
  rewrite (lstrip_app _ (rev l) _ (forallb_blank_rev B HB))
    by now rewrite blank_rev.
  cbn [map rev]. now rewrite rev_lines_involutive.
Qed.

Lemma first_text_split (ls : list jsstring) :
  forallb blank ls = true \/
  exists B l R, ls = B ++ l :: R /\ forallb blank B = true /\ blank l = false.
Proof.
  induction ls as [|x ls IH]; [now left|].
  destruct (blank x) eqn:Ex.
  - destruct IH as [H|(B & l & R & -> & HB & Hl)].
    + left. cbn [forallb]. now rewrite Ex.
    + right. exists (x :: B), l, R. repeat split; [|exact Hl].
      cbn [forallb]. now rewrite Ex.
  - right. now exists [], x, ls.
Qed.

Lemma last_text_split (ls : list jsstring) :
  forallb blank ls = true \/
  exists X l B, ls = X ++ l :: B /\ forallb blank B = true /\ blank l = false.
Proof.
  induction ls as [|x ls IH]; [now left|].
  destruct IH as [H|(X & l & B & -> & HB & Hl)].
  - destruct (blank x) eqn:Ex.
    + left. cbn [forallb]. now rewrite Ex.
    + right. now exists [], x, ls.
  - right. now exists (x :: X), l, B.
Qed.

Lemma filter_blank (B : list jsstring) :
  forallb blank B = true -> filter (fun l => negb (blank l)) B = [].
Proof.
  induction B as [|b B IH]; [reflexivity|]. cbn [forallb filter].
  intros H. apply andb_true_iff in H. destruct H as [-> H]. now apply IH.
Qed.

Lemma blank_trimStart (l : jsstring) : blank (trimStart l) = blank l.
Proof.
  unfold trimStart, blank. induction l as [|c l IH]; [reflexivity|].
  cbn [dropWhile forallb]. destruct (is_trimmable c) eqn:E; [exact IH|].
  cbn [forallb]. now rewrite E.
Qed.

(** Among the lines of a trimmed text, only the first and the last can be
    lines that the text did not have. *)
Lemma trimmed_lines_noise (ls : list jsstring) :
  (forall l, In l ls -> noise_line l = false) ->
  forall L,
    noise_line L = true ->
    (In L (rstrip (lstrip ls)) <->
     In L (output_ends (filter (fun l => negb (blank l)) ls))).
Proof.
  intros Hclean L HL.
  destruct (first_text_split ls) as [Hb|(B & l1 & R & -> & HB & Hl1)].
  { rewrite (lstrip_blank ls Hb), (filter_blank ls Hb).
    split; [|contradiction].
    intros [<-|[]]. discriminate HL. }
  rewrite (lstrip_app B l1 R HB Hl1).
  rewrite filter_app, (filter_blank B HB). cbn [app filter].
  rewrite Hl1. cbn [negb].
  destruct (last_text_split R) as [Hb|(X & ln & B2 & -> & HB2 & Hln)].
  - rewrite (filter_blank R Hb).
    change (trimStart l1 :: R) with ([] ++ trimStart l1 :: R).
    rewrite (rstrip_app [] (trimStart l1) R Hb)
      by now rewrite blank_trimStart.
    reflexivity.
  - change (trimStart l1 :: X ++ ln :: B2)
      with ((trimStart l1 :: X) ++ ln :: B2).
    rewrite (rstrip_app (trimStart l1 :: X) ln B2 HB2 Hln).
    rewrite filter_app. cbn [filter].
    rewrite Hln. cbn [negb]. rewrite (filter_blank B2 HB2).
    set (Y := filter (fun l => negb (blank l)) X).
    assert (E : output_ends (l1 :: Y ++ [ln]) = [trimStart l1; trimEnd ln]).
    { cbn [output_ends]. destruct (Y ++ [ln]) as [|y ys] eqn:Ey.
      - symmetry in Ey. now apply app_cons_not_nil in Ey.
      - rewrite <- Ey, last_last. reflexivity. }
    rewrite E. cbn [app In]. rewrite in_app_iff. cbn [In].
    split; [|tauto].
    intros [H|[H|H]]; [now left | exfalso | now right].
    rewrite (Hclean L) in HL; [discriminate HL|].
    apply in_or_app. right. right. apply in_or_app. now left.
Qed.

(** *** The lines of the filtered text *)

Lemma filtered_segs_not_noise (rawDiff l : jsstring) :
  In l (segs (filtered rawDiff)) -> noise_line l = false.
Proof.
  unfold filtered, collapse_blank_lines, replace.
  cbn [global BLANK_RUN re]. fold BLANK_RUN. unfold segs. intros H.
  apply (collapse_segs l (length (remove_noise rawDiff)) _ _ _
                       (Nat.le_refl _)) in H.
  destruct H as [->|H]; [reflexivity|].
  fold (segs (remove_noise rawDiff)) in H. rewrite segs_remove_noise in H.
  apply in_map_iff in H. destruct H as (l' & <- & _).
  rewrite keep_all_cases. destruct (noise_line l') eqn:E; [reflexivity|].
  exact E.
Qed.

(** A noise line starts with a letter: it is not blank and has no
    whitespace to lose at its start. *)
Lemma literal_start (a : ascii) (ats : list atom) (g : bool) (c : N)
      (l : jsstring) :
  line_match (re g false true (Bol :: Cls (one a) :: ats)) (c :: l) = true ->
  c = N_of_ascii a.
Proof.
  unfold line_match, try_match.
  cbn [re source ignoreCase multiline match_atoms at_bol cls_match].
  unfold one. destruct (N.eqb_spec c (N_of_ascii a)); [auto | discriminate].
Qed.

Lemma noise_line_start (l : jsstring) :
  noise_line l = true ->
  exists c r, l = c :: r /\ is_trimmable c = false.
Proof.
  destruct l as [|c r]; [discriminate|]. intros H. exists c, r.
  split; [reflexivity|].
  unfold noise_line, NOISE_PATTERNS in H. cbn [existsb] in H.
  repeat (apply orb_true_iff in H; destruct H as [H|H]);
    try discriminate H;
    apply literal_start in H; subst c; reflexivity.
Qed.

Lemma noise_line_trimStart (l : jsstring) :
  noise_line l = true -> trimStart l = l.
Proof.
  intros H. destruct (noise_line_start l H) as (c & r & -> & Hc).
  unfold trimStart. cbn [dropWhile]. now rewrite Hc.
Qed.

Lemma noise_line_not_blank (l : jsstring) :
  noise_line l = true -> blank l = false.
Proof.
  intros H. destruct (noise_line_start l H) as (c & r & -> & Hc).
  unfold blank. cbn [forallb]. now rewrite Hc.
Qed.

Lemma text_lines_remove_noise (s : jsstring) :
  text_lines (remove_noise s) = content_lines s.
Proof.
  unfold content_lines, text_lines. rewrite segs_remove_noise.
  induction (segs s) as [|l ls IH]; [reflexivity|].
  cbn [map filter]. rewrite keep_all_cases, IH.
  destruct (noise_line l) eqn:En.
  - rewrite (noise_line_not_blank l En). cbn [blank forallb negb filter].
    now rewrite En.
  - destruct (blank l); cbn [negb filter]; [reflexivity|]. now rewrite En.
Qed.

Lemma text_lines_collapse_direct (u : jsstring) :
  forall acc,
    filter (fun l => negb (blank l)) (segs_acc acc (collapse_direct u)) =
    filter (fun l => negb (blank l)) (segs_acc acc u).
Proof.
  induction u as [|c u IH]; intros acc; [reflexivity|].
  cbn [collapse_direct].
  destruct (N.eqb_spec c 10) as [->|Hc].
  - cbn [andb]. destruct (Nat.leb_spec 2 (nlrun u)) as [Hrun|Hrun].
    + rewrite IH. destruct u as [|d u]; [simpl in Hrun; lia|].
      cbn [nlrun] in Hrun.
      destruct (N.eqb_spec d 10) as [->|]; [|lia].
      cbn [segs_acc is_line_terminator N.eqb Pos.eqb orb filter].
      cbn [blank forallb negb]. reflexivity.
    + cbn [segs_acc is_line_terminator N.eqb Pos.eqb orb filter].
      now rewrite IH.
  - cbn [andb segs_acc]. destruct (is_line_terminator c).
    + cbn [filter]. now rewrite IH.
    + apply IH.
Qed.

Lemma text_lines_filtered (rawDiff : jsstring) :
  text_lines (filtered rawDiff) = content_lines rawDiff.
Proof.
  unfold filtered. rewrite collapse_blank_lines_is_direct.
  rewrite <- text_lines_remove_noise. unfold text_lines, segs.
  apply text_lines_collapse_direct.
Qed.

(** *** The lines of a truncated text *)

Lemma segs_app_break (x : jsstring) :
  forall acc t y,
    is_line_terminator t = true ->
    segs_acc acc (x ++ t :: y) = segs_acc acc x ++ segs y.
Proof.
  induction x as [|c x IH]; intros acc t y Ht.
  - cbn [app segs_acc]. now rewrite Ht.
  - cbn [app segs_acc]. destruct (is_line_terminator c).
    + now rewrite (IH [] t y Ht).
    + now apply IH.
Qed.

Lemma segs_acc_nonempty (s acc : jsstring) : segs_acc acc s <> [].
Proof. rewrite segs_acc_hd. discriminate. Qed.

(** Cutting a text cuts its last line at most. *)
Lemma segs_firstn (s : jsstring) :
  forall n acc l,
    In l (removelast (segs_acc acc (firstn n s))) -> In l (segs_acc acc s).
Proof.
  induction s as [|c s IH]; intros n acc l.
  - rewrite firstn_nil. cbn [segs_acc removelast]. contradiction.
  - destruct n as [|n]; [cbn [firstn segs_acc removelast]; contradiction|].
    cbn [firstn segs_acc]. destruct (is_line_terminator c).
    + pose proof (segs_acc_nonempty (firstn n s) []) as Hne.
      assert (E : removelast (acc :: segs_acc [] (firstn n s)) =
                  acc :: removelast (segs_acc [] (firstn n s)))
        by (destruct (segs_acc [] (firstn n s)); [contradiction|reflexivity]).
      rewrite E. intros [<-|H]; [now left|].
      right. exact (IH n [] l H).
    + apply IH.
Qed.

Lemma blank_cons (c : N) (s : jsstring) :
  blank (c :: s) = is_trimmable c && blank s.
Proof. reflexivity. Qed.

Lemma blank_segs (s : jsstring) :
  forall acc, forallb blank (segs_acc acc s) = blank acc && blank s.
Proof.
  induction s as [|c s IH]; intros acc.
  - cbn [segs_acc forallb]. reflexivity.
  - cbn [segs_acc]. rewrite blank_cons.
    destruct (is_line_terminator c) eqn:Ec.
    + cbn [forallb]. rewrite (IH []).
      unfold is_trimmable. rewrite Ec, orb_true_r. reflexivity.
    + rewrite (IH (acc ++ [c])), blank_app, blank_cons.
      change (blank []) with true.
      now rewrite andb_true_r, andb_assoc.
Qed.

Lemma last_app_cons (B : list jsstring) (l : jsstring) (R : list jsstring) :
  last (B ++ l :: R) [] = last (l :: R) [].
Proof.
  induction B as [|b B IH]; [reflexivity|].
  cbn [app]. rewrite <- IH. cbn [last].
  destruct (B ++ l :: R) eqn:E; [|reflexivity].
  symmetry in E. now apply app_cons_not_nil in E.
Qed.

(** The lines of the output of a truncated diff that a noise pattern
    matches: the first line with text, cut at its start by the final
    [trim], or the line at which the text was cut. *)
Lemma truncated_lines_noise (F : jsstring) :
  (forall l, In l (segs F) -> noise_line l = false) ->
  let kept := slice0 MAX_DIFF_CHARS F in
  forall L,
    noise_line L = true ->
    (In L (segs (trimStart (kept ++ [10; 10]%N) ++ MARKER_TEXT)) <->
     L = trimStart (hd [] (text_lines kept)) \/ L = last (segs kept) []).
Proof.
  intros Hclean kept.
  assert (Hkept : forall l, In l (removelast (segs kept)) ->
                            noise_line l = false).
  { intros l Hl. apply Hclean. unfold kept, slice0, segs in *.
    exact (segs_firstn F _ [] l Hl). }
  clearbody kept. intros L HL. unfold text_lines.
  pose proof (blank_segs kept []) as Hblank. fold (segs kept) in Hblank.
  change (blank []) with true in Hblank. cbn [andb] in Hblank.
  destruct (first_text_split (segs kept))
    as [Hb|(B & l1 & R & E & HB & Hl1)].
  - (* nothing but whitespace is kept *)
    assert (Hk : blank kept = true) by congruence.
    unfold trimStart. rewrite dropWhile_app.
    fold (trimStart kept). rewrite (trimStart_blank kept Hk).
    rewrite (filter_blank _ Hb).
    split.
    + intros H. vm_compute in H. destruct H as [<-|[]]. discriminate HL.
    + intros [->| ->]; [discriminate HL|].
      apply noise_line_not_blank in HL.
      assert (Hin : In (last (segs kept) []) (segs kept)).
      { pose proof (segs_nonempty kept) as Hne.
        destruct (exists_last Hne) as (ini & x & ->).
        rewrite last_last. apply in_or_app. right. now left. }
      rewrite forallb_forall in Hb. rewrite (Hb _ Hin) in HL. discriminate.
  - assert (Hk : blank kept = false).
    { rewrite <- Hblank, E, forallb_app. cbn [forallb].
      rewrite Hl1. cbn [andb]. apply andb_false_r. }
    assert (Es : trimStart (kept ++ [10; 10]%N) = trimStart kept ++ [10; 10]%N).
    { unfold trimStart. rewrite dropWhile_app.
      pose proof (trimStart_not_blank kept Hk) as Hne. unfold trimStart in Hne.
      now destruct (dropWhile is_trimmable kept). }
    rewrite Es, <- app_assoc. cbn [app]. unfold segs at 1.
    rewrite (segs_app_break (trimStart kept) [] 10%N _ eq_refl).
    fold (segs (trimStart kept)). rewrite segs_trimStart, E.
    rewrite (lstrip_app B l1 R HB Hl1), last_app_cons.
    rewrite in_app_iff.
    rewrite filter_app, (filter_blank B HB). cbn [app filter].
    rewrite Hl1. cbn [negb hd].
    assert (Hmark : ~ In L (segs (10%N :: MARKER_TEXT))).
    { intros H. vm_compute in H.
      destruct H as [<-|[<-|[]]]; discriminate HL. }
    destruct R as [|r R' _] using rev_ind.
    + cbn [In last]. split.
      * intros [[H|[]]|H]; [now left | contradiction].
      * intros [H|H]; left; left; [now symmetry|].
        subst L. now rewrite (noise_line_trimStart l1 HL).
    + change (l1 :: R' ++ [r]) with ((l1 :: R') ++ [r]). rewrite last_last.
      cbn [app In]. rewrite in_app_iff. cbn [In]. split.
      * intros [[H|[H|[H|[]]]]|H];
          [now left | exfalso | now right | contradiction].
        rewrite (Hkept L) in HL; [discriminate HL|]. rewrite E.
        change (B ++ l1 :: R' ++ [r]) with (B ++ (l1 :: R') ++ [r]).
        rewrite app_assoc, removelast_last.
        apply in_or_app. right. now right.
      * intros [H|H]; left; [left; now symmetry | right; right; now left].
Qed.

(** C4, amended.  The text left by noise removal and blank-line collapsing
    has no line (between line terminators) that a noise pattern matches.
    What follows can make one.  Within the budget, a line that a noise
    pattern matches is a line of the output exactly when it is what the
    final [trim] makes of the first or of the last line of the diff that
    is neither blank nor noise, by taking the whitespace at the start of
    the first, at the end of the last.  Over the budget, it is one exactly
    when it is the first line with text of the 12,000 code units kept,
    without the whitespace at its start, or the line at which the text is
    cut.  And a line without line terminators that is a line of the output
    in the sense of C4, as the four named lines would be, is a line between
    line terminators. *)
Theorem noise_lines_of_the_output (rawDiff : jsstring) :
  let diff := filtered rawDiff in
  let kept := slice0 MAX_DIFF_CHARS diff in
  let output := preprocessDiff rawDiff in
  (forall l, In l (segs diff) -> noise_line l = false) /\
  ((strlen diff <= MAX_DIFF_CHARS)%N ->
   forall L,
     noise_line L = true ->
     (In L (segs output) <-> In L (output_ends (content_lines rawDiff)))) /\
  ((MAX_DIFF_CHARS < strlen diff)%N ->
   forall L,
     noise_line L = true ->
     (In L (segs output) <->
      L = trimStart (hd [] (text_lines kept)) \/ L = last (segs kept) [])) /\
  (forall L, no_lt L = true -> has_line L output = true -> In L (segs output)).
Proof.
  intros diff kept output.
  assert (Hclean : forall l, In l (segs diff) -> noise_line l = false)
    by (intros l; apply filtered_segs_not_noise).
  split; [exact Hclean|]. split; [|split].
  - intros Hlen L HL. unfold output, preprocessDiff. fold (filtered rawDiff).
    fold diff. apply N.ltb_ge in Hlen. rewrite Hlen.
    rewrite segs_trim, (trimmed_lines_noise _ Hclean L HL).
    fold (text_lines diff). unfold diff. now rewrite text_lines_filtered.
  - intros Hlen L HL. unfold output.
    rewrite (preprocessDiff_truncated rawDiff Hlen).
    exact (truncated_lines_noise diff Hclean L HL).
  - intros L HnL E. apply has_line_spec in E.
    apply (lines_segs L HnL output [] []) in E; [exact E | now left].
Qed.

Lemma noise_lines_of_the_output_witness :
  (has_line LINE_INDEX (preprocessDiff BINARY_LAST) = false /\
   has_line LINE_BINARY (preprocessDiff BINARY_LAST) = false /\
   has_line LINE_OLD_MODE (preprocessDiff BINARY_LAST) = false /\
   has_line LINE_NEW_MODE (preprocessDiff BINARY_LAST) = false) /\
  In LINE_OLD_MODE (segs (preprocessDiff CUT_AFTER_MODE)).
Proof.
  split.
  - destruct (noise_lines_of_the_output BINARY_LAST)
      as (_ & Hfits & _ & Hline).
    assert (Hnone : forall L,
               no_lt L = true -> noise_line L = true ->
               ~ In L (output_ends (content_lines BINARY_LAST)) ->
               has_line L (preprocessDiff BINARY_LAST) = false).
    { intros L HnL HL Hends.
      destruct (has_line L (preprocessDiff BINARY_LAST)) eqn:E;
        [exfalso | reflexivity].
      apply Hends. apply Hfits; [vm_compute; discriminate | exact HL|].
      now apply Hline. }
    repeat split; apply Hnone; try reflexivity;
      vm_compute; intros [H|[]]; discriminate H.
  - assert (Hover : (MAX_DIFF_CHARS < strlen (filtered CUT_AFTER_MODE))%N)
      by (vm_compute; reflexivity).
    assert (Hline : LINE_OLD_MODE =
                    last (segs (slice0 MAX_DIFF_CHARS
                                       (filtered CUT_AFTER_MODE))) [])
      by (vm_compute; reflexivity).
    destruct (noise_lines_of_the_output CUT_AFTER_MODE)
      as (_ & _ & Hcut & _).
    exact (proj2 (Hcut Hover LINE_OLD_MODE eq_refl) (or_intror Hline)).
Defined.
